(** * Distance Vector Routing Simulator: a shallow embedding of
      [distance_vector_animated.py] and the properties of its routing core.

    Modelling choices, all taken from the source:
    - node names are Python [str] values, here [string];
    - link costs are the integers of the topology ([Z], as in [main]); a
      distance is an integer or [float('inf')], here the type [dist]; of
      the two operations the code uses on distances, [<] compares an
      integer with [float('inf')] exactly, and [+] converts an integer to
      a [float] before adding it to [float('inf')], which raises
      [OverflowError] for an integer that no [float] holds ([somma]);
    - a Python [dict] keeps its insertion order and the code iterates over
      dictionaries, so a dictionary is an association list ([dict]) with
      first-match lookup and in-place replacement;
    - a method that mutates [self] returns the mutated object next to its
      result, and a failing subscript or addition returns [Solleva e] next
      to the state reached when the exception left the method;
    - the objects stored in [nodi] are distinct [Nodo] objects, as [main]
      builds them;
    - printing and drawing are recorded as abstract events in the run of
      [simula]; the text of [stampa_tabella] and the exceptions of its
      formats are modelled on their own, as the list of the strings handed
      to [print] ([stampa_tabella], [stampa_tutti]). *)

From Stdlib Require Import List String ZArith Lia Bool Arith DecimalString.
Import ListNotations.

Local Open Scope string_scope.
Local Open Scope list_scope.
Local Open Scope Z_scope.

(** ** Ordered dictionaries *)

Section Dict.
Context {V : Type}.

Definition dict := list (string * V).

(** [k in d] and [d[k]]: the first, and in a well-formed dictionary only,
    binding of [k]. *)
Fixpoint dict_get (k : string) (d : dict) : option V :=
  match d with
  | [] => None
  | (k', v) :: r => if String.eqb k k' then Some v else dict_get k r
  end.

(** [d[k] = v]: an existing key keeps its position, a new key is appended. *)
Fixpoint dict_set (k : string) (v : V) (d : dict) : dict :=
  match d with
  | [] => [(k, v)]
  | (k', v') :: r =>
      if String.eqb k k' then (k, v) :: r else (k', v') :: dict_set k v r
  end.

Definition dict_keys (d : dict) : list string := map fst d.

Definition dict_mem (k : string) (d : dict) : bool :=
  match dict_get k d with Some _ => true | None => false end.
End Dict.

Arguments dict V : clear implicits.

(** ** Distances *)

Inductive dist : Type :=
| Fin (z : Z)
| Inf.

(** The sum of two distances as extended integers. It is the value of
    Python's [+] whenever [+] returns one; [somma] below is the addition of
    [aggiorna_tabella] itself, which may raise. *)
Definition dist_add (a b : dist) : dist :=
  match a, b with
  | Fin x, Fin y => Fin (x + y)
  | _, _ => Inf
  end.

(** [nuova_distanza < distanza_corrente] *)
Definition dist_ltb (a b : dist) : bool :=
  match a, b with
  | Fin x, Fin y => x <? y
  | Fin _, Inf => true
  | Inf, _ => false
  end.

Definition dist_le (a b : dist) : Prop :=
  match a, b with
  | Fin x, Fin y => x <= y
  | _, Inf => True
  | Inf, Fin _ => False
  end.

(** ** Nodes *)

(** A routing entry [(next_hop, distanza)]; [None] is Python's [None]. *)
Definition voce : Type := option string * dist.
Definition tabella : Type := dict voce.
Definition vettore : Type := dict dist.

Record Nodo : Type := mkNodo {
  nome : string;
  vicini : dict Z;
  tabella_routing : tabella
}.

Definition con_tabella (self : Nodo) (t : tabella) : Nodo :=
  {| nome := nome self; vicini := vicini self; tabella_routing := t |}.

(** [Nodo(nome)] *)
Definition Nodo_init (n : string) : Nodo :=
  {| nome := n; vicini := []; tabella_routing := [] |}.

(** Exceptions and results of a call. *)
Inductive errore : Type :=
| KeyError (k : string)
| OverflowError.

Inductive esito (A : Type) : Type :=
| Fatto (a : A)
| Solleva (e : errore).
Arguments Fatto {A} a.
Arguments Solleva {A} e.

(** *** [Nodo.inizializza_tabella] *)

Definition voce_iniziale (self : Nodo) (nodo : string) : voce :=
  if String.eqb nodo (nome self) then (Some (nome self), Fin 0)
  else match dict_get nodo (vicini self) with
       | Some costo => (Some nodo, Fin costo)
       | None => (None, Inf)
       end.

Definition inizializza_tabella (self : Nodo) (tutti_i_nodi : list string) : Nodo :=
  con_tabella self
    (fold_left (fun t nodo => dict_set nodo (voce_iniziale self nodo) t)
               tutti_i_nodi []).

(** *** [Nodo.invia_vettore] *)

Definition invia_vettore (self : Nodo) : vettore :=
  map (fun '(dest, (_, d)) => (dest, d)) (tabella_routing self).

(** *** [Nodo.aggiorna_tabella] *)

(** An [int] that can be converted to a [float]: the conversion rounds to
    the nearest double, ties to even, and raises [OverflowError] when the
    result is not finite, that is from [2**1024 - 2**970] on. *)
Definition convertibile (c : Z) : bool := Z.abs c <? 2 ^ 1024 - 2 ^ 970.

(** The value of [costo_verso_mittente + distanza_mittente], the cost
    through the sender, when the addition returns one. *)
Definition candidato (costo : Z) (distanza_mittente : dist) : dist :=
  dist_add (Fin costo) distanza_mittente.

(** The addition succeeds: two integers are added exactly, and an integer
    is converted to a [float] before it is added to [float('inf')]. *)
Definition somma_riesce (costo : Z) (distanza_mittente : dist) : bool :=
  match distanza_mittente with
  | Fin _ => true
  | Inf => convertibile costo
  end.

(** [costo_verso_mittente + distanza_mittente] *)
Definition somma (costo : Z) (distanza_mittente : dist) : esito dist :=
  if somma_riesce costo distanza_mittente
  then Fatto (candidato costo distanza_mittente)
  else Solleva OverflowError.

(** No pair of the vector makes the addition raise. *)
Definition senza_overflow (costo : Z) (vett : vettore) : Prop :=
  forall d s, In (d, s) vett -> somma_riesce costo s = true.

(** The pair at which the loop raises: the addition of line 51 fails on
    it, or it succeeds and the destination is not in the table. *)
Definition causa_ciclo (costo : Z) (tab : tabella) (k : string) (s : dist)
    (e : errore) : Prop :=
  (somma_riesce costo s = false /\ e = OverflowError) \/
  (somma_riesce costo s = true /\ dict_get k tab = None /\ e = KeyError k).

(** The [for destinazione, distanza_mittente in vettore.items()] loop: the
    addition comes first, then the subscript; the table is the one reached
    so far, also when either of them raises. *)
Fixpoint aggiorna_ciclo (mittente : string) (costo_verso_mittente : Z)
    (vett : vettore) (tab : tabella) (modificato : bool)
    : tabella * esito bool :=
  match vett with
  | [] => (tab, Fatto modificato)
  | (destinazione, distanza_mittente) :: resto =>
      match somma costo_verso_mittente distanza_mittente with
      | Solleva e => (tab, Solleva e)
      | Fatto nuova_distanza =>
          match dict_get destinazione tab with
          | None => (tab, Solleva (KeyError destinazione))
          | Some (_, distanza_corrente) =>
              if dist_ltb nuova_distanza distanza_corrente
              then aggiorna_ciclo mittente costo_verso_mittente resto
                     (dict_set destinazione (Some mittente, nuova_distanza) tab)
                     true
              else aggiorna_ciclo mittente costo_verso_mittente resto tab
                     modificato
          end
      end
  end.

Definition aggiorna_tabella (self : Nodo) (mittente : string) (vett : vettore)
    : Nodo * esito bool :=
  match dict_get mittente (vicini self) with
  | None => (self, Solleva (KeyError mittente))
  | Some costo_verso_mittente =>
      let '(tab, r) :=
        aggiorna_ciclo mittente costo_verso_mittente vett
                       (tabella_routing self) false in
      (con_tabella self tab, r)
  end.

(** ** The simulation *)

Definition rete : Type := dict Nodo.

(** The inner loop [for vicino in nodo.vicini] of one sender. *)
Fixpoint consegna (nome_mitt : string) (vett : vettore) (destinatari : list string)
    (nodi : rete) (aggiornamenti : nat) : rete * esito nat :=
  match destinatari with
  | [] => (nodi, Fatto aggiornamenti)
  | vicino :: resto =>
      match dict_get vicino nodi with
      | None => (nodi, Solleva (KeyError vicino))
      | Some n =>
          let '(n', r) := aggiorna_tabella n nome_mitt vett in
          let nodi' := dict_set vicino n' nodi in
          match r with
          | Solleva e => (nodi', Solleva e)
          | Fatto aggiornato =>
              consegna nome_mitt vett resto nodi'
                       (if aggiornato then S aggiornamenti else aggiornamenti)
          end
      end
  end.

(** The outer loop [for nome, nodo in snapshot.items()]. *)
Fixpoint scambio (snapshot : rete) (nodi : rete) (aggiornamenti : nat)
    : rete * esito nat :=
  match snapshot with
  | [] => (nodi, Fatto aggiornamenti)
  | (nome_mitt, nodo) :: resto =>
      match consegna nome_mitt (invia_vettore nodo) (dict_keys (vicini nodo))
                     nodi aggiornamenti with
      | (nodi', Fatto agg') => scambio resto nodi' agg'
      | (nodi', Solleva e) => (nodi', Solleva e)
      end
  end.

(** One iteration of the [for iterazione in range(max_iter)] body up to the
    test: [snapshot = copy.deepcopy(nodi)] is the value of [nodi] when the
    round starts. *)
Definition esegui_round (nodi : rete) : rete * esito nat :=
  scambio nodi nodi 0%nat.

(** What the run writes and draws. *)
Inductive evento : Type :=
| Intestazione (iterazione : nat)
| Tabelle (nodi : rete)
| Disegno (iterazione : nat)
| Convergenza.

(** How the loop of [simula] was left. *)
Inductive terminazione : Type :=
| UscitaBreak (iterazione : nat)
| RangeEsaurito
| Eccezione (e : errore).
Arguments UscitaBreak iterazione%_nat.

(** A run: the nodes as the caller finds them, the output, the value of
    [aggiornamenti] at the end of every completed round, and the exit. *)
Record corsa : Type := mkCorsa {
  finale : rete;
  uscita : list evento;
  conteggi : list nat;
  fine : terminazione
}.

Fixpoint ciclo (rimaste : nat) (iterazione : nat) (nodi : rete) : corsa :=
  match rimaste with
  | O => mkCorsa nodi [] [] RangeEsaurito
  | S r =>
      match esegui_round nodi with
      | (nodi', Solleva e) =>
          mkCorsa nodi' [Intestazione (S iterazione)] [] (Eccezione e)
      | (nodi', Fatto aggiornamenti) =>
          let out := [Intestazione (S iterazione); Tabelle nodi';
                      Disegno (S iterazione)] in
          if Nat.eqb aggiornamenti 0
          then mkCorsa nodi' (out ++ [Convergenza]) [aggiornamenti]
                       (UscitaBreak (S iterazione))
          else
            let c := ciclo r (S iterazione) nodi' in
            mkCorsa (finale c) (out ++ uscita c)
                    (aggiornamenti :: conteggi c) (fine c)
      end
  end.

(** [for nodo in nodi.values(): nodo.inizializza_tabella(tutti_i_nomi)] *)
Definition inizializza_tutti (nodi : rete) : rete :=
  map (fun '(k, n) => (k, inizializza_tabella n (dict_keys nodi))) nodi.

(** [simula(nodi, G, pos, max_iter)]; [G] and [pos] only reach the drawing. *)
Definition simula (nodi : rete) (max_iter : nat) : corsa :=
  ciclo max_iter 0 (inizializza_tutti nodi).
Arguments simula nodi max_iter%_nat.




(** ** The network of [main] *)

Definition nodo_main (n : string) (v : dict Z) : Nodo :=
  {| nome := n; vicini := v; tabella_routing := tabella_routing (Nodo_init n) |}.

Definition rete_main : rete :=
  [ ("A", nodo_main "A" [("B", 1); ("C", 4)]);
    ("B", nodo_main "B" [("A", 1); ("C", 2); ("D", 7)]);
    ("C", nodo_main "C" [("A", 4); ("B", 2); ("D", 1)]);
    ("D", nodo_main "D" [("B", 7); ("C", 1)]) ].

(** [simula(nodi, G, pos)] uses the default [max_iter=10]. *)
Definition max_iter_default : nat := 10.

(** The entry of node [u] for destination [d]. *)
Definition voce_di (nodi : rete) (u d : string) : option voce :=
  match dict_get u nodi with
  | Some n => dict_get d (tabella_routing n)
  | None => None
  end.

(** ** Rounds as lists of deliveries *)

(** One call [nodi[vicino].aggiorna_tabella(nome, vettore)] of a round. *)
Record invio : Type := mkInvio {
  i_mitt : string;
  i_vett : vettore;
  i_dest : string
}.

(** The calls one sender of the snapshot makes, and those of a whole
    snapshot, in the order of the two loops. *)
Definition invii_di (nome_mitt : string) (nodo : Nodo) : list invio :=
  map (mkInvio nome_mitt (invia_vettore nodo)) (dict_keys (vicini nodo)).

Definition invii (snapshot : rete) : list invio :=
  flat_map (fun '(k, n) => invii_di k n) snapshot.

(** The calls applied one after the other to the live nodes. *)
Fixpoint applica (cs : list invio) (nodi : rete) (aggiornamenti : nat)
    : rete * esito nat :=
  match cs with
  | [] => (nodi, Fatto aggiornamenti)
  | c :: resto =>
      match dict_get (i_dest c) nodi with
      | None => (nodi, Solleva (KeyError (i_dest c)))
      | Some n =>
          let '(n', r) := aggiorna_tabella n (i_mitt c) (i_vett c) in
          let nodi' := dict_set (i_dest c) n' nodi in
          match r with
          | Solleva e => (nodi', Solleva e)
          | Fatto aggiornato =>
              applica resto nodi'
                      (if aggiornato then S aggiornamenti else aggiornamenti)
          end
      end
  end.

(** ** The double-buffered step of the specification

    Generation N+1 of every node is computed from generation N alone: node
    [k] folds, over its own old object, the vectors that the old tables
    export to it. *)

Fixpoint ricevi (k : string) (cs : list invio) (n : Nodo) (aggiornamenti : nat)
    : Nodo * esito nat :=
  match cs with
  | [] => (n, Fatto aggiornamenti)
  | c :: resto =>
      if String.eqb (i_dest c) k then
        let '(n', r) := aggiorna_tabella n (i_mitt c) (i_vett c) in
        match r with
        | Solleva e => (n', Solleva e)
        | Fatto aggiornato =>
            ricevi k resto n' (if aggiornato then S aggiornamenti else aggiornamenti)
        end
      else ricevi k resto n aggiornamenti
  end.

Fixpoint passo_sincrono_nodi (cs : list invio) (vecchi : rete)
    : option (rete * nat) :=
  match vecchi with
  | [] => Some ([], 0%nat)
  | (k, n) :: r =>
      match ricevi k cs n 0%nat with
      | (n', Fatto a) =>
          match passo_sincrono_nodi cs r with
          | Some (r', a') => Some ((k, n') :: r', (a + a')%nat)
          | None => None
          end
      | (_, Solleva _) => None
      end
  end.

Definition passo_sincrono (vecchi : rete) : option (rete * nat) :=
  let cs := invii vecchi in
  if forallb (fun c => dict_mem (i_dest c) vecchi) cs
  then passo_sincrono_nodi cs vecchi
  else None.

(** [x] more updates on top of those of a step. *)
Definition piu (x : nat) (r : option (rete * nat)) : option (rete * nat) :=
  match r with
  | Some (s, a) => Some (s, (a + x)%nat)
  | None => None
  end.

Definition uno_se (b : bool) : nat := if b then 1%nat else 0%nat.

(** ** Runs as a step relation *)

(** [evolve s s']: [s'] is [s] after zero or more rounds (the last one
    possibly interrupted by an exception). *)
Inductive evolve : rete -> rete -> Prop :=
| evolve_qui s : evolve s s
| evolve_round s s1 s2 r :
    evolve s s1 -> esegui_round s1 = (s2, r) -> evolve s s2.

Definition raggiungibile (nodi0 s : rete) : Prop :=
  evolve (inizializza_tutti nodi0) s.

(** ** The graph of a network and its shortest paths *)

Definition grafo : Type := dict (dict Z).

Definition topologia (nodi : rete) : grafo :=
  map (fun '(k, n) => (k, vicini n)) nodi.

(** [u] has [v] in its neighbour map, with cost [c]. *)
Definition arco (g : grafo) (u v : string) (c : Z) : Prop :=
  exists vs, dict_get u g = Some vs /\ dict_get v vs = Some c.

(** A walk from [u] to [d] and the sum of its link costs. *)
Inductive cammino (g : grafo) : string -> string -> Z -> Prop :=
| cammino_fermo u : In u (dict_keys g) -> cammino g u u 0
| cammino_passo u v d c x :
    arco g u v c -> cammino g v d x -> cammino g u d (c + x).

Definition distanza_minima (g : grafo) (u d : string) (x : Z) : Prop :=
  cammino g u d x /\ forall y, cammino g u d y -> x <= y.

(** [h] is the node itself for its own identity, and otherwise the first
    hop of a shortest walk from [u] to [d]. *)
Definition hop_valido (g : grafo) (u d : string) (h : option string) : Prop :=
  (u = d /\ h = Some u) \/
  (u <> d /\ exists v c y, h = Some v /\ arco g u v c /\
                           distanza_minima g v d y /\
                           distanza_minima g u d (c + y)).

Definition fortemente_connesso (g : grafo) : Prop :=
  forall u d, In u (dict_keys g) -> In d (dict_keys g) ->
              exists x, cammino g u d x.

(** A well-formed network: the keys of [nodi] are the names of the nodes,
    and every neighbour is a node that lists the node back. *)
Record rete_valida (nodi : rete) : Prop := mkValida {
  rv_chiavi : NoDup (dict_keys nodi);
  rv_nomi : forall k n, In (k, n) nodi -> nome n = k;
  rv_vicini : forall k n v c,
      In (k, n) nodi -> dict_get v (vicini n) = Some c ->
      exists m, dict_get v nodi = Some m /\ dict_mem k (vicini m) = true
}.

Definition costi_non_negativi (nodi : rete) : Prop :=
  forall k n v c, In (k, n) nodi -> dict_get v (vicini n) = Some c -> 0 <= c.

(** Every link cost can be converted to a [float], so that no addition of
    a run raises [OverflowError]. *)
Definition costi_rappresentabili (nodi : rete) : Prop :=
  forall k n v c, In (k, n) nodi -> dict_get v (vicini n) = Some c ->
                  convertibile c = true.

(** Every pair of nodes has the distance of a shortest walk and a valid
    next hop. *)
Definition tabelle_ottime (g : grafo) (s : rete) : Prop :=
  forall u d, In u (dict_keys g) -> In d (dict_keys g) ->
    exists h x, voce_di s u d = Some (h, Fin x) /\
                distanza_minima g u d x /\ hop_valido g u d h.

(** ** The states of a run *)

(** The tables printed at the end of every completed round. *)
Definition tabelle_di (out : list evento) : list rete :=
  flat_map (fun e => match e with Tabelle t => [t] | _ => [] end) out.

(** The state after the initialisation followed by the state after every
    completed round of [simula]. *)
Definition stati (nodi : rete) (max_iter : nat) : list rete :=
  inizializza_tutti nodi :: tabelle_di (uscita (simula nodi max_iter)).

(** Each state of the list is the previous one after one completed round. *)
Fixpoint catena (s : rete) (l : list rete) : Prop :=
  match l with
  | [] => True
  | t :: l' => (exists a, esegui_round s = (t, Fatto a)) /\ catena t l'
  end.

(** No distance of [s'] is above the distance [s] has for the same node and
    destination. *)
Definition non_crescente (s s' : rete) : Prop :=
  forall u d h x, voce_di s u d = Some (h, x) ->
    exists h' x', voce_di s' u d = Some (h', x') /\ dist_le x' x.

(** The entry of a node for its own name. *)
Definition voce_propria (n : Nodo) : option voce :=
  dict_get (nome n) (tabella_routing n).

(** ** Invariants of a node under non-negative costs *)

Definition vettore_non_negativo (v : vettore) : Prop :=
  forall d x, In (d, Fin x) v -> 0 <= x.

(** The table has one entry per key, the link costs and the finite distances
    are not negative, and the entry for the node itself is (self, 0). *)
Definition inv_base (n : Nodo) : Prop :=
  NoDup (dict_keys (tabella_routing n)) /\
  (forall v c, dict_get v (vicini n) = Some c -> 0 <= c) /\
  voce_propria n = Some (Some (nome n), Fin 0) /\
  (forall d h x, dict_get d (tabella_routing n) = Some (h, Fin x) -> 0 <= x).

(** ** Fixed points *)

(** The call [c] can be made and finds nothing to improve in the live
    nodes [nodi]. *)
Definition stabile (nodi : rete) (c : invio) : Prop :=
  exists n costo,
    dict_get (i_dest c) nodi = Some n /\
    dict_get (i_mitt c) (vicini n) = Some costo /\
    (forall d s, In (d, s) (i_vett c) ->
       exists h cur, dict_get d (tabella_routing n) = Some (h, cur) /\
                     dist_ltb (candidato costo s) cur = false) /\
    senza_overflow costo (i_vett c).

(** The rounds a run has started: one header is printed per round. *)
Definition round_iniziati (c : corsa) : nat :=
  List.length (filter (fun e => match e with Intestazione _ => true | _ => false end)
                 (uscita c)).

(** ** A node and a vector with a destination the node does not know *)

Definition nodo_esempio : Nodo :=
  inizializza_tabella (nodo_main "A" [("B", 1)]) ["A"; "B"; "C"].

Definition vettore_esempio : vettore := [("C", Fin 2); ("X", Fin 0)].

(** ** Invariants of a node with respect to the graph *)

(** A finite entry of node [u] for destination [d] is backed by a walk: it
    is (self, 0) for the node itself, and otherwise its next hop is a
    neighbour from which a walk to [d] completes the stored distance. *)
Definition voce_fondata (g : grafo) (u d : string) (h : option string) (x : Z)
    : Prop :=
  (u = d -> h = Some u /\ x = 0) /\
  (u <> d -> exists v c y, h = Some v /\ arco g u v c /\
                           cammino g v d y /\ x = c + y).

Definition inv_grafo (g : grafo) (k : string) (n : Nodo) : Prop :=
  nome n = k /\ inv_base n /\ dict_get k g = Some (vicini n) /\
  (forall d, In d (dict_keys (tabella_routing n)) <-> In d (dict_keys g)) /\
  (forall d h x, dict_get d (tabella_routing n) = Some (h, Fin x) ->
                 voce_fondata g k d h x).

(** Every finite distance of the vector is the cost of a walk from the
    sender. *)
Definition vettore_fondato (g : grafo) (c : invio) : Prop :=
  vettore_non_negativo (i_vett c) /\
  forall d y, In (d, Fin y) (i_vett c) -> cammino g (i_mitt c) d y.

(** Whoever is listed as a neighbour lists the node back. *)
Definition grafo_simmetrico (g : grafo) : Prop :=
  forall u v c, arco g u v c -> exists c', arco g v u c'.

(** Node A of [main] after the initialisation, and the vector B exports
    before the first round. *)
Definition nodo_A_main : Nodo :=
  inizializza_tabella (nodo_main "A" [("B", 1); ("C", 4)]) ["A"; "B"; "C"; "D"].

Definition vettore_B_main : vettore :=
  [("A", Fin 1); ("B", Fin 0); ("C", Fin 2); ("D", Fin 7)].

(** ** Walks as lists of nodes, and how far the tables have got *)

Definition grafo_non_negativo (g : grafo) : Prop :=
  forall u v c, arco g u v c -> 0 <= c.

(** [percorso g p u d y]: [p] lists the nodes of a walk from [u] to [d] of
    cost [y], both ends included. *)
Inductive percorso (g : grafo) : list string -> string -> string -> Z -> Prop :=
| percorso_fermo u : In u (dict_keys g) -> percorso g [u] u u 0
| percorso_passo u v d c y p :
    arco g u v c -> percorso g p v d y -> percorso g (u :: p) u d (c + y).

(** The tables of [s] are not above the cost of any walk of at most [r]
    links. *)
Definition entro (g : grafo) (s : rete) (r : nat) : Prop :=
  forall p u d y, percorso g p u d y -> (List.length p <= S r)%nat ->
    exists h x, voce_di s u d = Some (h, Fin x) /\ x <= y.

(** The node keeps its neighbour map and no distance grows. *)
Definition nodo_non_crescente (n n' : Nodo) : Prop :=
  vicini n' = vicini n /\
  forall d h x, dict_get d (tabella_routing n) = Some (h, x) ->
    exists h' x', dict_get d (tabella_routing n') = Some (h', x') /\
                  dist_le x' x.

(** After the call [c] the receiver holds, for every destination of the
    vector, a distance that is not above the candidate. *)
Definition recepito (nodi : rete) (c : invio) : Prop :=
  exists n costo,
    dict_get (i_dest c) nodi = Some n /\
    dict_get (i_mitt c) (vicini n) = Some costo /\
    forall d s, In (d, s) (i_vett c) ->
      exists h cur, dict_get d (tabella_routing n) = Some (h, cur) /\
                    dist_le cur (candidato costo s).

(** ** Forwarding along the tables *)

(** Follow the next hops of the tables from [u] towards [d], for at most
    [passi] links, and return the nodes met. *)
Fixpoint instrada (s : rete) (passi : nat) (u d : string)
    : option (list string) :=
  if String.eqb u d then Some [d]
  else match passi with
       | O => None
       | S f =>
           match voce_di s u d with
           | Some (Some v, _) =>
               match instrada s f v d with
               | Some p => Some (u :: p)
               | None => None
               end
           | _ => None
           end
       end.

(** [rotta s d u p]: [p] is the list of nodes met from [u] to [d] when
    every node forwards to the next hop of its table. *)
Inductive rotta (s : rete) (d : string) : string -> list string -> Prop :=
| rotta_arrivo : rotta s d d [d]
| rotta_passo u v x p :
    u <> d -> voce_di s u d = Some (Some v, x) -> rotta s d v p ->
    rotta s d u (u :: p).

(** The next hop of a finite entry holds a distance that either already
    beats the entry or completes it exactly, and then it comes earlier in
    the order [rk] in which the routes were learnt. *)
Definition hop_ordinato (g : grafo) (rk : string -> string -> nat) (s : rete)
    : Prop :=
  forall u d v x, u <> d -> voce_di s u d = Some (Some v, Fin x) ->
    exists c hv y, arco g u v c /\ voce_di s v d = Some (hv, Fin y) /\
                   (c + y < x \/ (c + y = x /\ (rk v d < rk u d)%nat)).

(** The live table of the sender is not above the vector it exported. *)
Definition non_sopra (s : rete) (c : invio) : Prop :=
  forall d y, In (d, Fin y) (i_vett c) ->
    exists hv y', voce_di s (i_mitt c) d = Some (hv, Fin y') /\ y' <= y.

(** The entry for [d] is strictly better in [n1] than in [n0]. *)
Definition cambiata (n0 n1 : Nodo) (d : string) : bool :=
  match dict_get d (tabella_routing n1), dict_get d (tabella_routing n0) with
  | Some (_, x1), Some (_, x0) => dist_ltb x1 x0
  | _, _ => false
  end.

(** Forwarding hop by hop along the tables of [s] takes every node to every
    destination over a shortest walk. *)
Definition inoltro_ottimo (g : grafo) (s : rete) : Prop :=
  forall u d, In u (dict_keys g) -> In d (dict_keys g) ->
    exists p x, instrada s (List.length s) u d = Some p /\
                percorso g p u d x /\ distanza_minima g u d x.


(** ** Distances as values *)

(** The smaller of two distances; on a tie the second, as [<] decides. *)
Definition dist_min (a b : dist) : dist := if dist_ltb a b then a else b.

(** The distance node [u] stores for destination [d]. *)
Definition distanza_di (s : rete) (u d : string) : option dist :=
  option_map snd (voce_di s u d).

(** ** [Nodo.stampa_tabella]

    The text is the list of the strings handed to [print], one per call.
    Names are ASCII strings, so that the length of a string is the number
    of its characters. *)

Definition a_capo : string := String (Ascii.ascii_of_nat 10) EmptyString.

Fixpoint spazi (n : nat) : string :=
  match n with
  | O => EmptyString
  | S m => String (Ascii.ascii_of_nat 32) (spazi m)
  end.

(** The format specification [^larghezza]: the text is centred, the odd
    space goes to the right, a longer text is left as it is. *)
Definition centra (larghezza : nat) (s : string) : string :=
  let riempimento := (larghezza - String.length s)%nat in
  let sinistra := (riempimento / 2)%nat in
  (spazi sinistra ++ s ++ spazi (riempimento - sinistra))%string.

(** The decimal digits of an integer, as [format] writes them when it
    writes them. *)
Definition decimale (z : Z) : string := NilZero.string_of_int (Z.to_int z).

(** CPython, from 3.11 on, refuses to write the decimal digits of an
    integer that has more than 4300 of them (the default of
    [sys.set_int_max_str_digits]) and raises [ValueError]. *)
Definition stampabile (z : Z) : bool := Z.abs z <? 10 ^ 4300.

(** The exceptions of the formats of a row: [None] has no format [^8],
    and an integer may have too many digits. *)
Inductive errore_stampa : Type :=
| TypeError
| ValueError.

(** What [stampa_tabella] has printed when it returns, or when a format
    raises. *)
Inductive esito_stampa : Type :=
| Stampato (righe : list string)
| SollevaStampa (e : errore_stampa) (righe : list string).

Definition separatore : string := " | ".

(** The row of one destination. The fields of the f-string are formatted
    from left to right: the next hop before the distance. *)
Definition riga_tabella (destinazione : string) (v : voce)
    : string + errore_stampa :=
  match v with
  | (next_hop, Fin distanza) =>
      match next_hop with
      | None => inr TypeError
      | Some h =>
          if stampabile distanza
          then inl (centra 12 destinazione ++ separatore ++ centra 8 h ++
                    separatore ++ centra 8 (decimale distanza))%string
          else inr ValueError
      end
  | (_, Inf) =>
      inl (centra 12 destinazione ++ separatore ++ centra 8 "--" ++
           separatore ++ centra 8 "INF")%string
  end.

Fixpoint stampa_righe (tab : tabella) (fatte : list string) : esito_stampa :=
  match tab with
  | [] => Stampato fatte
  | (destinazione, v) :: resto =>
      match riga_tabella destinazione v with
      | inl r => stampa_righe resto (fatte ++ [r])
      | inr e => SollevaStampa e fatte
      end
  end.

Definition intestazione_colonne : string := "Destinazione | Next Hop | Distanza".

Definition stampa_tabella (self : Nodo) : esito_stampa :=
  stampa_righe (tabella_routing self)
    [(a_capo ++ "Tabella di routing del nodo " ++ nome self ++ ":")%string;
     intestazione_colonne].

(** [for nodo in nodi.values(): nodo.stampa_tabella()] *)
Fixpoint stampa_tutti (nodi : rete) (fatte : list string) : esito_stampa :=
  match nodi with
  | [] => Stampato fatte
  | (_, nodo) :: resto =>
      match stampa_tabella nodo with
      | Stampato righe => stampa_tutti resto (fatte ++ righe)
      | SollevaStampa e righe => SollevaStampa e (fatte ++ righe)
      end
  end.

(** Every finite distance of the node has digits that can be written. *)
Definition distanze_stampabili (n : Nodo) : Prop :=
  forall d h x, In (d, (h, Fin x)) (tabella_routing n) -> stampabile x = true.

(** The text [t] stands in a field of width [w] between [l] spaces and [r]
    spaces: the field is as wide as [w] or as the text if this is longer,
    and the text is in the middle, the odd space on its right. *)
Definition centrato (w : nat) (t : string) (l r : nat) : Prop :=
  (l + String.length t + r = Nat.max w (String.length t))%nat /\
  (l <= r <= l + 1)%nat.

(** The row [r] is made of the three texts [a], [b] and [c], each centred
    in its field of 12, 8 and 8 characters, joined by [" | "]. *)
Definition riga_di_campi (r a b c : string) : Prop :=
  exists l1 r1 l2 r2 l3 r3,
    r = (spazi l1 ++ a ++ spazi r1 ++ " | " ++
         spazi l2 ++ b ++ spazi r2 ++ " | " ++
         spazi l3 ++ c ++ spazi r3)%string /\
    centrato 12 a l1 r1 /\ centrato 8 b l2 r2 /\ centrato 8 c l3 r3.

(** The entries of a node are those the code writes: infinite exactly when
    there is no next hop, and a next hop is the node or a neighbour. *)
Definition voci_regolari (n : Nodo) : Prop :=
  NoDup (dict_keys (tabella_routing n)) /\
  forall d h x, In (d, (h, x)) (tabella_routing n) ->
    (x = Inf <-> h = None) /\
    (forall v, h = Some v -> v = nome n \/ In v (dict_keys (vicini n))).

(** ** Networks by their links *)

(** Node [k] may send to its neighbour [v]: [v] is a node and lists [k]. *)
Definition vicino_ammesso (g : grafo) (k v : string) : bool :=
  match dict_get v g with
  | Some ws => dict_mem k ws
  | None => false
  end.

Definition adiacenza_chiusa (nodi : rete) : bool :=
  forallb (fun '(k, vs) =>
             forallb (vicino_ammesso (topologia nodi) k) (dict_keys vs))
          (topologia nodi).

(** Why the call [c] raises in [nodi]: the receiver is not a node, the
    receiver does not list the sender, or it lists it with a cost that
    cannot be converted to a [float]. *)
Definition causa_invio (nodi : rete) (c : invio) (e : errore) : Prop :=
  (e = KeyError (i_dest c) /\ dict_get (i_dest c) nodi = None) \/
  (exists n, dict_get (i_dest c) nodi = Some n /\
     ((e = KeyError (i_mitt c) /\ dict_get (i_mitt c) (vicini n) = None) \/
      (e = OverflowError /\
       exists costo, dict_get (i_mitt c) (vicini n) = Some costo /\
                     convertibile costo = false))).

(** Some node [k] lists a neighbour [v] to which its vector cannot be
    delivered, for the reason that [e] names. *)
Definition causa_round (nodi : rete) (e : errore) : Prop :=
  exists k n v, In (k, n) nodi /\ In v (dict_keys (vicini n)) /\
                causa_invio nodi (mkInvio k (invia_vettore n) v) e.

Definition senza_collegamenti (nodi : rete) : Prop :=
  forall k n, In (k, n) nodi -> vicini n = [].

(** Every link costs the same in both directions. *)
Definition costi_simmetrici (g : grafo) : Prop :=
  forall u v c, arco g u v c -> arco g v u c.

(** What [simula] reads of the nodes it is given: keys, names and
    neighbour maps. *)
Definition forma (nodi : rete) : list (string * (string * dict Z)) :=
  map (fun '(k, n) => (k, (nome n, vicini n))) nodi.

(** Two nodes joined by one link that costs [-1] in both directions. *)
Definition rete_negativa : rete :=
  [ ("A", nodo_main "A" [("B", -1)]); ("B", nodo_main "B" [("A", -1)]) ].

(** Three nodes in a line, the first link with a cost that no [float]
    holds. *)
Definition rete_enorme : rete :=
  [ ("A", nodo_main "A" [("B", 2 ^ 1024)]);
    ("B", nodo_main "B" [("A", 2 ^ 1024); ("C", 1)]);
    ("C", nodo_main "C" [("B", 1)]) ].

(** A node that lists a neighbour which is not a node. *)
Definition rete_aperta : rete :=
  [ ("A", nodo_main "A" [("B", 1)]) ].

(** Three nodes in a line and a fourth one apart. *)
Definition rete_divisa : rete :=
  [ ("A", nodo_main "A" [("B", 2)]);
    ("B", nodo_main "B" [("A", 2); ("C", 3)]);
    ("C", nodo_main "C" [("B", 3)]);
    ("D", nodo_main "D" []) ].

(** * Properties *)

(** ** Dictionaries *)

Section DictFacts.
Context {V : Type}.
Implicit Types (d : dict V) (k : string) (v : V).

Lemma dict_get_set_eq k v d : dict_get k (dict_set k v d) = Some v.
Proof.
  induction d as [|[k' v'] r IH]; simpl.
  - now rewrite String.eqb_refl.
  - destruct (String.eqb k k') eqn:E; simpl.
    + now rewrite String.eqb_refl.
    + now rewrite E.
Qed.

Lemma dict_get_set_ne k k' v d :
  k <> k' -> dict_get k' (dict_set k v d) = dict_get k' d.
Proof.
  intros Hne. induction d as [|[k0 v0] r IH]; simpl.
  - destruct (String.eqb_spec k' k); congruence.
  - destruct (String.eqb_spec k k0) as [->|Hk]; simpl.
    + destruct (String.eqb_spec k' k0); congruence.
    + now rewrite IH.
Qed.

Lemma dict_get_set k k' v d :
  dict_get k' (dict_set k v d) =
  if String.eqb k' k then Some v else dict_get k' d.
Proof.
  destruct (String.eqb_spec k' k) as [->|Hne].
  - apply dict_get_set_eq.
  - apply dict_get_set_ne; congruence.
Qed.

Lemma dict_set_same k v d : dict_get k d = Some v -> dict_set k v d = d.
Proof.
  induction d as [|[k' v'] r IH]; simpl; [discriminate|].
  destruct (String.eqb_spec k k') as [->|Hne]; intros H.
  - now inversion H.
  - now rewrite IH.
Qed.

Lemma dict_keys_set_present k v v0 d :
  dict_get k d = Some v0 -> dict_keys (dict_set k v d) = dict_keys d.
Proof.
  unfold dict_keys.
  induction d as [|[k' v'] r IH]; simpl; [discriminate|].
  destruct (String.eqb_spec k k') as [->|Hne]; intros H; simpl.
  - reflexivity.
  - now rewrite IH.
Qed.

Lemma dict_get_In k v d : dict_get k d = Some v -> In (k, v) d.
Proof.
  induction d as [|[k' v'] r IH]; simpl; [discriminate|].
  destruct (String.eqb_spec k k') as [->|Hne]; intros H.
  - inversion H; now left.
  - right; auto.
Qed.

Lemma dict_get_None k d : dict_get k d = None <-> ~ In k (dict_keys d).
Proof.
  unfold dict_keys.
  induction d as [|[k' v'] r IH]; simpl.
  - tauto.
  - destruct (String.eqb_spec k k') as [->|Hne].
    + split; [discriminate | intros H; exfalso; apply H; now left].
    + rewrite IH. split; [intros H [E|E]; [congruence|tauto] | tauto].
Qed.

Lemma dict_get_Some_key k d :
  In k (dict_keys d) <-> exists v, dict_get k d = Some v.
Proof.
  destruct (dict_get k d) as [v|] eqn:E.
  - split; [eauto|]. intros _.
    apply dict_get_In in E. unfold dict_keys.
    change k with (fst (k, v)). now apply in_map.
  - apply dict_get_None in E. split; [tauto | intros [v Hv]; discriminate].
Qed.

Lemma dict_mem_true k d : dict_mem k d = true <-> In k (dict_keys d).
Proof.
  unfold dict_mem. rewrite dict_get_Some_key.
  destruct (dict_get k d); split; eauto; try discriminate.
  intros [v Hv]; discriminate.
Qed.

Lemma In_dict_get k v d :
  NoDup (dict_keys d) -> In (k, v) d -> dict_get k d = Some v.
Proof.
  unfold dict_keys.
  induction d as [|[k' v'] r IH]; simpl; [tauto|].
  intros Hnd [E|E]; inversion Hnd as [|? ? Hnotin Hnd']; subst.
  - inversion E; subst. now rewrite String.eqb_refl.
  - destruct (String.eqb_spec k k') as [->|Hne]; [|auto].
    exfalso. apply Hnotin. change k' with (fst (k', v)). now apply in_map.
Qed.

Lemma In_dict_set k v k' v' d :
  In (k', v') (dict_set k v d) -> (k' = k /\ v' = v) \/ In (k', v') d.
Proof.
  induction d as [|[k0 v0] r IH]; simpl.
  - intros [E|[]]; inversion E; auto.
  - destruct (String.eqb_spec k k0) as [->|Hne]; simpl.
    + intros [E|E]; [inversion E; auto | auto].
    + intros [E|E]; [auto | destruct (IH E); auto].
Qed.

Lemma dict_keys_set_In k v i d :
  In i (dict_keys (dict_set k v d)) <-> i = k \/ In i (dict_keys d).
Proof.
  unfold dict_keys.
  induction d as [|[k0 v0] r IH]; simpl.
  - intuition congruence.
  - destruct (String.eqb_spec k k0) as [->|Hne]; simpl.
    + intuition congruence.
    + rewrite IH. intuition congruence.
Qed.

Lemma dict_keys_set_NoDup k v d :
  NoDup (dict_keys d) -> NoDup (dict_keys (dict_set k v d)).
Proof.
  induction d as [|[k0 v0] r IH]; simpl.
  - intros _. constructor; [simpl; tauto | constructor].
  - intros Hnd. inversion Hnd as [|? ? Hnotin Hnd']; subst.
    destruct (String.eqb_spec k k0) as [->|Hne]; simpl.
    + now constructor.
    + constructor; [|now apply IH].
      fold (dict_keys (dict_set k v r)). rewrite dict_keys_set_In.
      intros [E|E]; [congruence | auto].
Qed.
End DictFacts.

(** ** Distances *)

Lemma dist_ltb_false_le a b : dist_ltb a b = false -> dist_le b a.
Proof.
  destruct a as [x|], b as [y|]; simpl; try discriminate; auto.
  intros H. apply Z.ltb_ge in H. exact H.
Qed.

Lemma dist_ltb_true_le a b : dist_ltb a b = true -> dist_le a b.
Proof.
  destruct a as [x|], b as [y|]; simpl; try discriminate; auto.
  intros H. apply Z.ltb_lt in H. lia.
Qed.

Lemma dist_ltb_true_neq a b : dist_ltb a b = true -> a <> b.
Proof.
  destruct a as [x|], b as [y|]; simpl; try discriminate.
  intros H E. inversion E; subst. rewrite Z.ltb_irrefl in H. discriminate.
Qed.

Lemma dist_ltb_trans a b c :
  dist_ltb a b = true -> dist_ltb b c = true -> dist_ltb a c = true.
Proof.
  destruct a as [x|], b as [y|], c as [z|]; simpl; try discriminate; auto.
  rewrite !Z.ltb_lt. lia.
Qed.

Lemma dist_le_refl a : dist_le a a.
Proof. destruct a; simpl; auto; lia. Qed.

Lemma dist_le_trans a b c : dist_le a b -> dist_le b c -> dist_le a c.
Proof. destruct a, b, c; simpl; auto; try lia; tauto. Qed.

(** ** [inizializza_tabella] *)

Section Inizializza.
Variable self : Nodo.

Let passo (t : tabella) (nodo : string) : tabella :=
  dict_set nodo (voce_iniziale self nodo) t.

Lemma init_fold_keys_In l : forall t i,
  In i (dict_keys (fold_left passo l t)) <-> In i (dict_keys t) \/ In i l.
Proof.
  induction l as [|a l IH]; intros t i; simpl.
  - tauto.
  - rewrite IH. unfold passo. rewrite dict_keys_set_In.
    intuition congruence.
Qed.

Lemma init_fold_NoDup l : forall t,
  NoDup (dict_keys t) -> NoDup (dict_keys (fold_left passo l t)).
Proof.
  induction l as [|a l IH]; intros t Hnd; simpl; [assumption|].
  apply IH. now apply dict_keys_set_NoDup.
Qed.

Lemma init_fold_get_notin l : forall t i,
  ~ In i l -> dict_get i (fold_left passo l t) = dict_get i t.
Proof.
  induction l as [|a l IH]; intros t i Hni; simpl; [reflexivity|].
  rewrite IH by (simpl in Hni; tauto).
  unfold passo. apply dict_get_set_ne. simpl in Hni. intros ->. tauto.
Qed.

Lemma init_fold_get_in l : forall t i,
  In i l -> dict_get i (fold_left passo l t) = Some (voce_iniziale self i).
Proof.
  induction l as [|a l IH]; intros t i Hin; simpl; [destruct Hin|].
  destruct (in_dec string_dec i l) as [Hl|Hl].
  - now apply IH.
  - destruct Hin as [->|Hin]; [|contradiction].
    rewrite init_fold_get_notin by assumption.
    unfold passo. apply dict_get_set_eq.
Qed.

Lemma inizializza_get tutti i :
  In i tutti ->
  dict_get i (tabella_routing (inizializza_tabella self tutti)) =
  Some (voce_iniziale self i).
Proof. intros H. simpl. now apply (init_fold_get_in tutti []). Qed.

Lemma inizializza_keys tutti i :
  In i (dict_keys (tabella_routing (inizializza_tabella self tutti))) <->
  In i tutti.
Proof.
  pose proof (init_fold_keys_In tutti [] i) as H.
  unfold passo in H. simpl in *. tauto.
Qed.
End Inizializza.

(** C4. After [inizializza_tabella] the table has exactly one entry for every
    identity of the given collection and no other: (self, 0) for the node's
    own name, (neighbour, link cost) for a name of the neighbour map, and
    (None, inf) for every other name; name and neighbour map are untouched. *)
Theorem inizializza_tabella_spec (self : Nodo) (tutti_i_nodi : list string) :
  let self' := inizializza_tabella self tutti_i_nodi in
  let tab := tabella_routing self' in
  nome self' = nome self /\ vicini self' = vicini self /\
  NoDup (dict_keys tab) /\
  (forall i, In i (dict_keys tab) <-> In i tutti_i_nodi) /\
  (forall i, In i tutti_i_nodi ->
     (i = nome self -> dict_get i tab = Some (Some (nome self), Fin 0)) /\
     (i <> nome self -> forall c, dict_get i (vicini self) = Some c ->
        dict_get i tab = Some (Some i, Fin c)) /\
     (i <> nome self -> dict_get i (vicini self) = None ->
        dict_get i tab = Some (None, Inf))).
Proof.
  intros self' tab. subst self' tab.
  split; [reflexivity|]. split; [reflexivity|].
  split.
  { simpl. apply init_fold_NoDup. constructor. }
  split; [apply inizializza_keys|].
  intros i Hi. rewrite (inizializza_get self _ _ Hi). unfold voce_iniziale.
  destruct (String.eqb_spec i (nome self)) as [E|E].
  - repeat split; intros; congruence.
  - repeat split; intros; try congruence.
    + match goal with H : dict_get _ _ = Some _ |- _ => now rewrite H end.
    + match goal with H : dict_get _ _ = None |- _ => now rewrite H end.
Qed.

(** ** [aggiorna_tabella] *)

Section Aggiorna.
Variables (mittente : string) (costo : Z).

Let ciclo_agg := aggiorna_ciclo mittente costo.
Let candidato := candidato costo.

Lemma aggiorna_ciclo_cons d0 s0 resto tab m :
  ciclo_agg ((d0, s0) :: resto) tab m =
  if somma_riesce costo s0
  then match dict_get d0 tab with
       | None => (tab, Solleva (KeyError d0))
       | Some (_, cur) =>
           if dist_ltb (candidato s0) cur
           then ciclo_agg resto (dict_set d0 (Some mittente, candidato s0) tab)
                          true
           else ciclo_agg resto tab m
       end
  else (tab, Solleva OverflowError).
Proof.
  unfold ciclo_agg. cbn [aggiorna_ciclo]. unfold somma.
  now destruct (somma_riesce costo s0).
Qed.

Lemma aggiorna_ciclo_keys vett : forall tab m tab' r,
  ciclo_agg vett tab m = (tab', r) -> dict_keys tab' = dict_keys tab.
Proof.
  induction vett as [|[d0 s0] resto IH]; intros tab m tab' r;
    [simpl|rewrite aggiorna_ciclo_cons].
  - intros H; now inversion H.
  - destruct (somma_riesce costo s0); [|intros H; now inversion H].
    destruct (dict_get d0 tab) as [[h0 cur0]|] eqn:E.
    + destruct (dist_ltb (candidato s0) cur0); intros H; apply IH in H.
      * rewrite H. eapply dict_keys_set_present; eauto.
      * exact H.
    + intros H; now inversion H.
Qed.

(** Once the flag is raised it stays raised. *)
Lemma aggiorna_ciclo_true vett : forall tab tab' b,
  ciclo_agg vett tab true = (tab', Fatto b) -> b = true.
Proof.
  induction vett as [|[d0 s0] resto IH]; intros tab tab' b;
    [simpl|rewrite aggiorna_ciclo_cons].
  - intros H; now inversion H.
  - destruct (somma_riesce costo s0); [|discriminate].
    destruct (dict_get d0 tab) as [[h0 cur0]|]; [|discriminate].
    destruct (dist_ltb (candidato s0) cur0); apply IH.
Qed.

(** A call that reports no change found no improvement and left the
    table as it was. *)
Lemma aggiorna_ciclo_false vett : forall tab m tab',
  ciclo_agg vett tab m = (tab', Fatto false) ->
  m = false /\ tab' = tab /\
  (forall d s, In (d, s) vett ->
     exists h cur, dict_get d tab = Some (h, cur) /\
                   dist_ltb (candidato s) cur = false) /\
  senza_overflow costo vett.
Proof.
  induction vett as [|[d0 s0] resto IH]; intros tab m tab';
    [simpl|rewrite aggiorna_ciclo_cons].
  - intros H; inversion H; subst.
    split; [reflexivity|]. split; [reflexivity|].
    split; [intros ? ? [] | intros ? ? []].
  - destruct (somma_riesce costo s0) eqn:Hs0; [|discriminate].
    destruct (dict_get d0 tab) as [[h0 cur0]|] eqn:E; [|discriminate].
    destruct (dist_ltb (candidato s0) cur0) eqn:L; intros H.
    + apply aggiorna_ciclo_true in H. discriminate.
    + destruct (IH _ _ _ H) as (Hm & Ht & Hall & Hov).
      split; [assumption|]. split; [assumption|]. split.
      * intros d s [Eq|Hin]; [inversion Eq; subst; eauto | auto].
      * intros d s [Eq|Hin]; [inversion Eq; subst; assumption | eauto].
Qed.

(** Conversely, a vector that improves nothing is reported as no change. *)
Lemma aggiorna_ciclo_stabile vett : forall (tab : tabella) m,
  (forall d s, In (d, s) vett ->
     exists h cur, dict_get d tab = Some (h, cur) /\
                   dist_ltb (candidato s) cur = false) ->
  senza_overflow costo vett ->
  ciclo_agg vett tab m = (tab, Fatto m).
Proof.
  induction vett as [|[d0 s0] resto IH]; intros tab m Hall Hov;
    [simpl|rewrite aggiorna_ciclo_cons].
  - reflexivity.
  - destruct (Hall d0 s0 (or_introl eq_refl)) as (h & cur & Hg & Hl).
    rewrite (Hov d0 s0 (or_introl eq_refl)), Hg, Hl.
    apply IH; [intros d s Hin; apply Hall; now right|].
    intros d s Hin. apply (Hov d). now right.
Qed.

(** Every entry survives with a distance that is not larger; an entry that
    changed was taken from a pair of the vector. *)
Lemma aggiorna_ciclo_voce vett : forall tab m tab' r,
  ciclo_agg vett tab m = (tab', r) ->
  forall d h cur, dict_get d tab = Some (h, cur) ->
    exists h' cur', dict_get d tab' = Some (h', cur') /\ dist_le cur' cur /\
      ((h', cur') = (h, cur) \/
       (h' = Some mittente /\ dist_ltb cur' cur = true /\
        exists s, In (d, s) vett /\ cur' = candidato s)).
Proof.
  induction vett as [|[d0 s0] resto IH]; intros tab m tab' r;
    [simpl|rewrite aggiorna_ciclo_cons].
  - intros H d h cur Hg; inversion H; subst.
    exists h, cur. split; [assumption|]. split; [apply dist_le_refl | now left].
  - destruct (somma_riesce costo s0).
    2:{ intros H d h cur Hg; inversion H; subst.
        exists h, cur. split; [assumption|].
        split; [apply dist_le_refl | now left]. }
    destruct (dict_get d0 tab) as [[h0 cur0]|] eqn:E.
    + destruct (dist_ltb (candidato s0) cur0) eqn:L; intros H d h cur Hg.
      * destruct (String.eqb_spec d d0) as [->|Hne].
        -- rewrite E in Hg; inversion Hg; subst.
           destruct (IH _ _ _ _ H d0 (Some mittente) (candidato s0))
             as (h' & cur' & Hg' & Hle & Hcase).
           { apply dict_get_set_eq. }
           exists h', cur'. split; [assumption|].
           split.
           { eapply dist_le_trans; [exact Hle|]. now apply dist_ltb_true_le. }
           right. destruct Hcase as [Eq|(Hh & Hlt & s & Hin & Hs)].
           ++ inversion Eq; subst. split; [reflexivity|].
              split; [exact L|]. exists s0. split; [now left | reflexivity].
           ++ split; [assumption|]. split.
              ** eapply dist_ltb_trans; eassumption.
              ** exists s. split; [now right | assumption].
        -- destruct (IH _ _ _ _ H d h cur) as (h' & cur' & Hg' & Hle & Hcase).
           { rewrite dict_get_set_ne by congruence. assumption. }
           exists h', cur'. split; [assumption|]. split; [assumption|].
           destruct Hcase as [Eq|(Hh & Hlt & s & Hin & Hs)]; [now left|].
           right. split; [assumption|]. split; [assumption|].
           exists s. split; [now right | assumption].
      * destruct (IH _ _ _ _ H d h cur Hg) as (h' & cur' & Hg' & Hle & Hcase).
        exists h', cur'. split; [assumption|]. split; [assumption|].
        destruct Hcase as [Eq|(Hh & Hlt & s & Hin & Hs)]; [now left|].
        right. split; [assumption|]. split; [assumption|].
        exists s. split; [now right | assumption].
    + intros H d h cur Hg; inversion H; subst.
      exists h, cur. split; [assumption|].
      split; [apply dist_le_refl | now left].
Qed.

(** A vector whose destinations are all in the table, and to whose
    distances the cost can be added, raises nothing. *)
Lemma aggiorna_ciclo_fatto vett : forall (tab : tabella) m,
  (forall d, In d (dict_keys vett) -> In d (dict_keys tab)) ->
  senza_overflow costo vett ->
  exists tab' b, ciclo_agg vett tab m = (tab', Fatto b).
Proof.
  induction vett as [|[d0 s0] resto IH]; intros tab m Hsub Hov;
    [simpl|rewrite aggiorna_ciclo_cons].
  - exists tab, m. reflexivity.
  - destruct (proj1 (dict_get_Some_key d0 tab)) as [[h0 cur0] E].
    { apply Hsub. simpl. now left. }
    assert (Hov' : senza_overflow costo resto).
    { intros d s Hin. apply (Hov d). now right. }
    rewrite (Hov d0 s0 (or_introl eq_refl)), E.
    destruct (dist_ltb (candidato s0) cur0).
    + apply IH; [|assumption]. intros d Hd.
      rewrite (dict_keys_set_present _ _ _ _ E). apply Hsub. simpl. now right.
    + apply IH; [|assumption]. intros d Hd. apply Hsub. simpl. now right.
Qed.

(** The exact table after a successful call on a well-formed vector. *)
Lemma aggiorna_ciclo_esatto vett : forall tab m tab' b,
  NoDup (dict_keys vett) ->
  ciclo_agg vett tab m = (tab', Fatto b) ->
  (forall d h cur, dict_get d tab = Some (h, cur) ->
     dict_get d tab' =
     Some (match dict_get d vett with
           | Some s => if dist_ltb (candidato s) cur
                       then (Some mittente, candidato s) else (h, cur)
           | None => (h, cur)
           end)) /\
  (b = true <->
   m = true \/ exists d s h cur, In (d, s) vett /\
                 dict_get d tab = Some (h, cur) /\
                 dist_ltb (candidato s) cur = true).
Proof.
  induction vett as [|[d0 s0] resto IH]; intros tab m tab' b Hnd;
    [simpl|rewrite aggiorna_ciclo_cons].
  - intros H; inversion H; subst. split; [auto|].
    split; [auto|]. intros [?|(? & ? & ? & ? & [] & _)]; assumption.
  - inversion Hnd as [|? ? Hnotin Hnd']; subst.
    assert (Hrest : dict_get d0 resto = None) by now apply dict_get_None.
    destruct (somma_riesce costo s0); [|discriminate].
    destruct (dict_get d0 tab) as [[h0 cur0]|] eqn:E; [|discriminate].
    destruct (dist_ltb (candidato s0) cur0) eqn:L; intros H;
      destruct (IH _ _ _ _ Hnd' H) as (Hent & Hflag); split.
    + intros d h cur Hg.
      destruct (String.eqb_spec d d0) as [->|Hne].
      * replace (dict_get d0 ((d0, s0) :: resto)) with (Some s0)
          by (simpl; now rewrite String.eqb_refl).
        rewrite E in Hg; inversion Hg; subst. rewrite L.
        rewrite (Hent d0 (Some mittente) (candidato s0))
          by apply dict_get_set_eq.
        now rewrite Hrest.
      * replace (dict_get d ((d0, s0) :: resto)) with (dict_get d resto)
          by (simpl; destruct (String.eqb_spec d d0); congruence).
        apply Hent. rewrite dict_get_set_ne by congruence. assumption.
    + split; [intros _|intros _; apply Hflag; now left].
      right. exists d0, s0, h0, cur0. split; [now left | auto].
    + intros d h cur Hg.
      destruct (String.eqb_spec d d0) as [->|Hne].
      * replace (dict_get d0 ((d0, s0) :: resto)) with (Some s0)
          by (simpl; now rewrite String.eqb_refl).
        rewrite E in Hg; inversion Hg; subst. rewrite L.
        rewrite (Hent d0 h cur E). now rewrite Hrest.
      * replace (dict_get d ((d0, s0) :: resto)) with (dict_get d resto)
          by (simpl; destruct (String.eqb_spec d d0); congruence).
        now apply Hent.
    + rewrite Hflag. split.
      * intros [Hm|(d & s & h & cur & Hin & Hg & Hl)]; [now left|].
        right. exists d, s, h, cur. split; [now right | auto].
      * intros [Hm|(d & s & h & cur & [Eq|Hin] & Hg & Hl)]; [now left| |].
        -- inversion Eq; subst. rewrite E in Hg; inversion Hg; subst.
           congruence.
        -- right. exists d, s, h, cur. auto.
Qed.
End Aggiorna.

Lemma aggiorna_ciclo_fatto_keys mittente costo vett : forall (tab : tabella) m tab' b,
  aggiorna_ciclo mittente costo vett tab m = (tab', Fatto b) ->
  forall d, In d (dict_keys vett) -> In d (dict_keys tab).
Proof.
  induction vett as [|[d0 s0] resto IH]; intros tab m tab' b;
    [simpl|rewrite aggiorna_ciclo_cons].
  - intros _ d [].
  - destruct (somma_riesce costo s0); [|discriminate].
    destruct (dict_get d0 tab) as [[h0 cur0]|] eqn:E; [|discriminate].
    assert (Hd0 : In d0 (dict_keys tab)) by (apply dict_get_Some_key; eauto).
    destruct (dist_ltb (candidato costo s0) cur0); intros H d [<-|Hd]; auto.
    + apply (IH _ _ _ _ H) in Hd.
      now rewrite (dict_keys_set_present _ _ _ _ E) in Hd.
    + eapply IH; eauto.
Qed.

(** The pairs of the vector make the addition succeed. *)
Lemma aggiorna_ciclo_fatto_somma mittente costo vett : forall (tab : tabella) m tab' b,
  aggiorna_ciclo mittente costo vett tab m = (tab', Fatto b) ->
  senza_overflow costo vett.
Proof.
  induction vett as [|[d0 s0] resto IH]; intros tab m tab' b;
    [simpl|rewrite aggiorna_ciclo_cons].
  - intros _ d s [].
  - destruct (somma_riesce costo s0) eqn:Hs0; [|discriminate].
    destruct (dict_get d0 tab) as [[h0 cur0]|] eqn:E; [|discriminate].
    destruct (dist_ltb (candidato costo s0) cur0); intros H d s [Eq|Hd];
      try (inversion Eq; subst; assumption);
      apply (IH _ _ _ _ H d s Hd).
Qed.

(** When the loop raises, the table is the one a successful call on the
    pairs before the one that raises would have left. *)
Lemma aggiorna_ciclo_solleva mittente costo vett : forall (tab : tabella) m tab' e,
  aggiorna_ciclo mittente costo vett tab m = (tab', Solleva e) ->
  exists prima k s dopo m',
    vett = prima ++ (k, s) :: dopo /\ causa_ciclo costo tab k s e /\
    aggiorna_ciclo mittente costo prima tab m = (tab', Fatto m').
Proof.
  induction vett as [|[d0 s0] resto IH]; intros tab m tab' e;
    [simpl|rewrite aggiorna_ciclo_cons].
  - discriminate.
  - destruct (somma_riesce costo s0) eqn:Hs0.
    2:{ intros H; inversion H; subst.
        exists [], d0, s0, resto, m.
        split; [reflexivity|]. split; [left; auto | reflexivity]. }
    destruct (dict_get d0 tab) as [[h0 cur0]|] eqn:E.
    + destruct (dist_ltb (candidato costo s0) cur0) eqn:L; intros H;
        destruct (IH _ _ _ _ H) as (prima & k & s & dopo & m' & Hv & Hc & Hp);
        exists ((d0, s0) :: prima), k, s, dopo, m'; subst.
      * split; [reflexivity|]. split.
        -- destruct Hc as [Hc|(Hs & Hk & He)]; [now left|]. right.
           split; [assumption|]. split; [|assumption].
           rewrite dict_get_set in Hk.
           destruct (String.eqb k d0); [discriminate | assumption].
        -- rewrite aggiorna_ciclo_cons, Hs0, E, L. exact Hp.
      * split; [reflexivity|]. split; [assumption|].
        rewrite aggiorna_ciclo_cons, Hs0, E, L. exact Hp.
    + intros H; inversion H; subst.
      exists [], d0, s0, resto, m.
      split; [reflexivity|]. split; [right; auto | reflexivity].
Qed.

Lemma con_tabella_stessa self : con_tabella self (tabella_routing self) = self.
Proof. now destruct self. Qed.

(** The two ways [aggiorna_tabella] can go. *)
Lemma aggiorna_tabella_inv self mittente vett self' r :
  aggiorna_tabella self mittente vett = (self', r) ->
  (dict_get mittente (vicini self) = None /\ self' = self /\
   r = Solleva (KeyError mittente)) \/
  (exists costo tab',
     dict_get mittente (vicini self) = Some costo /\
     aggiorna_ciclo mittente costo vett (tabella_routing self) false = (tab', r) /\
     self' = con_tabella self tab').
Proof.
  unfold aggiorna_tabella.
  destruct (dict_get mittente (vicini self)) as [costo|].
  - destruct (aggiorna_ciclo mittente costo vett (tabella_routing self) false)
      as [tab' r'] eqn:E.
    intros H; inversion H; subst. right. exists costo, tab'. auto.
  - intros H; inversion H; subst. now left.
Qed.

Lemma aggiorna_tabella_ciclo self mittente vett costo tab' r :
  dict_get mittente (vicini self) = Some costo ->
  aggiorna_ciclo mittente costo vett (tabella_routing self) false = (tab', r) ->
  aggiorna_tabella self mittente vett = (con_tabella self tab', r).
Proof. unfold aggiorna_tabella. now intros -> ->. Qed.

Lemma aggiorna_tabella_nome self mittente vett self' r :
  aggiorna_tabella self mittente vett = (self', r) ->
  nome self' = nome self /\ vicini self' = vicini self /\
  dict_keys (tabella_routing self') = dict_keys (tabella_routing self).
Proof.
  intros H. apply aggiorna_tabella_inv in H.
  destruct H as [(_ & -> & _)|(costo & tab' & _ & Hc & ->)]; [auto|].
  simpl. repeat split. eapply aggiorna_ciclo_keys; eauto.
Qed.

(** A call that returns [False] leaves the node as it was. *)
Lemma aggiorna_tabella_false self mittente vett self' :
  aggiorna_tabella self mittente vett = (self', Fatto false) ->
  self' = self /\
  exists costo, dict_get mittente (vicini self) = Some costo /\
    (forall d s, In (d, s) vett ->
       exists h cur, dict_get d (tabella_routing self) = Some (h, cur) /\
                     dist_ltb (candidato costo s) cur = false) /\
    senza_overflow costo vett.
Proof.
  intros H. apply aggiorna_tabella_inv in H.
  destruct H as [(_ & _ & ?)|(costo & tab' & Hc & Hl & ->)]; [discriminate|].
  apply aggiorna_ciclo_false in Hl. destruct Hl as (_ & -> & Hall & Hov).
  split; [apply con_tabella_stessa | eauto].
Qed.

(** C3. For a sender of the neighbour map, a vector whose destinations
    are in the (initialised) table and a cost that can be added to every
    distance of the vector (an integer is converted to a [float] before it
    is added to [float('inf')], and the conversion raises [OverflowError]
    for a cost no [float] holds), [aggiorna_tabella] succeeds; an entry
    becomes (sender, cost to sender + sender distance) exactly when that
    candidate is strictly below the stored distance (a tie keeps the stored
    route), every other entry and the key list are unchanged, and the result
    is [True] if and only if some entry changed. *)
Theorem aggiorna_tabella_spec (self : Nodo) (mittente : string) (vett : vettore)
    (costo : Z) :
  dict_get mittente (vicini self) = Some costo ->
  NoDup (dict_keys vett) ->
  (forall d, In d (dict_keys vett) -> In d (dict_keys (tabella_routing self))) ->
  senza_overflow costo vett ->
  exists self' b,
    aggiorna_tabella self mittente vett = (self', Fatto b) /\
    nome self' = nome self /\ vicini self' = vicini self /\
    dict_keys (tabella_routing self') = dict_keys (tabella_routing self) /\
    (forall d h cur, dict_get d (tabella_routing self) = Some (h, cur) ->
       dict_get d (tabella_routing self') =
       Some (match dict_get d vett with
             | Some s =>
                 if dist_ltb (dist_add (Fin costo) s) cur
                 then (Some mittente, dist_add (Fin costo) s)
                 else (h, cur)
             | None => (h, cur)
             end)) /\
    (b = true <->
     exists d, dict_get d (tabella_routing self') <>
               dict_get d (tabella_routing self)).
Proof.
  intros Hc Hnd Hsub Hov.
  destruct (aggiorna_ciclo_fatto mittente costo vett (tabella_routing self)
              false Hsub Hov) as (tab' & b & Hl).
  exists (con_tabella self tab'), b.
  split; [now apply (aggiorna_tabella_ciclo _ _ _ costo)|].
  destruct (aggiorna_ciclo_esatto _ _ _ _ _ _ _ Hnd Hl) as (Hent & Hflag).
  pose proof (aggiorna_ciclo_keys _ _ _ _ _ _ _ Hl) as Hkeys.
  simpl. repeat split; auto.
  - intros Hb. apply Hflag in Hb.
    destruct Hb as [?|(d & s & h & cur & Hin & Hg & Hlt)]; [discriminate|].
    exists d. rewrite (Hent _ _ _ Hg), Hg.
    assert (Hv : dict_get d vett = Some s) by now apply In_dict_get.
    rewrite Hv. unfold candidato in *. rewrite Hlt.
    intros E. inversion E as [[E1 E2]].
    apply dist_ltb_true_neq in Hlt. congruence.
  - intros (d & Hd). apply Hflag. right.
    destruct (dict_get d (tabella_routing self)) as [[h cur]|] eqn:Hg.
    + rewrite (Hent _ _ _ Hg) in Hd.
      destruct (dict_get d vett) as [s|] eqn:Hv;
        [|exfalso; apply Hd; reflexivity].
      unfold candidato in *.
      destruct (dist_ltb (dist_add (Fin costo) s) cur) eqn:Hlt;
        [|exfalso; apply Hd; reflexivity].
      exists d, s, h, cur. split; [now apply dict_get_In | auto].
    + exfalso. apply Hd.
      apply dict_get_None in Hg. rewrite <- Hkeys in Hg.
      apply dict_get_None in Hg. now rewrite Hg.
Qed.

(** ** A round is the list of its calls *)

Lemma applica_cons c cs nodi agg :
  applica (c :: cs) nodi agg =
  match dict_get (i_dest c) nodi with
  | None => (nodi, Solleva (KeyError (i_dest c)))
  | Some n =>
      match aggiorna_tabella n (i_mitt c) (i_vett c) with
      | (n', Solleva e) => (dict_set (i_dest c) n' nodi, Solleva e)
      | (n', Fatto b) =>
          applica cs (dict_set (i_dest c) n' nodi) (if b then S agg else agg)
      end
  end.
Proof.
  simpl. destruct (dict_get (i_dest c) nodi) as [n|]; [|reflexivity].
  destruct (aggiorna_tabella n (i_mitt c) (i_vett c)) as [n' [b|e]]; reflexivity.
Qed.

Lemma applica_app cs1 : forall cs2 nodi agg,
  applica (cs1 ++ cs2) nodi agg =
  match applica cs1 nodi agg with
  | (nodi', Fatto a) => applica cs2 nodi' a
  | (nodi', Solleva e) => (nodi', Solleva e)
  end.
Proof.
  induction cs1 as [|c cs1 IH]; intros cs2 nodi agg.
  - reflexivity.
  - rewrite <- app_comm_cons, !applica_cons.
    destruct (dict_get (i_dest c) nodi) as [n|]; [|reflexivity].
    destruct (aggiorna_tabella n (i_mitt c) (i_vett c)) as [n' [b|e]];
      [apply IH | reflexivity].
Qed.

Lemma consegna_applica nome_mitt vett destinatari : forall nodi agg,
  consegna nome_mitt vett destinatari nodi agg =
  applica (map (mkInvio nome_mitt vett) destinatari) nodi agg.
Proof.
  induction destinatari as [|v resto IH]; intros nodi agg; simpl.
  - reflexivity.
  - destruct (dict_get v nodi) as [n|]; [|reflexivity].
    destruct (aggiorna_tabella n nome_mitt vett) as [n' [b|e]];
      [apply IH | reflexivity].
Qed.

Lemma scambio_applica snapshot : forall nodi agg,
  scambio snapshot nodi agg = applica (invii snapshot) nodi agg.
Proof.
  induction snapshot as [|[k n] resto IH]; intros nodi agg; simpl.
  - reflexivity.
  - rewrite applica_app, consegna_applica. unfold invii_di.
    destruct (applica _ nodi agg) as [nodi' [a|e]]; [apply IH | reflexivity].
Qed.

Lemma esegui_round_applica nodi :
  esegui_round nodi = applica (invii nodi) nodi 0%nat.
Proof. apply scambio_applica. Qed.

(** Every call of a round carries the vector some node of the snapshot
    exports, and goes to a name of that node's neighbour map. *)
Lemma In_invii c snapshot :
  In c (invii snapshot) <->
  exists k n, In (k, n) snapshot /\ i_mitt c = k /\
              i_vett c = invia_vettore n /\
              In (i_dest c) (dict_keys (vicini n)).
Proof.
  unfold invii. rewrite in_flat_map. split.
  - intros ([k n] & Hin & Hc). unfold invii_di in Hc.
    apply in_map_iff in Hc. destruct Hc as (v & <- & Hv).
    exists k, n. simpl. auto.
  - intros (k & n & Hin & Hm & Hv & Hd). exists (k, n). split; [assumption|].
    unfold invii_di. apply in_map_iff. exists (i_dest c).
    split; [|assumption]. destruct c; simpl in *; congruence.
Qed.

(** *** Invariants of the nodes through a list of calls *)

Section Invarianti.
Variable P : string -> Nodo -> Prop.
Variable G : invio -> Prop.

Hypothesis passo : forall c n n' r,
  G c -> P (i_dest c) n ->
  aggiorna_tabella n (i_mitt c) (i_vett c) = (n', r) ->
  P (i_dest c) n'.

Lemma applica_inv cs : forall nodi agg nodi' r,
  Forall G cs ->
  (forall k n, In (k, n) nodi -> P k n) ->
  applica cs nodi agg = (nodi', r) ->
  forall k n, In (k, n) nodi' -> P k n.
Proof.
  induction cs as [|c cs IH]; intros nodi agg nodi' r HG HP.
  - simpl. intros H; inversion H; subst. assumption.
  - inversion HG as [|? ? Hc HG']; subst. rewrite applica_cons.
    destruct (dict_get (i_dest c) nodi) as [n0|] eqn:E.
    + destruct (aggiorna_tabella n0 (i_mitt c) (i_vett c)) as [n' r1] eqn:Ea.
      assert (HP' : forall k n, In (k, n) (dict_set (i_dest c) n' nodi) -> P k n).
      { intros k n Hin. apply In_dict_set in Hin.
        destruct Hin as [[-> ->]|Hin]; [|auto].
        eapply passo; eauto. apply HP. now apply dict_get_In. }
      destruct r1 as [b|e].
      * intros H. eapply IH; eauto.
      * intros H; inversion H; subst. assumption.
    + intros H; inversion H; subst. assumption.
Qed.

Lemma esegui_round_inv s s' r :
  (forall k n, In (k, n) s -> P k n) ->
  (forall c, In c (invii s) -> G c) ->
  esegui_round s = (s', r) ->
  forall k n, In (k, n) s' -> P k n.
Proof.
  intros HP HG H. rewrite esegui_round_applica in H.
  eapply applica_inv; [apply Forall_forall; exact HG | exact HP | exact H].
Qed.
End Invarianti.

(** *** Relations between a node before and after a list of calls *)

Section Relazioni.
Variable R : Nodo -> Nodo -> Prop.
Hypothesis R_refl : forall n, R n n.
Hypothesis R_trans : forall a b c, R a b -> R b c -> R a c.
Hypothesis R_passo : forall n mitt vett n' r,
  aggiorna_tabella n mitt vett = (n', r) -> R n n'.

Lemma applica_rel cs : forall nodi agg nodi' r,
  applica cs nodi agg = (nodi', r) ->
  forall k n, dict_get k nodi = Some n ->
    exists n', dict_get k nodi' = Some n' /\ R n n'.
Proof.
  induction cs as [|c cs IH]; intros nodi agg nodi' r.
  - simpl. intros H k n Hk; inversion H; subst. eauto.
  - rewrite applica_cons.
    destruct (dict_get (i_dest c) nodi) as [n0|] eqn:E.
    + destruct (aggiorna_tabella n0 (i_mitt c) (i_vett c)) as [n' r1] eqn:Ea.
      assert (Hstep : forall k n, dict_get k nodi = Some n ->
                exists n1, dict_get k (dict_set (i_dest c) n' nodi) = Some n1 /\
                           R n n1).
      { intros k n Hk. rewrite dict_get_set.
        destruct (String.eqb_spec k (i_dest c)) as [->|Hne]; [|eauto].
        rewrite E in Hk; inversion Hk; subst. eauto. }
      destruct r1 as [b|e].
      * intros H k n Hk. destruct (Hstep k n Hk) as (n1 & Hk1 & HR1).
        destruct (IH _ _ _ _ H k n1 Hk1) as (n2 & Hk2 & HR2). eauto.
      * intros H; inversion H; subst. assumption.
    + intros H k n Hk; inversion H; subst. eauto.
Qed.

Lemma esegui_round_rel s s' r :
  esegui_round s = (s', r) ->
  forall k n, dict_get k s = Some n ->
    exists n', dict_get k s' = Some n' /\ R n n'.
Proof. rewrite esegui_round_applica. apply applica_rel. Qed.

Lemma evolve_rel s s' :
  evolve s s' ->
  forall k n, dict_get k s = Some n ->
    exists n', dict_get k s' = Some n' /\ R n n'.
Proof.
  induction 1 as [s|s s1 s2 r _ IH Hr]; intros k n Hk; [eauto|].
  destruct (IH k n Hk) as (n1 & Hk1 & HR1).
  destruct (esegui_round_rel _ _ _ Hr k n1 Hk1) as (n2 & Hk2 & HR2). eauto.
Qed.
End Relazioni.

(** The key list, and the graph, of the network never change. *)
Lemma dict_set_topologia k n n' nodi :
  dict_get k nodi = Some n -> vicini n' = vicini n ->
  topologia (dict_set k n' nodi) = topologia nodi.
Proof.
  unfold topologia.
  induction nodi as [|[k0 n0] rest IH]; simpl; [discriminate|].
  destruct (String.eqb_spec k k0) as [->|Hne]; intros H Hv; simpl.
  - inversion H; subst. now rewrite Hv.
  - now rewrite IH.
Qed.

Lemma applica_topologia cs : forall nodi agg nodi' r,
  applica cs nodi agg = (nodi', r) -> topologia nodi' = topologia nodi.
Proof.
  induction cs as [|c cs IH]; intros nodi agg nodi' r.
  - simpl. intros H; now inversion H.
  - rewrite applica_cons.
    destruct (dict_get (i_dest c) nodi) as [n0|] eqn:E.
    + destruct (aggiorna_tabella n0 (i_mitt c) (i_vett c)) as [n' r1] eqn:Ea.
      pose proof (aggiorna_tabella_nome _ _ _ _ _ Ea) as (_ & Hv & _).
      pose proof (dict_set_topologia _ _ _ _ E Hv) as Ht.
      destruct r1 as [b|e]; intros H.
      * apply IH in H. congruence.
      * inversion H; subst. assumption.
    + intros H; now inversion H.
Qed.

Lemma topologia_keys nodi : dict_keys (topologia nodi) = dict_keys nodi.
Proof.
  unfold topologia, dict_keys. rewrite map_map.
  apply map_ext. now intros [k n].
Qed.

Lemma esegui_round_topologia s s' r :
  esegui_round s = (s', r) -> topologia s' = topologia s.
Proof. rewrite esegui_round_applica. apply applica_topologia. Qed.

Lemma evolve_topologia s s' : evolve s s' -> topologia s' = topologia s.
Proof.
  induction 1 as [s|s s1 s2 r _ IH Hr]; [reflexivity|].
  apply esegui_round_topologia in Hr. congruence.
Qed.

Lemma inizializza_tutti_topologia nodi :
  topologia (inizializza_tutti nodi) = topologia nodi.
Proof.
  unfold topologia, inizializza_tutti. rewrite map_map.
  apply map_ext. now intros [k n].
Qed.

Lemma raggiungibile_topologia nodi0 s :
  raggiungibile nodi0 s -> topologia s = topologia nodi0.
Proof.
  intros H. apply evolve_topologia in H.
  now rewrite inizializza_tutti_topologia in H.
Qed.

Lemma raggiungibile_keys nodi0 s :
  raggiungibile nodi0 s -> dict_keys s = dict_keys nodi0.
Proof.
  intros H. apply raggiungibile_topologia in H.
  now rewrite <- (topologia_keys s), H, topologia_keys.
Qed.

(** ** The run of [simula] *)

Lemma tabelle_di_app a b : tabelle_di (a ++ b) = tabelle_di a ++ tabelle_di b.
Proof. unfold tabelle_di. now rewrite flat_map_app. Qed.

Lemma ciclo_catena rimaste : forall it s,
  catena s (tabelle_di (uscita (ciclo rimaste it s))).
Proof.
  induction rimaste as [|r IH]; intros it s; simpl.
  - exact I.
  - destruct (esegui_round s) as [s' [a|e]] eqn:E; simpl.
    + destruct (Nat.eqb a 0); simpl.
      * split; [eauto | exact I].
      * split; [eauto | apply IH].
    + exact I.
Qed.

Lemma catena_nth l : forall s i s1 s2,
  catena s l ->
  nth_error (s :: l) i = Some s1 -> nth_error (s :: l) (S i) = Some s2 ->
  exists a, esegui_round s1 = (s2, Fatto a).
Proof.
  induction l as [|t l IH]; intros s i s1 s2 Hc H1 H2.
  - destruct i; simpl in H2; [discriminate | destruct i; discriminate].
  - destruct Hc as (Ha & Hc). destruct i as [|i].
    + simpl in H1, H2. inversion H1; inversion H2; subst. exact Ha.
    + eapply (IH t i); eauto.
Qed.

Lemma catena_evolve l : forall s s0 t,
  evolve s0 s -> catena s l -> In t l -> evolve s0 t.
Proof.
  induction l as [|t' l IH]; intros s s0 t He Hc Hin; [destruct Hin|].
  destruct Hc as ((a & Ha) & Hc).
  assert (He' : evolve s0 t') by (eapply evolve_round; eauto).
  destruct Hin as [<-|Hin]; [assumption | eapply IH; eauto].
Qed.

Lemma evolve_trans s1 s2 s3 : evolve s1 s2 -> evolve s2 s3 -> evolve s1 s3.
Proof.
  intros H12 H23. induction H23 as [s2|s2 s s3 r _ IH Hr]; [assumption|].
  eapply evolve_round; [apply IH; assumption | exact Hr].
Qed.

Lemma ciclo_finale rimaste : forall it s, evolve s (finale (ciclo rimaste it s)).
Proof.
  induction rimaste as [|r IH]; intros it s; simpl.
  - constructor.
  - destruct (esegui_round s) as [s' [a|e]] eqn:E; simpl.
    + assert (He : evolve s s') by (eapply evolve_round; [constructor | eauto]).
      destruct (Nat.eqb a 0); simpl; [assumption|].
      eapply evolve_trans; [exact He | apply IH].
    + eapply evolve_round; [constructor | eauto].
Qed.

Lemma stati_raggiungibili nodi max_iter s :
  In s (stati nodi max_iter) -> raggiungibile nodi s.
Proof.
  unfold stati, raggiungibile. intros [<-|Hin]; [constructor|].
  eapply catena_evolve; [constructor | apply ciclo_catena | exact Hin].
Qed.

Lemma simula_finale_raggiungibile nodi max_iter :
  raggiungibile nodi (finale (simula nodi max_iter)).
Proof. apply ciclo_finale. Qed.

(** ** Monotonicity *)

Lemma voce_di_rel (R : Nodo -> Nodo -> Prop) s s' :
  (forall k n, dict_get k s = Some n ->
     exists n', dict_get k s' = Some n' /\ R n n') ->
  (forall n n', R n n' -> forall d h x,
     dict_get d (tabella_routing n) = Some (h, x) ->
     exists h' x', dict_get d (tabella_routing n') = Some (h', x') /\
                   dist_le x' x) ->
  non_crescente s s'.
Proof.
  intros Hrel HR u d h x. unfold voce_di.
  destruct (dict_get u s) as [n|] eqn:E; [|discriminate].
  destruct (Hrel u n E) as (n' & -> & Hn). eauto.
Qed.

Section Monotonia.
Let R (n n' : Nodo) : Prop :=
  forall d h x, dict_get d (tabella_routing n) = Some (h, x) ->
    exists h' x', dict_get d (tabella_routing n') = Some (h', x') /\
                  dist_le x' x.

Lemma mono_refl n : R n n.
Proof. intros d h x H. exists h, x. split; [assumption | apply dist_le_refl]. Qed.

Lemma mono_trans a b c : R a b -> R b c -> R a c.
Proof.
  intros Hab Hbc d h x H.
  destruct (Hab d h x H) as (h1 & x1 & H1 & L1).
  destruct (Hbc d h1 x1 H1) as (h2 & x2 & H2 & L2).
  exists h2, x2. split; [assumption | eapply dist_le_trans; eauto].
Qed.

Lemma mono_passo n mitt vett n' r :
  aggiorna_tabella n mitt vett = (n', r) -> R n n'.
Proof.
  intros H. apply aggiorna_tabella_inv in H.
  destruct H as [(_ & -> & _)|(costo & tab' & _ & Hc & ->)]; [apply mono_refl|].
  intros d h x Hg.
  destruct (aggiorna_ciclo_voce _ _ _ _ _ _ _ Hc d h x Hg)
    as (h' & x' & Hg' & Hle & _).
  exists h', x'. split; assumption.
Qed.

Lemma esegui_round_non_crescente s s' r :
  esegui_round s = (s', r) -> non_crescente s s'.
Proof.
  intros H. apply (voce_di_rel R); [|auto].
  eapply esegui_round_rel; eauto using mono_refl, mono_trans, mono_passo.
Qed.

Lemma evolve_non_crescente s s' : evolve s s' -> non_crescente s s'.
Proof.
  intros H. apply (voce_di_rel R); [|auto].
  eapply evolve_rel; eauto using mono_refl, mono_trans, mono_passo.
Qed.
End Monotonia.

(** C6. The distance a node stores for a destination never grows: not over
    one round started in any state (completed or interrupted), not over any
    number of rounds, and so not between two consecutive states of a run of
    [simula]. *)
Theorem distanze_non_crescenti :
  (forall s s' r, esegui_round s = (s', r) -> non_crescente s s') /\
  (forall s s', evolve s s' -> non_crescente s s') /\
  (forall nodi max_iter i s1 s2,
     nth_error (stati nodi max_iter) i = Some s1 ->
     nth_error (stati nodi max_iter) (S i) = Some s2 ->
     s2 = fst (esegui_round s1) /\ non_crescente s1 s2).
Proof.
  split; [apply esegui_round_non_crescente|].
  split; [apply evolve_non_crescente|].
  intros nodi max_iter i s1 s2 H1 H2.
  destruct (catena_nth _ _ _ _ _ (ciclo_catena _ _ _) H1 H2) as (a & Ha).
  split; [now rewrite Ha | eapply esegui_round_non_crescente; eauto].
Qed.

(** ** The entry of a node for itself *)

Lemma In_invia_vettore n d x :
  In (d, x) (invia_vettore n) <-> exists h, In (d, (h, x)) (tabella_routing n).
Proof.
  unfold invia_vettore. rewrite in_map_iff. split.
  - intros ([d' [h x']] & E & Hin). inversion E; subst. eauto.
  - intros (h & Hin). exists (d, (h, x)). auto.
Qed.

Lemma invia_vettore_keys n :
  dict_keys (invia_vettore n) = dict_keys (tabella_routing n).
Proof.
  unfold invia_vettore, dict_keys. rewrite map_map.
  apply map_ext. now intros [d [h x]].
Qed.

Lemma inv_base_vettore n : inv_base n -> vettore_non_negativo (invia_vettore n).
Proof.
  intros (Hnd & _ & _ & Hpos) d x Hin.
  apply In_invia_vettore in Hin. destruct Hin as (h & Hin).
  eapply Hpos. apply In_dict_get; eauto.
Qed.

Lemma candidato_Fin costo s x :
  candidato costo s = Fin x -> exists y, s = Fin y /\ x = costo + y.
Proof.
  destruct s as [y|]; simpl; [|discriminate].
  intros H; inversion H; eauto.
Qed.

Lemma candidato_ltb_Fin costo s cur :
  dist_ltb (candidato costo s) cur = true -> exists y, s = Fin y.
Proof. destruct s as [y|]; simpl; [eauto | discriminate]. Qed.

Lemma inv_base_passo n mitt vett n' r :
  vettore_non_negativo vett -> inv_base n ->
  aggiorna_tabella n mitt vett = (n', r) -> inv_base n'.
Proof.
  intros HG (Hnd & Hcosti & Hself & Hpos) H.
  apply aggiorna_tabella_inv in H.
  destruct H as [(_ & -> & _)|(costo & tab' & Hm & Hc & ->)];
    [now repeat split|].
  pose proof (Hcosti _ _ Hm) as Hcosto.
  pose proof (aggiorna_ciclo_keys _ _ _ _ _ _ _ Hc) as Hkeys.
  unfold inv_base, voce_propria in *. simpl.
  split; [now rewrite Hkeys|]. split; [assumption|]. split.
  - destruct (aggiorna_ciclo_voce _ _ _ _ _ _ _ Hc _ _ _ Hself)
      as (h' & x' & Hg' & _ & [E|(_ & Hlt & s & Hin & ->)]).
    + now inversion E; subst.
    + exfalso. destruct (candidato_ltb_Fin _ _ _ Hlt) as (y & ->).
      apply HG in Hin. simpl in Hlt. apply Z.ltb_lt in Hlt. lia.
  - intros d h' x' Hg'.
    assert (Hd : In d (dict_keys (tabella_routing n))).
    { rewrite <- Hkeys. apply dict_get_Some_key. eauto. }
    apply dict_get_Some_key in Hd. destruct Hd as ([h cur] & Hg).
    destruct (aggiorna_ciclo_voce _ _ _ _ _ _ _ Hc _ _ _ Hg)
      as (h2 & x2 & Hg2 & _ & Hcase).
    rewrite Hg' in Hg2. inversion Hg2; subst.
    destruct Hcase as [E|(_ & _ & s & Hin & Hs)].
    + inversion E; subst. eauto.
    + symmetry in Hs. apply candidato_Fin in Hs. destruct Hs as (y & -> & ->).
      apply HG in Hin. lia.
Qed.

Lemma inv_base_init n tutti :
  In (nome n) tutti ->
  (forall v c, dict_get v (vicini n) = Some c -> 0 <= c) ->
  inv_base (inizializza_tabella n tutti).
Proof.
  intros Hin Hcosti.
  assert (Hnd : NoDup (dict_keys (tabella_routing (inizializza_tabella n tutti))))
    by (simpl; apply init_fold_NoDup; constructor).
  pose proof (inizializza_keys n tutti) as Hkeys.
  unfold inv_base, voce_propria. split; [assumption|]. split; [assumption|].
  split.
  - change (nome (inizializza_tabella n tutti)) with (nome n).
    rewrite inizializza_get by assumption.
    unfold voce_iniziale. now rewrite String.eqb_refl.
  - intros d h x Hg.
    assert (Hd : In d tutti) by (apply Hkeys; apply dict_get_Some_key; eauto).
    rewrite inizializza_get in Hg by assumption. unfold voce_iniziale in Hg.
    destruct (String.eqb d (nome n)).
    + inversion Hg; lia.
    + destruct (dict_get d (vicini n)) as [c|] eqn:E; inversion Hg; subst.
      eauto.
Qed.

Lemma In_inizializza_tutti nodi k n :
  In (k, n) (inizializza_tutti nodi) <->
  exists n0, In (k, n0) nodi /\ n = inizializza_tabella n0 (dict_keys nodi).
Proof.
  unfold inizializza_tutti. rewrite in_map_iff. split.
  - intros ([k0 n0] & E & Hin). inversion E; subst. eauto.
  - intros (n0 & Hin & ->). exists (k, n0). auto.
Qed.

Lemma In_dict_keys {V} k (v : V) d : In (k, v) d -> In k (dict_keys d).
Proof. intros H. unfold dict_keys. change k with (fst (k, v)). now apply in_map. Qed.

Lemma evolve_inv (P : string -> Nodo -> Prop) (G : invio -> Prop) :
  (forall c n n' r, G c -> P (i_dest c) n ->
     aggiorna_tabella n (i_mitt c) (i_vett c) = (n', r) -> P (i_dest c) n') ->
  (forall s, (forall k n, In (k, n) s -> P k n) ->
     forall c, In c (invii s) -> G c) ->
  forall s s', evolve s s' ->
    (forall k n, In (k, n) s -> P k n) ->
    forall k n, In (k, n) s' -> P k n.
Proof.
  intros Hpasso HG s s' Hev. induction Hev as [s|s s1 s2 r _ IH Hr]; [auto|].
  intros HP.
  apply (esegui_round_inv P G Hpasso s1 s2 r);
    [apply IH; exact HP | apply HG; apply IH; exact HP | exact Hr].
Qed.

Lemma raggiungibile_inv_base nodi0 :
  (forall k n, In (k, n) nodi0 -> nome n = k) ->
  costi_non_negativi nodi0 ->
  forall s, raggiungibile nodi0 s ->
  forall k n, In (k, n) s -> nome n = k /\ inv_base n.
Proof.
  intros Hnomi Hcosti s Hs.
  apply (evolve_inv (fun k n => nome n = k /\ inv_base n)
                    (fun c => vettore_non_negativo (i_vett c)))
    with (s := inizializza_tutti nodi0); [| |assumption|].
  - intros c n n' r HG (Hn & Hb) Ha. split.
    + apply aggiorna_tabella_nome in Ha. destruct Ha as (-> & _). assumption.
    + eapply inv_base_passo; eauto.
  - intros s0 HP c Hc. apply In_invii in Hc.
    destruct Hc as (k & n & Hin & _ & -> & _).
    apply inv_base_vettore. now apply (HP k n).
  - intros k n Hin. apply In_inizializza_tutti in Hin.
    destruct Hin as (n0 & Hin & ->).
    split; [simpl; eauto|].
    apply inv_base_init; [|eauto].
    rewrite (Hnomi _ _ Hin). eapply In_dict_keys; eauto.
Qed.

(** C7. With non-negative link costs (and every node stored under its own
    name), the entry of every node for itself is (self, 0) after the
    initialisation and after every round, in every state of every run. *)
Theorem voce_propria_invariante (nodi0 : rete) :
  (forall k n, In (k, n) nodi0 -> nome n = k) ->
  costi_non_negativi nodi0 ->
  (forall s, raggiungibile nodi0 s ->
     forall k n, In (k, n) s ->
       nome n = k /\ dict_get k (tabella_routing n) = Some (Some k, Fin 0)) /\
  (forall max_iter s, In s (stati nodi0 max_iter) ->
     forall k, In k (dict_keys nodi0) ->
       voce_di s k k = Some (Some k, Fin 0)).
Proof.
  intros Hnomi Hcosti.
  assert (H1 : forall s, raggiungibile nodi0 s ->
     forall k n, In (k, n) s ->
       nome n = k /\ dict_get k (tabella_routing n) = Some (Some k, Fin 0)).
  { intros s Hs k n Hin.
    destruct (raggiungibile_inv_base nodi0 Hnomi Hcosti s Hs k n Hin)
      as (Hn & _ & _ & Hself & _).
    unfold voce_propria in Hself. rewrite Hn in Hself. auto. }
  split; [exact H1|].
  intros max_iter s Hs k Hk. apply stati_raggiungibili in Hs.
  rewrite <- (raggiungibile_keys _ _ Hs) in Hk.
  apply dict_get_Some_key in Hk. destruct Hk as (n & Hg).
  unfold voce_di. rewrite Hg.
  apply (H1 s Hs k n). now apply dict_get_In.
Qed.

(** ** Rounds without updates *)

Lemma applica_zero cs : forall nodi agg nodi' a,
  applica cs nodi agg = (nodi', Fatto a) ->
  (agg <= a)%nat /\
  (a = agg -> nodi' = nodi /\ forall c, In c cs -> stabile nodi c).
Proof.
  induction cs as [|c cs IH]; intros nodi agg nodi' a.
  - simpl. intros H; inversion H; subst. split; [lia|].
    intros _. split; [reflexivity | intros ? []].
  - rewrite applica_cons.
    destruct (dict_get (i_dest c) nodi) as [n0|] eqn:E; [|discriminate].
    destruct (aggiorna_tabella n0 (i_mitt c) (i_vett c)) as [n' [b|e]] eqn:Ea;
      [|discriminate].
    intros H. destruct (IH _ _ _ _ H) as (Hle & Hzero).
    split; [destruct b; lia|].
    intros ->. destruct b; [lia|].
    apply aggiorna_tabella_false in Ea. destruct Ea as (-> & costo & Hm & Hst).
    rewrite (dict_set_same _ _ _ E) in *.
    destruct (Hzero eq_refl) as (-> & Hall).
    split; [reflexivity|].
    intros c' [<-|Hin]; [|auto].
    exists n0, costo. auto.
Qed.

Lemma applica_stabile cs : forall nodi agg,
  (forall c, In c cs -> stabile nodi c) ->
  applica cs nodi agg = (nodi, Fatto agg).
Proof.
  induction cs as [|c cs IH]; intros nodi agg Hall; [reflexivity|].
  rewrite applica_cons.
  destruct (Hall c (or_introl eq_refl)) as (n & costo & Hn & Hm & Hst).
  rewrite Hn.
  rewrite (aggiorna_tabella_ciclo n _ _ costo (tabella_routing n) (Fatto false) Hm)
    by now apply aggiorna_ciclo_stabile.
  rewrite con_tabella_stessa, (dict_set_same _ _ _ Hn).
  apply IH. intros c' Hc'. apply Hall. now right.
Qed.

Lemma esegui_round_zero s s' :
  esegui_round s = (s', Fatto 0%nat) ->
  s' = s /\ forall c, In c (invii s) -> stabile s c.
Proof.
  rewrite esegui_round_applica. intros H.
  apply applica_zero in H. destruct H as (_ & H). now apply H.
Qed.

(** C9. A round that ends with [aggiornamenti == 0] leaves every table as it
    was, and one more round from the state it leaves ends with
    [aggiornamenti == 0] again and changes nothing. *)
Theorem punto_fisso_idempotente (s s' : rete) :
  esegui_round s = (s', Fatto 0%nat) ->
  s' = s /\ esegui_round s' = (s', Fatto 0%nat).
Proof.
  intros H. destruct (esegui_round_zero _ _ H) as (-> & _). auto.
Qed.

(** ** The loop of [simula] *)

Ltac split7 := split; [|split; [|split; [|split; [|split; [|split]]]]].

Lemma ciclo_conteggi rimaste : forall it s,
  let c := ciclo rimaste it s in
  (List.length (conteggi c) <= rimaste)%nat /\
  (round_iniziati c <= rimaste)%nat /\
  (forall i, nth_error (conteggi c) i = Some 0%nat ->
             S i = List.length (conteggi c)) /\
  ((exists k, fine c = UscitaBreak k) <-> In 0%nat (conteggi c)) /\
  (forall k, fine c = UscitaBreak k ->
             k = (it + List.length (conteggi c))%nat /\
             round_iniziati c = List.length (conteggi c)) /\
  (fine c = RangeEsaurito ->
     List.length (conteggi c) = rimaste /\ round_iniziati c = rimaste) /\
  (forall e, fine c = Eccezione e ->
     (List.length (conteggi c) < rimaste)%nat /\
     round_iniziati c = S (List.length (conteggi c))).
Proof.
  unfold round_iniziati.
  induction rimaste as [|r IH]; intros it s; simpl.
  - split7; try lia; try discriminate.
    + intros [|i]; discriminate.
    + split; [intros (k & Hk); discriminate | intros []].
  - destruct (esegui_round s) as [s' [a|e]] eqn:E; simpl.
    + destruct (Nat.eqb_spec a 0) as [->|Hne]; simpl.
      * split7; try lia; try discriminate.
        -- intros [|[|i]]; simpl; try discriminate. reflexivity.
        -- split; [intros _; now left | intros _; eauto].
        -- intros k Hk. inversion Hk. lia.
      * destruct (IH (S it) s') as (H1 & H2 & H3 & H4 & H5 & H6 & H7).
        split7.
        -- lia.
        -- lia.
        -- intros [|i]; simpl.
           ++ intros Hi; inversion Hi; lia.
           ++ intros Hi. now rewrite (H3 i Hi).
        -- rewrite H4. split; [now right | intros [Ha|Hin]; [lia | assumption]].
        -- intros k Hk. apply H5 in Hk. lia.
        -- intros Hk. apply H6 in Hk. lia.
        -- intros e Hk. apply H7 in Hk. lia.
    + split7; try lia; try discriminate.
      * intros [|i]; discriminate.
      * split; [intros (k & Hk); discriminate | intros []].
Qed.

(** ** What the caller of [simula] learns *)

Lemma ciclo_convergenza rimaste : forall it s,
  let c := ciclo rimaste it s in
  (In Convergenza (uscita c) <-> exists k, fine c = UscitaBreak k) /\
  (forall k, fine c = UscitaBreak k -> exists out, uscita c = out ++ [Convergenza]).
Proof.
  induction rimaste as [|r IH]; intros it s; simpl.
  - split; [|discriminate]. split; [intros [] | intros (k & Hk); discriminate].
  - destruct (esegui_round s) as [s' [a|e]] eqn:E; simpl.
    + destruct (Nat.eqb a 0); simpl.
      * split; [split; eauto 6|]. intros k _.
        exists [Intestazione (S it); Tabelle s'; Disegno (S it)]. reflexivity.
      * destruct (IH (S it) s') as (H1 & H2). split.
        -- rewrite <- H1. split; [|tauto].
           intros [?|[?|[?|?]]]; try discriminate; assumption.
        -- intros k Hk. destruct (H2 k Hk) as (out & ->).
           exists (Intestazione (S it) :: Tabelle s' :: Disegno (S it) :: out).
           reflexivity.
    + split; [|discriminate].
      split; [intros [?|[]]; discriminate | intros (k & Hk); discriminate].
Qed.


(** ** The in-place round and the double-buffered step *)

Lemma ricevi_cons k c cs n agg :
  ricevi k (c :: cs) n agg =
  if String.eqb (i_dest c) k then
    match aggiorna_tabella n (i_mitt c) (i_vett c) with
    | (n', Solleva e) => (n', Solleva e)
    | (n', Fatto b) => ricevi k cs n' (if b then S agg else agg)
    end
  else ricevi k cs n agg.
Proof.
  simpl. destruct (String.eqb (i_dest c) k); [|reflexivity].
  destruct (aggiorna_tabella n (i_mitt c) (i_vett c)) as [n' [b|e]]; reflexivity.
Qed.

(** The counter a node starts from is only added to its result. *)
Lemma ricevi_piu k cs : forall n x,
  ricevi k cs n x =
  match ricevi k cs n 0%nat with
  | (n', Fatto a) => (n', Fatto (a + x)%nat)
  | (n', Solleva e) => (n', Solleva e)
  end.
Proof.
  induction cs as [|c cs IH]; intros n x.
  - reflexivity.
  - rewrite !ricevi_cons. destruct (String.eqb (i_dest c) k); [|apply IH].
    destruct (aggiorna_tabella n (i_mitt c) (i_vett c)) as [n' [b|e]];
      [|reflexivity].
    destruct b; [|apply IH].
    rewrite (IH n' (S x)), (IH n' 1%nat).
    destruct (ricevi k cs n' 0%nat) as [n2 [a|e]]; [|reflexivity].
    f_equal. f_equal. lia.
Qed.

(** A call to a name that is not among the nodes reaches none of them. *)
Lemma passo_sincrono_nodi_estraneo c cs nodi :
  ~ In (i_dest c) (dict_keys nodi) ->
  passo_sincrono_nodi (c :: cs) nodi = passo_sincrono_nodi cs nodi.
Proof.
  induction nodi as [|[k n] rest IH]; intros Hni; [reflexivity|].
  cbn [passo_sincrono_nodi]. rewrite ricevi_cons.
  destruct (String.eqb_spec (i_dest c) k) as [Heq|Hne].
  - exfalso. apply Hni. simpl. now left.
  - rewrite IH; [reflexivity|]. intros Hin. apply Hni. simpl. now right.
Qed.

(** The first call of a round, made in place, and the rest of the round in
    the double-buffered step. *)
Lemma passo_sincrono_nodi_cons c cs nodi n n' b :
  NoDup (dict_keys nodi) ->
  dict_get (i_dest c) nodi = Some n ->
  aggiorna_tabella n (i_mitt c) (i_vett c) = (n', Fatto b) ->
  passo_sincrono_nodi (c :: cs) nodi =
  piu (uno_se b) (passo_sincrono_nodi cs (dict_set (i_dest c) n' nodi)).
Proof.
  induction nodi as [|[k m] rest IH]; intros Hnd Hg Ha; [discriminate|].
  inversion Hnd as [|? ? Hnotin Hnd']; subst.
  cbn [passo_sincrono_nodi dict_set]. simpl in Hg. rewrite ricevi_cons.
  destruct (String.eqb_spec (i_dest c) k) as [Heq|Hne].
  - inversion Hg; subst m. subst k. rewrite Ha.
    cbn [passo_sincrono_nodi].
    rewrite passo_sincrono_nodi_estraneo by exact Hnotin.
    rewrite (ricevi_piu (i_dest c) cs n' (if b then 1%nat else 0%nat)).
    destruct (ricevi (i_dest c) cs n' 0%nat) as [n2 [a|e]]; [|reflexivity].
    destruct (passo_sincrono_nodi cs rest) as [[r' a']|]; [|reflexivity].
    simpl. do 2 f_equal. unfold uno_se. destruct b; lia.
  - cbn [passo_sincrono_nodi].
    rewrite (IH Hnd' Hg Ha).
    destruct (ricevi k cs m 0%nat) as [n2 [a|e]]; [|reflexivity].
    destruct (passo_sincrono_nodi cs (dict_set (i_dest c) n' rest))
      as [[r' a']|]; [|reflexivity].
    simpl. do 2 f_equal. lia.
Qed.

Lemma passo_sincrono_nodi_errore c cs nodi n n' e :
  dict_get (i_dest c) nodi = Some n ->
  aggiorna_tabella n (i_mitt c) (i_vett c) = (n', Solleva e) ->
  passo_sincrono_nodi (c :: cs) nodi = None.
Proof.
  induction nodi as [|[k m] rest IH]; intros Hg Ha; [discriminate|].
  cbn [passo_sincrono_nodi]. simpl in Hg. rewrite ricevi_cons.
  destruct (String.eqb_spec (i_dest c) k) as [Heq|Hne].
  - inversion Hg; subst m. now rewrite Ha.
  - rewrite (IH Hg Ha).
    now destruct (ricevi k cs m 0%nat) as [n2 [a|e']].
Qed.

Lemma dict_mem_set {V} k k' (v v0 : V) d :
  dict_get k d = Some v0 -> dict_mem k' (dict_set k v d) = dict_mem k' d.
Proof.
  intros H. unfold dict_mem. rewrite dict_get_set.
  destruct (String.eqb_spec k' k) as [->|Hne]; [now rewrite H | reflexivity].
Qed.

Lemma applica_sincrono cs : forall nodi agg,
  NoDup (dict_keys nodi) ->
  match applica cs nodi agg with
  | (nodi', Fatto a) =>
      forallb (fun c => dict_mem (i_dest c) nodi) cs = true /\
      exists a', passo_sincrono_nodi cs nodi = Some (nodi', a') /\
                 a = (agg + a')%nat
  | (_, Solleva _) =>
      forallb (fun c => dict_mem (i_dest c) nodi) cs = false \/
      passo_sincrono_nodi cs nodi = None
  end.
Proof.
  induction cs as [|c cs IH]; intros nodi agg Hnd.
  - simpl. split; [reflexivity|]. exists 0%nat. split; [|lia].
    clear. induction nodi as [|[k n] rest IHn]; [reflexivity|].
    simpl. now rewrite IHn.
  - rewrite applica_cons. cbn [forallb]. unfold dict_mem at 1 3.
    destruct (dict_get (i_dest c) nodi) as [n|] eqn:E; [|now left].
    destruct (aggiorna_tabella n (i_mitt c) (i_vett c)) as [n' [b|e]] eqn:Ea.
    + assert (Hnd' : NoDup (dict_keys (dict_set (i_dest c) n' nodi)))
        by now apply dict_keys_set_NoDup.
      assert (Hmem : forallb (fun c0 => dict_mem (i_dest c0)
                                 (dict_set (i_dest c) n' nodi)) cs =
                     forallb (fun c0 => dict_mem (i_dest c0) nodi) cs).
      { clear - E. induction cs as [|c0 cs IHcs]; [reflexivity|].
        simpl. rewrite IHcs. f_equal. eapply dict_mem_set; eauto. }
      specialize (IH (dict_set (i_dest c) n' nodi)
                     (if b then S agg else agg) Hnd').
      rewrite (passo_sincrono_nodi_cons c cs nodi n n' b Hnd E Ea).
      destruct (applica cs _ _) as [nodi' [a|e]].
      * destruct IH as (Hall & a' & Hs & Ha). rewrite Hmem in Hall.
        split; [exact Hall|]. rewrite Hs. simpl.
        exists (a' + uno_se b)%nat. split; [reflexivity|].
        unfold uno_se. destruct b; lia.
      * rewrite Hmem in IH. destruct IH as [Hall|Hs]; [now left|].
        right. now rewrite Hs.
    + right. eapply passo_sincrono_nodi_errore; eauto.
Qed.

(** C5. In a round every vector that is delivered is the export of the
    table its sender had when the round started, and the in-place loop over
    the snapshot computes what the double-buffered step computes from the
    tables of the previous round alone: the same new tables and the same
    count when no call raises, and an exception exactly when the
    double-buffered step is undefined. *)
Theorem round_doppio_buffer (nodi : rete) :
  NoDup (dict_keys nodi) ->
  (forall c, In c (invii nodi) ->
     exists n, dict_get (i_mitt c) nodi = Some n /\
               i_vett c = invia_vettore n) /\
  esegui_round nodi = applica (invii nodi) nodi 0%nat /\
  (forall nodi' a,
     esegui_round nodi = (nodi', Fatto a) <->
     passo_sincrono nodi = Some (nodi', a)).
Proof.
  intros Hnd. split; [|split].
  - intros c Hc. apply In_invii in Hc.
    destruct Hc as (k & n & Hin & Hm & Hv & _).
    exists n. split; [|assumption]. rewrite Hm. now apply In_dict_get.
  - apply esegui_round_applica.
  - intros nodi' a. rewrite esegui_round_applica. unfold passo_sincrono.
    pose proof (applica_sincrono (invii nodi) nodi 0%nat Hnd) as H.
    destruct (applica (invii nodi) nodi 0%nat) as [s [x|e]].
    + destruct H as (-> & a' & -> & ->). simpl.
      split; intros E; inversion E; subst; reflexivity.
    + split; [discriminate|].
      destruct H as [->| ->]; [discriminate|].
      now destruct (forallb _ _).
Qed.

(** ** Unknown destinations *)

Lemma raggiungibile_chiavi_tabella nodi0 s :
  raggiungibile nodi0 s ->
  forall k n, In (k, n) s ->
  forall i, In i (dict_keys (tabella_routing n)) <-> In i (dict_keys nodi0).
Proof.
  intros Hs.
  apply (evolve_inv
           (fun _ n => forall i, In i (dict_keys (tabella_routing n)) <->
                                 In i (dict_keys nodi0))
           (fun _ => True))
    with (s := inizializza_tutti nodi0); [| |assumption|].
  - intros c n n' r _ HP Ha i.
    apply aggiorna_tabella_nome in Ha. destruct Ha as (_ & _ & ->). apply HP.
  - trivial.
  - intros k n Hin i. apply In_inizializza_tutti in Hin.
    destruct Hin as (n0 & _ & ->). apply inizializza_keys.
Qed.

(** C10, as the code has it. A vector with a destination that the table
    lacks makes [aggiorna_tabella] raise an exception. It is the [KeyError]
    of the sender when the sender is not a neighbour, and otherwise the
    exception of the first pair of the vector that raises: the [KeyError]
    of the first unknown destination or, at that pair or at an earlier
    one, the [OverflowError] of the addition of a cost that no [float]
    holds to the distance [inf]; with a cost that can be added to every
    distance of the vector it is the [KeyError] of the first unknown
    destination. The table is mutated in place and nothing is rolled back:
    when the exception leaves the method the node is the one a successful
    call on the pairs before the one that raises produces, and nothing
    after that point has been looked at. Neither a failed nor a successful
    call adds or removes a key, so in every state of a run the keys of
    every table are the names given to the initialisation. *)
Theorem aggiorna_tabella_destinazione_ignota :
  (forall self mittente vett,
     (exists d, In d (dict_keys vett) /\
                ~ In d (dict_keys (tabella_routing self))) ->
     exists self' e,
       aggiorna_tabella self mittente vett = (self', Solleva e) /\
       ((dict_get mittente (vicini self) = None /\ e = KeyError mittente /\
         self' = self) \/
        (exists costo prima k s dopo b,
           dict_get mittente (vicini self) = Some costo /\
           vett = prima ++ (k, s) :: dopo /\
           (forall d, In d (dict_keys prima) ->
                      In d (dict_keys (tabella_routing self))) /\
           senza_overflow costo prima /\
           aggiorna_tabella self mittente prima = (self', Fatto b) /\
           ((s = Inf /\ convertibile costo = false /\ e = OverflowError) \/
            (somma_riesce costo s = true /\
             ~ In k (dict_keys (tabella_routing self)) /\
             e = KeyError k))))) /\
  (forall self mittente vett costo,
     dict_get mittente (vicini self) = Some costo ->
     senza_overflow costo vett ->
     (exists d, In d (dict_keys vett) /\
                ~ In d (dict_keys (tabella_routing self))) ->
     exists self' prima k s dopo b,
       aggiorna_tabella self mittente vett = (self', Solleva (KeyError k)) /\
       vett = prima ++ (k, s) :: dopo /\
       ~ In k (dict_keys (tabella_routing self)) /\
       (forall d, In d (dict_keys prima) ->
                  In d (dict_keys (tabella_routing self))) /\
       aggiorna_tabella self mittente prima = (self', Fatto b)) /\
  (forall self mittente vett,
     dict_keys (tabella_routing (fst (aggiorna_tabella self mittente vett))) =
     dict_keys (tabella_routing self)) /\
  (forall nodi0 s, raggiungibile nodi0 s ->
     forall k n, In (k, n) s ->
     forall i, In i (dict_keys (tabella_routing n)) <->
               In i (dict_keys nodi0)).
Proof.
  assert (H1 : forall self mittente vett,
     (exists d, In d (dict_keys vett) /\
                ~ In d (dict_keys (tabella_routing self))) ->
     exists self' e,
       aggiorna_tabella self mittente vett = (self', Solleva e) /\
       ((dict_get mittente (vicini self) = None /\ e = KeyError mittente /\
         self' = self) \/
        (exists costo prima k s dopo b,
           dict_get mittente (vicini self) = Some costo /\
           vett = prima ++ (k, s) :: dopo /\
           (forall d, In d (dict_keys prima) ->
                      In d (dict_keys (tabella_routing self))) /\
           senza_overflow costo prima /\
           aggiorna_tabella self mittente prima = (self', Fatto b) /\
           ((s = Inf /\ convertibile costo = false /\ e = OverflowError) \/
            (somma_riesce costo s = true /\
             ~ In k (dict_keys (tabella_routing self)) /\
             e = KeyError k))))).
  { intros self mittente vett (d & Hd & Hnd).
    destruct (dict_get mittente (vicini self)) as [costo|] eqn:Em.
    + destruct (aggiorna_ciclo mittente costo vett (tabella_routing self) false)
        as [tab' [b|e]] eqn:Ec.
      * exfalso. apply Hnd. eapply aggiorna_ciclo_fatto_keys; eauto.
      * destruct (aggiorna_ciclo_solleva _ _ _ _ _ _ _ Ec)
          as (prima & k & s & dopo & m' & Hv & Hcausa & Hp).
        exists (con_tabella self tab'), e.
        split; [now apply (aggiorna_tabella_ciclo _ _ _ costo)|].
        right. exists costo, prima, k, s, dopo, m'.
        split; [reflexivity|]. split; [assumption|].
        split; [eapply aggiorna_ciclo_fatto_keys; eauto|].
        split; [eapply aggiorna_ciclo_fatto_somma; eauto|].
        split; [now apply (aggiorna_tabella_ciclo _ _ _ costo)|].
        destruct Hcausa as [(Hs & He)|(Hs & Hk & He)].
        -- left. destruct s as [y|]; [discriminate|]. auto.
        -- right. split; [assumption|].
           split; [now apply dict_get_None | assumption].
    + exists self, (KeyError mittente). unfold aggiorna_tabella. rewrite Em.
      split; [reflexivity | now left]. }
  split; [exact H1|]. split; [|split].
  - intros self mittente vett costo Hm Hov Hd.
    destruct (H1 self mittente vett Hd) as (self' & e & Ha & Hcase).
    destruct Hcase as [(Hn & _)|(costo' & prima & k & s & dopo & b & Hm' & Hv
                                   & Hprima & _ & Hp & Hcausa)];
      [congruence|].
    rewrite Hm in Hm'. inversion Hm'; subst costo'.
    assert (Hs : somma_riesce costo s = true).
    { apply (Hov k). rewrite Hv. apply in_or_app. right. now left. }
    destruct Hcausa as [(-> & Hconv & _)|(_ & Hk & ->)].
    + simpl in Hs. congruence.
    + exists self', prima, k, s, dopo, b. auto.
  - intros self mittente vett.
    destruct (aggiorna_tabella self mittente vett) as [self' r] eqn:E.
    now apply aggiorna_tabella_nome in E.
  - apply raggiungibile_chiavi_tabella.
Qed.

(** ** Shortest paths at the fixed point *)

Lemma topologia_get nodi k :
  dict_get k (topologia nodi) = option_map vicini (dict_get k nodi).
Proof.
  unfold topologia. induction nodi as [|[k0 n0] rest IH]; simpl; [reflexivity|].
  destruct (String.eqb k k0); [reflexivity | exact IH].
Qed.

Lemma arco_topologia nodi u v c :
  arco (topologia nodi) u v c <->
  exists n, dict_get u nodi = Some n /\ dict_get v (vicini n) = Some c.
Proof.
  unfold arco. split.
  - intros (vs & Hu & Hv). rewrite topologia_get in Hu.
    destruct (dict_get u nodi) as [n|]; [|discriminate].
    inversion Hu; subst. eauto.
  - intros (n & Hu & Hv). exists (vicini n). rewrite topologia_get, Hu. auto.
Qed.

Lemma rete_valida_simmetrica nodi :
  rete_valida nodi -> grafo_simmetrico (topologia nodi).
Proof.
  intros [Hnd Hnomi Hvic] u v c Ha. apply arco_topologia in Ha.
  destruct Ha as (n & Hu & Hv).
  destruct (Hvic u n v c (dict_get_In _ _ _ Hu) Hv) as (m & Hm & Hmem).
  apply dict_mem_true, dict_get_Some_key in Hmem. destruct Hmem as (c' & Hc').
  exists c'. apply arco_topologia. eauto.
Qed.

Lemma inv_grafo_vettore g k n dest :
  inv_grafo g k n -> vettore_fondato g (mkInvio k (invia_vettore n) dest).
Proof.
  intros (Hn & Hb & Hg & Hkeys & Hf). split; [now apply inv_base_vettore|].
  simpl. intros d y Hin. apply In_invia_vettore in Hin. destruct Hin as (h & Hin).
  destruct Hb as (Hnd & _).
  apply (In_dict_get _ _ _ Hnd) in Hin.
  destruct (Hf _ _ _ Hin) as (Hsame & Hdiff).
  destruct (string_dec k d) as [<-|Hne].
  - destruct (Hsame eq_refl) as (_ & ->). constructor.
    apply dict_get_Some_key. eauto.
  - destruct (Hdiff Hne) as (v & c & y' & _ & Harco & Hc & ->).
    econstructor; eauto.
Qed.

Lemma inv_grafo_passo g c n n' r :
  vettore_fondato g c -> inv_grafo g (i_dest c) n ->
  aggiorna_tabella n (i_mitt c) (i_vett c) = (n', r) ->
  inv_grafo g (i_dest c) n'.
Proof.
  intros (HGpos & HGc) (Hn & Hb & Hg & Hkeys & Hf) Ha.
  pose proof (inv_base_passo _ _ _ _ _ HGpos Hb Ha) as Hb'.
  pose proof (aggiorna_tabella_nome _ _ _ _ _ Ha) as (Hn' & Hv' & Hk').
  unfold inv_grafo. rewrite Hn', Hv', Hk'.
  split; [assumption|]. split; [assumption|]. split; [assumption|].
  split; [assumption|].
  apply aggiorna_tabella_inv in Ha.
  destruct Ha as [(_ & -> & _)|(costo & tab' & Hm & Hc & ->)]; [assumption|].
  simpl. intros d h' x' Hg'.
  assert (Hd : In d (dict_keys (tabella_routing n))).
  { rewrite <- (aggiorna_ciclo_keys _ _ _ _ _ _ _ Hc).
    apply dict_get_Some_key. eauto. }
  apply dict_get_Some_key in Hd. destruct Hd as ([h cur] & Hgd).
  destruct (aggiorna_ciclo_voce _ _ _ _ _ _ _ Hc _ _ _ Hgd)
    as (h2 & x2 & Hg2 & _ & Hcase).
  rewrite Hg' in Hg2. inversion Hg2; subst h2 x2.
  destruct Hcase as [E|(-> & Hlt & s & Hin & Hs)].
  - inversion E; subst. now apply Hf.
  - symmetry in Hs. apply candidato_Fin in Hs. destruct Hs as (y & -> & ->).
    pose proof (HGpos _ _ Hin) as Hy. pose proof (HGc _ _ Hin) as Hwalk.
    destruct Hb as (_ & Hcosti & Hself & _).
    pose proof (Hcosti _ _ Hm) as Hcosto.
    split.
    + intros Heq. exfalso. unfold voce_propria in Hself.
      rewrite Hn, Heq, Hgd in Hself. inversion Hself; subst.
      simpl in Hlt. apply Z.ltb_lt in Hlt. lia.
    + intros Hne. exists (i_mitt c), costo, y.
      split; [reflexivity|]. split; [|auto].
      exists (vicini n). auto.
Qed.

Lemma inv_grafo_init nodi0 :
  rete_valida nodi0 -> costi_non_negativi nodi0 ->
  forall k n, In (k, n) (inizializza_tutti nodi0) ->
              inv_grafo (topologia nodi0) k n.
Proof.
  intros [Hnd Hnomi Hvic] Hcosti k n Hin.
  apply In_inizializza_tutti in Hin. destruct Hin as (n0 & Hin & ->).
  pose proof (Hnomi _ _ Hin) as Hk.
  assert (Hkin : In k (dict_keys nodi0)) by (eapply In_dict_keys; eauto).
  unfold inv_grafo.
  split; [exact Hk|]. split.
  { apply inv_base_init; [now rewrite Hk | eauto]. }
  split.
  { simpl. rewrite topologia_get, (In_dict_get _ _ _ Hnd Hin). reflexivity. }
  split.
  { intros d. rewrite inizializza_keys, topologia_keys. tauto. }
  intros d h x Hg.
  assert (Hd : In d (dict_keys nodi0)).
  { apply (inizializza_keys n0). apply dict_get_Some_key. eauto. }
  rewrite inizializza_get in Hg by assumption. unfold voce_iniziale in Hg.
  rewrite Hk in Hg.
  destruct (String.eqb_spec d k) as [->|Hne].
  - inversion Hg; subst. split; [auto | congruence].
  - destruct (dict_get d (vicini n0)) as [c|] eqn:E; inversion Hg; subst.
    split; [congruence|]. intros _. exists d, x, 0.
    split; [reflexivity|]. split.
    + apply arco_topologia. exists n0.
      split; [now apply In_dict_get | assumption].
    + split; [|lia]. constructor. now rewrite topologia_keys.
Qed.

Lemma raggiungibile_inv_grafo nodi0 :
  rete_valida nodi0 -> costi_non_negativi nodi0 ->
  forall s, raggiungibile nodi0 s ->
  forall k n, In (k, n) s -> inv_grafo (topologia nodi0) k n.
Proof.
  intros Hval Hcosti s Hs.
  apply (evolve_inv (inv_grafo (topologia nodi0))
                    (vettore_fondato (topologia nodi0)))
    with (s := inizializza_tutti nodi0); [| |assumption|].
  - intros c n n' r. apply inv_grafo_passo.
  - intros s0 HP c Hc. apply In_invii in Hc.
    destruct Hc as (k & n & Hin & Hm & Hv & _).
    pose proof (inv_grafo_vettore _ _ _ (i_dest c) (HP k n Hin)) as H.
    destruct c as [m v d]; simpl in *; subst. exact H.
  - now apply inv_grafo_init.
Qed.

Section PuntoFisso.
Variables (g : grafo) (s : rete).
Hypothesis Htopo : topologia s = g.
Hypothesis Hinv : forall k n, In (k, n) s -> inv_grafo g k n.
Hypothesis Hsim : grafo_simmetrico g.
Hypothesis Hstab : forall c, In c (invii s) -> stabile s c.

(** No stored distance is above the cost of a walk. *)
Lemma punto_fisso_sotto_cammini u d y :
  cammino g u d y ->
  exists h x, voce_di s u d = Some (h, Fin x) /\ x <= y.
Proof.
  induction 1 as [u Hu|u v d c y Harco Hwalk IH].
  - rewrite <- Htopo, topologia_keys in Hu.
    apply dict_get_Some_key in Hu. destruct Hu as (n & Hn).
    destruct (Hinv u n (dict_get_In _ _ _ Hn)) as (Hnome & Hb & _).
    destruct Hb as (_ & _ & Hself & _). unfold voce_propria in Hself.
    exists (Some u), 0. unfold voce_di. rewrite Hn, <- Hnome, Hself, Hnome.
    split; [reflexivity | lia].
  - destruct IH as (hv & xv & Hvd & Hle).
    destruct (Hsim _ _ _ Harco) as (c' & Hback).
    rewrite <- Htopo in Harco, Hback.
    apply arco_topologia in Harco, Hback.
    destruct Harco as (nu & Hnu & Hcu). destruct Hback as (m & Hm & Hcm).
    assert (Hc0 : In (mkInvio v (invia_vettore m) u) (invii s)).
    { apply In_invii. exists v, m. simpl.
      split; [now apply dict_get_In|]. split; [reflexivity|].
      split; [reflexivity|]. apply dict_get_Some_key. eauto. }
    destruct (Hstab _ Hc0) as (n & costo & Hn & Hcosto & Hall & _). simpl in *.
    rewrite Hnu in Hn. inversion Hn; subst n.
    rewrite Hcu in Hcosto. inversion Hcosto; subst costo.
    unfold voce_di in Hvd. rewrite Hm in Hvd.
    destruct (Hall d (Fin xv)) as (h & cur & Hcur & Hlt).
    { apply In_invia_vettore. exists hv. now apply dict_get_In. }
    destruct cur as [x|]; simpl in Hlt; [|discriminate].
    apply Z.ltb_ge in Hlt.
    exists h, x. unfold voce_di. rewrite Hnu, Hcur.
    split; [reflexivity | lia].
Qed.

Lemma voce_di_fondata u d h x :
  voce_di s u d = Some (h, Fin x) -> voce_fondata g u d h x.
Proof.
  unfold voce_di. destruct (dict_get u s) as [n|] eqn:E; [|discriminate].
  intros H. destruct (Hinv u n (dict_get_In _ _ _ E)) as (_ & _ & _ & _ & Hf).
  now apply Hf.
Qed.

Lemma voce_fondata_cammino u d h x :
  In u (dict_keys g) -> voce_fondata g u d h x -> cammino g u d x.
Proof.
  intros Hu (Hsame & Hdiff). destruct (string_dec u d) as [<-|Hne].
  - destruct (Hsame eq_refl) as (_ & ->). now constructor.
  - destruct (Hdiff Hne) as (v & c & y & _ & Harco & Hwalk & ->).
    econstructor; eauto.
Qed.

Lemma punto_fisso_ottimo : fortemente_connesso g -> tabelle_ottime g s.
Proof.
  intros Hconn u d Hu Hd.
  destruct (Hconn u d Hu Hd) as (y0 & Hwalk0).
  destruct (punto_fisso_sotto_cammini _ _ _ Hwalk0) as (h & x & Hv & _).
  exists h, x. split; [assumption|].
  pose proof (voce_di_fondata _ _ _ _ Hv) as Hf.
  assert (Hmin : distanza_minima g u d x).
  { split; [eapply voce_fondata_cammino; eauto|].
    intros y Hy. destruct (punto_fisso_sotto_cammini _ _ _ Hy)
      as (h' & x' & Hv' & Hle).
    rewrite Hv in Hv'. inversion Hv'; subst. exact Hle. }
  split; [assumption|].
  destruct Hf as (Hsame & Hdiff). destruct (string_dec u d) as [<-|Hne].
  - left. split; [reflexivity | now apply Hsame].
  - right. split; [assumption|].
    destruct (Hdiff Hne) as (v & c & y & -> & Harco & Hwalk & ->).
    exists v, c, y. split; [reflexivity|]. split; [assumption|].
    split; [|assumption].
    split; [assumption|]. intros y' Hy'.
    destruct Hmin as (_ & Hmin).
    specialize (Hmin (c + y') (cammino_passo _ _ _ _ _ _ Harco Hy')). lia.
Qed.
End PuntoFisso.

(** The state a run is in when the loop is left through the [break] is the
    result of a round without updates. *)
Lemma ciclo_break rimaste : forall it s k,
  fine (ciclo rimaste it s) = UscitaBreak k ->
  exists s1, evolve s s1 /\
             esegui_round s1 = (finale (ciclo rimaste it s), Fatto 0%nat).
Proof.
  induction rimaste as [|r IH]; intros it s k; simpl; [discriminate|].
  destruct (esegui_round s) as [s' [a|e]] eqn:E; simpl; [|discriminate].
  destruct (Nat.eqb_spec a 0) as [->|Hne]; simpl.
  - intros _. exists s. split; [constructor | assumption].
  - intros H. destruct (IH _ _ _ H) as (s1 & Hev & Hr).
    exists s1. split; [|assumption].
    eapply evolve_trans; [|exact Hev].
    eapply evolve_round; [constructor | eauto].
Qed.

Lemma punto_fisso_raggiunto_ottimo nodi0 s s' :
  rete_valida nodi0 -> costi_non_negativi nodi0 ->
  fortemente_connesso (topologia nodi0) ->
  raggiungibile nodi0 s -> esegui_round s = (s', Fatto 0%nat) ->
  tabelle_ottime (topologia nodi0) s'.
Proof.
  intros Hval Hcosti Hconn Hs Hr.
  destruct (esegui_round_zero _ _ Hr) as (-> & Hstab).
  apply punto_fisso_ottimo; auto.
  - now apply raggiungibile_topologia.
  - now apply raggiungibile_inv_grafo.
  - now apply rete_valida_simmetrica.
Qed.

(** ** A well-formed network with costs a [float] holds raises no
       exception *)

Lemma raggiungibile_nomi nodi0 s :
  (forall k n, In (k, n) nodi0 -> nome n = k) ->
  raggiungibile nodi0 s ->
  forall k n, In (k, n) s -> nome n = k.
Proof.
  intros Hnomi Hs.
  apply (evolve_inv (fun k n => nome n = k) (fun _ => True))
    with (s := inizializza_tutti nodi0); [| |assumption|].
  - intros c n n' r _ HP Ha.
    apply aggiorna_tabella_nome in Ha. destruct Ha as (-> & _). exact HP.
  - trivial.
  - intros k n Hin. apply In_inizializza_tutti in Hin.
    destruct Hin as (n0 & Hin & ->). simpl. eauto.
Qed.

Lemma In_topologia nodi k vs :
  In (k, vs) (topologia nodi) <-> exists n, In (k, n) nodi /\ vicini n = vs.
Proof.
  unfold topologia. rewrite in_map_iff. split.
  - intros ([k0 n0] & E & Hin). inversion E; subst. eauto.
  - intros (n & Hin & <-). exists (k, n). auto.
Qed.

Lemma raggiungibile_valida nodi0 s :
  rete_valida nodi0 -> raggiungibile nodi0 s -> rete_valida s.
Proof.
  intros [Hnd Hnomi Hvic] Hs.
  pose proof (raggiungibile_topologia _ _ Hs) as Htopo.
  constructor.
  - now rewrite (raggiungibile_keys _ _ Hs).
  - now apply (raggiungibile_nomi nodi0 s).
  - intros k n v c Hin Hv.
    assert (H0 : In (k, vicini n) (topologia nodi0)).
    { rewrite <- Htopo. apply In_topologia. eauto. }
    apply In_topologia in H0. destruct H0 as (n0 & Hin0 & Hv0).
    rewrite <- Hv0 in Hv.
    destruct (Hvic k n0 v c Hin0 Hv) as (m0 & Hm0 & Hmem).
    assert (Hg : dict_get v (topologia s) = Some (vicini m0)).
    { rewrite Htopo, topologia_get, Hm0. reflexivity. }
    rewrite topologia_get in Hg.
    destruct (dict_get v s) as [m|]; [|discriminate].
    inversion Hg as [Hvm]. exists m. rewrite Hvm. auto.
Qed.

Lemma convertibile_senza_overflow costo vett :
  convertibile costo = true -> senza_overflow costo vett.
Proof. intros H d [y|] _; [reflexivity | exact H]. Qed.

Lemma applica_fatto cs : forall nodi agg,
  (forall k n, In (k, n) nodi ->
     forall d, In d (dict_keys (tabella_routing n)) <-> In d (dict_keys nodi)) ->
  (forall c, In c cs ->
     exists n, dict_get (i_dest c) nodi = Some n /\
               dict_mem (i_mitt c) (vicini n) = true /\
               (forall costo, dict_get (i_mitt c) (vicini n) = Some costo ->
                              senza_overflow costo (i_vett c)) /\
               forall d, In d (dict_keys (i_vett c)) -> In d (dict_keys nodi)) ->
  exists nodi' a, applica cs nodi agg = (nodi', Fatto a).
Proof.
  induction cs as [|c cs IH]; intros nodi agg Htab Hcs.
  - simpl. eauto.
  - rewrite applica_cons.
    destruct (Hcs c (or_introl eq_refl)) as (n & Hn & Hmem & Hov & Hvett).
    rewrite Hn.
    apply dict_mem_true, dict_get_Some_key in Hmem.
    destruct Hmem as (costo & Hcosto).
    destruct (aggiorna_ciclo_fatto (i_mitt c) costo (i_vett c)
                (tabella_routing n) false) as (tab' & b & Hc).
    { intros d Hd. apply (Htab _ _ (dict_get_In _ _ _ Hn)). auto. }
    { now apply Hov. }
    rewrite (aggiorna_tabella_ciclo _ _ _ _ _ _ Hcosto Hc).
    pose proof (aggiorna_ciclo_keys _ _ _ _ _ _ _ Hc) as Hk.
    pose proof (dict_keys_set_present (i_dest c) (con_tabella n tab') n nodi Hn)
      as Hkeys.
    apply IH.
    + intros k m Hin d. rewrite Hkeys. apply In_dict_set in Hin.
      destruct Hin as [[-> ->]|Hin]; [|now apply (Htab k m)].
      simpl. rewrite Hk. apply (Htab _ _ (dict_get_In _ _ _ Hn)).
    + intros c' Hc'.
      destruct (Hcs c' (or_intror Hc')) as (m & Hm & Hmm & Hov' & Hv).
      rewrite Hkeys, dict_get_set.
      destruct (String.eqb_spec (i_dest c') (i_dest c)) as [E|E].
      * rewrite E, Hn in Hm. inversion Hm; subst m.
        exists (con_tabella n tab'). auto.
      * exists m. auto.
Qed.

Lemma raggiungibile_rappresentabili nodi0 s :
  costi_rappresentabili nodi0 -> raggiungibile nodi0 s ->
  costi_rappresentabili s.
Proof.
  intros Hrap Hs k n v c Hin Hv.
  assert (H0 : In (k, vicini n) (topologia nodi0)).
  { rewrite <- (raggiungibile_topologia _ _ Hs). apply In_topologia. eauto. }
  apply In_topologia in H0. destruct H0 as (n0 & Hin0 & Hv0).
  rewrite <- Hv0 in Hv. eapply Hrap; eauto.
Qed.

Lemma esegui_round_fatto s :
  rete_valida s -> costi_rappresentabili s ->
  (forall k n, In (k, n) s ->
     forall d, In d (dict_keys (tabella_routing n)) <-> In d (dict_keys s)) ->
  exists s' a, esegui_round s = (s', Fatto a).
Proof.
  intros [Hnd Hnomi Hvic] Hrap Htab. rewrite esegui_round_applica.
  apply applica_fatto; [assumption|].
  intros c Hc. apply In_invii in Hc.
  destruct Hc as (k & n & Hin & Hm & Hv & Hd).
  apply dict_get_Some_key in Hd. destruct Hd as (costo & Hcosto).
  destruct (Hvic _ _ _ _ Hin Hcosto) as (m & Hgm & Hmem).
  exists m. split; [assumption|]. split; [now rewrite Hm|]. split.
  - intros costo' Hc'. apply convertibile_senza_overflow.
    eapply Hrap; [eapply dict_get_In; exact Hgm | exact Hc'].
  - intros d. rewrite Hv, invia_vettore_keys. apply (Htab k n Hin).
Qed.

Lemma raggiungibile_round_fatto nodi0 s :
  rete_valida nodi0 -> costi_rappresentabili nodi0 -> raggiungibile nodi0 s ->
  exists s' a, esegui_round s = (s', Fatto a).
Proof.
  intros Hval Hrap Hs. apply esegui_round_fatto.
  - eapply raggiungibile_valida; eauto.
  - eapply raggiungibile_rappresentabili; eauto.
  - intros k n Hin d. rewrite (raggiungibile_keys _ _ Hs).
    eapply raggiungibile_chiavi_tabella; eauto.
Qed.



(** ** Walks without repeated nodes *)

Lemma costi_grafo_non_negativo nodi :
  costi_non_negativi nodi -> grafo_non_negativo (topologia nodi).
Proof.
  intros Hcosti u v c Ha. apply arco_topologia in Ha.
  destruct Ha as (n & Hu & Hv). eapply Hcosti; eauto using dict_get_In.
Qed.

Lemma cammino_percorso g u d y :
  cammino g u d y <-> exists p, percorso g p u d y.
Proof.
  split.
  - induction 1 as [u Hu|u v d c y Ha _ (p & Hp)].
    + exists [u]. now constructor.
    + exists (u :: p). econstructor; eauto.
  - intros (p & Hp). induction Hp; econstructor; eauto.
Qed.

Lemma arco_In g u v c : arco g u v c -> In u (dict_keys g).
Proof. intros (vs & Hu & _). apply dict_get_Some_key. eauto. Qed.

Lemma percorso_incl g p u d y :
  percorso g p u d y -> incl p (dict_keys g).
Proof.
  induction 1 as [u Hu|u v d c y p Ha _ IH]; intros w [<-|Hw]; auto.
  - destruct Hw.
  - eapply arco_In; eauto.
Qed.

Lemma percorso_non_neg g p u d y :
  grafo_non_negativo g -> percorso g p u d y -> 0 <= y.
Proof.
  intros Hpos. induction 1 as [u Hu|u v d c y p Ha _ IH]; [lia|].
  specialize (Hpos _ _ _ Ha). lia.
Qed.

(** The part of a walk that starts at one of its nodes. *)
Lemma percorso_taglia g p v d y :
  grafo_non_negativo g -> percorso g p v d y ->
  forall u, In u p ->
  exists p0 p' y', p = p0 ++ p' /\ percorso g p' u d y' /\ y' <= y.
Proof.
  intros Hpos. induction 1 as [u0 Hu0|u0 v d c y p Ha Hp IH]; intros u Hin.
  - destruct Hin as [<-|[]]. exists [], [u0], 0.
    split; [reflexivity|]. split; [now constructor | lia].
  - destruct (string_dec u u0) as [->|Hne].
    + exists [], (u0 :: p), (c + y).
      split; [reflexivity|]. split; [econstructor; eauto | lia].
    + destruct Hin as [E|Hin]; [congruence|].
      destruct (IH u Hin) as (p0 & p' & y' & -> & Hp' & Hle).
      exists (u0 :: p0), p', y'. split; [reflexivity|]. split; [assumption|].
      specialize (Hpos _ _ _ Ha). lia.
Qed.

Lemma percorso_semplice g p u d y :
  grafo_non_negativo g -> percorso g p u d y ->
  exists p' y', percorso g p' u d y' /\ y' <= y /\ NoDup p'.
Proof.
  intros Hpos. induction 1 as [u Hu|u v d c y p Ha Hp (p1 & y1 & Hp1 & Hle & Hnd)].
  - exists [u], 0. split; [now constructor|]. split; [lia|].
    constructor; [simpl; tauto | constructor].
  - pose proof (Hpos _ _ _ Ha) as Hc.
    destruct (in_dec string_dec u p1) as [Hin|Hnotin].
    + destruct (percorso_taglia _ _ _ _ _ Hpos Hp1 u Hin)
        as (p0 & p' & y' & -> & Hp' & Hle').
      exists p', y'. split; [assumption|]. split; [lia|].
      eapply NoDup_app_remove_l; eauto.
    + exists (u :: p1), (c + y1). split; [econstructor; eauto|].
      split; [lia | now constructor].
Qed.

(** Every walk is matched by one that visits at most all the nodes. *)
Lemma percorso_corto g p u d y :
  grafo_non_negativo g -> percorso g p u d y ->
  exists p' y', percorso g p' u d y' /\ y' <= y /\
                (List.length p' <= List.length g)%nat.
Proof.
  intros Hpos Hp.
  destruct (percorso_semplice _ _ _ _ _ Hpos Hp) as (p' & y' & Hp' & Hle & Hnd).
  exists p', y'. split; [assumption|]. split; [assumption|].
  replace (List.length g) with (List.length (dict_keys g))
    by (unfold dict_keys; apply length_map).
  apply NoDup_incl_length; [assumption|]. eapply percorso_incl; eauto.
Qed.

(** ** What a round guarantees after each call *)

Lemma nodo_non_crescente_refl n : nodo_non_crescente n n.
Proof.
  split; [reflexivity|]. intros d h x H. exists h, x.
  split; [assumption | apply dist_le_refl].
Qed.

Lemma nodo_non_crescente_trans a b c :
  nodo_non_crescente a b -> nodo_non_crescente b c -> nodo_non_crescente a c.
Proof.
  intros (Hv1 & H1) (Hv2 & H2). split; [congruence|].
  intros d h x H.
  destruct (H1 d h x H) as (h1 & x1 & Hg1 & L1).
  destruct (H2 d h1 x1 Hg1) as (h2 & x2 & Hg2 & L2).
  exists h2, x2. split; [assumption | eapply dist_le_trans; eauto].
Qed.

Lemma nodo_non_crescente_passo n mitt vett n' r :
  aggiorna_tabella n mitt vett = (n', r) -> nodo_non_crescente n n'.
Proof.
  intros H. pose proof (aggiorna_tabella_nome _ _ _ _ _ H) as (_ & Hv & _).
  split; [assumption|]. now apply (mono_passo n mitt vett n' r).
Qed.

Lemma aggiorna_ciclo_dopo mittente costo vett : forall (tab : tabella) m tab' b,
  aggiorna_ciclo mittente costo vett tab m = (tab', Fatto b) ->
  forall d s, In (d, s) vett ->
    exists h cur, dict_get d tab' = Some (h, cur) /\
                  dist_le cur (candidato costo s).
Proof.
  induction vett as [|[d0 s0] resto IH]; intros tab m tab' b;
    [simpl|rewrite aggiorna_ciclo_cons].
  - intros _ d s [].
  - destruct (somma_riesce costo s0); [|discriminate].
    destruct (dict_get d0 tab) as [[h0 cur0]|] eqn:E; [|discriminate].
    destruct (dist_ltb (candidato costo s0) cur0) eqn:L;
      intros H d s [Eq|Hin]; try (eapply IH; eauto; fail);
      inversion Eq; subst d s.
    + destruct (aggiorna_ciclo_voce _ _ _ _ _ _ _ H d0 (Some mittente)
                  (candidato costo s0)) as (h' & cur' & Hg' & Hle & _).
      { apply dict_get_set_eq. }
      eauto.
    + destruct (aggiorna_ciclo_voce _ _ _ _ _ _ _ H d0 h0 cur0 E)
        as (h' & cur' & Hg' & Hle & _).
      exists h', cur'. split; [assumption|].
      eapply dist_le_trans; [exact Hle|]. now apply dist_ltb_false_le.
Qed.

Lemma applica_dopo cs : forall nodi agg nodi' a,
  applica cs nodi agg = (nodi', Fatto a) ->
  forall c, In c cs -> recepito nodi' c.
Proof.
  induction cs as [|c0 cs IH]; intros nodi agg nodi' a; [intros _ c []|].
  rewrite applica_cons.
  destruct (dict_get (i_dest c0) nodi) as [n0|] eqn:E; [|discriminate].
  destruct (aggiorna_tabella n0 (i_mitt c0) (i_vett c0)) as [n1 [b|e]] eqn:Ea;
    [|discriminate].
  intros H c [<-|Hin]; [|eapply IH; eauto].
  destruct (applica_rel nodo_non_crescente nodo_non_crescente_refl
              nodo_non_crescente_trans nodo_non_crescente_passo
              _ _ _ _ _ H (i_dest c0) n1 (dict_get_set_eq _ _ _))
    as (n' & Hn' & Hv & Hmono).
  apply aggiorna_tabella_inv in Ea.
  destruct Ea as [(_ & _ & ?)|(costo & tab1 & Hm & Hc & ->)]; [discriminate|].
  exists n', costo. split; [assumption|]. split; [now rewrite Hv|].
  intros d s Hds.
  destruct (aggiorna_ciclo_dopo _ _ _ _ _ _ _ Hc d s Hds) as (h1 & cur1 & Hg1 & L1).
  destruct (Hmono d h1 cur1 Hg1) as (h' & cur' & Hg' & L').
  exists h', cur'. split; [assumption | eapply dist_le_trans; eauto].
Qed.

Lemma esegui_round_dopo s s' a :
  esegui_round s = (s', Fatto a) ->
  forall c, In c (invii s) -> recepito s' c.
Proof. rewrite esegui_round_applica. apply applica_dopo. Qed.

(** ** The tables improve by one link per round *)

Lemma inizializza_tutti_get nodi k :
  dict_get k (inizializza_tutti nodi) =
  option_map (fun n => inizializza_tabella n (dict_keys nodi)) (dict_get k nodi).
Proof.
  unfold inizializza_tutti. generalize (dict_keys nodi) as tutti. intros tutti.
  induction nodi as [|[k0 n0] rest IH]; simpl; [reflexivity|].
  destruct (String.eqb k k0); [reflexivity | exact IH].
Qed.

Lemma voce_di_inizio nodi u d n :
  dict_get u nodi = Some n -> In d (dict_keys nodi) ->
  voce_di (inizializza_tutti nodi) u d = Some (voce_iniziale n d).
Proof.
  intros Hu Hd. unfold voce_di. rewrite inizializza_tutti_get, Hu. simpl.
  now apply (init_fold_get_in n (dict_keys nodi) []).
Qed.

Lemma entro_inizio nodi0 :
  rete_valida nodi0 -> costi_non_negativi nodi0 ->
  entro (topologia nodi0) (inizializza_tutti nodi0) 1.
Proof.
  intros [Hnd Hnomi Hvic] Hcosti p u d y Hp Hlen.
  assert (Hself : forall w, In w (dict_keys nodi0) ->
            voce_di (inizializza_tutti nodi0) w w = Some (Some w, Fin 0)).
  { intros w Hw. pose proof Hw as Hw'.
    apply dict_get_Some_key in Hw. destruct Hw as (n & Hn).
    rewrite (voce_di_inizio _ _ _ _ Hn Hw'). unfold voce_iniziale.
    rewrite (Hnomi _ _ (dict_get_In _ _ _ Hn)), String.eqb_refl. reflexivity. }
  inversion Hp as [u0 Hu|u0 v d0 c y1 p1 Ha Hp1]; subst.
  - rewrite topologia_keys in Hu. exists (Some d), 0.
    split; [now apply Hself | lia].
  - simpl in Hlen.
    inversion Hp1 as [v0 Hv|v0 w d0 c' y2 p2 Ha' Hp2]; subst;
      [|simpl in Hlen; inversion Hp2; subst; simpl in Hlen; lia].
    rewrite topologia_keys in Hv.
    pose proof (costi_grafo_non_negativo _ Hcosti _ _ _ Ha) as Hc.
    apply arco_topologia in Ha. destruct Ha as (n & Hn & Hcd).
    destruct (String.eqb_spec d u) as [->|Hne].
    + exists (Some u), 0. split; [now apply Hself | lia].
    + exists (Some d), c. split; [|lia].
      rewrite (voce_di_inizio _ _ _ _ Hn Hv). unfold voce_iniziale.
      rewrite (Hnomi _ _ (dict_get_In _ _ _ Hn)).
      destruct (String.eqb_spec d u) as [?|_]; [contradiction|].
      now rewrite Hcd.
Qed.

Section Round.
Variables (g : grafo) (s : rete).
Hypothesis Hval : rete_valida s.
Hypothesis Htopo : topologia s = g.

(** The vector of [v] is delivered to every [u] that has [v] as a
    neighbour. *)
Lemma arco_invio u v c :
  arco g u v c ->
  exists nu m, dict_get u s = Some nu /\ dict_get v (vicini nu) = Some c /\
               dict_get v s = Some m /\
               In (mkInvio v (invia_vettore m) u) (invii s).
Proof.
  rewrite <- Htopo. intros Ha. apply arco_topologia in Ha.
  destruct Ha as (nu & Hnu & Hc).
  destruct (rv_vicini _ Hval _ _ _ _ (dict_get_In _ _ _ Hnu) Hc)
    as (m & Hm & Hmem).
  exists nu, m. repeat (split; [assumption|]).
  apply In_invii. exists v, m. simpl.
  split; [now apply dict_get_In|]. split; [reflexivity|].
  split; [reflexivity|]. now apply dict_mem_true.
Qed.

Lemma entro_round s' a r :
  entro g s r -> esegui_round s = (s', Fatto a) -> entro g s' (S r).
Proof.
  intros Hentro Hr p u d y Hp Hlen.
  revert Hlen. destruct Hp as [u Hu|u v d c y1 p1 Ha Hp1]; intros Hlen.
  - destruct (Hentro _ _ _ _ (percorso_fermo g u Hu)) as (h & x & Hv & Hle);
      [simpl; lia|].
    destruct (esegui_round_non_crescente _ _ _ Hr _ _ _ _ Hv)
      as (h' & x' & Hv' & Hle').
    destruct x' as [x'|]; simpl in Hle'; [|contradiction].
    exists h', x'. split; [assumption | lia].
  - simpl in Hlen.
    destruct (Hentro _ _ _ _ Hp1) as (hv & xv & Hvd & Hle); [lia|].
    destruct (arco_invio _ _ _ Ha) as (nu & m & Hnu & Hc & Hm & Hin).
    destruct (esegui_round_dopo _ _ _ Hr _ Hin)
      as (n' & costo & Hn' & Hcosto & Hall). simpl in *.
    assert (Hvic : vicini n' = vicini nu).
    { pose proof (esegui_round_topologia _ _ _ Hr) as Ht.
      pose proof (topologia_get s' u) as H1.
      rewrite Ht, topologia_get, Hnu, Hn' in H1. now inversion H1. }
    rewrite Hvic, Hc in Hcosto. inversion Hcosto; subst costo.
    unfold voce_di in Hvd. rewrite Hm in Hvd.
    destruct (Hall d (Fin xv)) as (h & cur & Hcur & Hcle).
    { apply In_invia_vettore. exists hv. now apply dict_get_In. }
    destruct cur as [x|]; simpl in Hcle; [|contradiction].
    exists h, x. unfold voce_di. rewrite Hn', Hcur.
    split; [reflexivity | lia].
Qed.

(** Once the tables are not above the cost of any walk without repeated
    nodes, no call improves anything. *)
Lemma saturo_stabile r :
  grafo_non_negativo g -> costi_rappresentabili s ->
  (forall k n, In (k, n) s -> inv_grafo g k n) ->
  entro g s r -> (List.length g <= S r)%nat ->
  forall c, In c (invii s) -> stabile s c.
Proof.
  intros Hpos Hrap Hinv Hentro Hsat c Hc. apply In_invii in Hc.
  destruct Hc as (v & m & Hin & Hmitt & Hvett & Hdest).
  apply dict_get_Some_key in Hdest. destruct Hdest as (c' & Hc').
  destruct (rv_vicini _ Hval _ _ _ _ Hin Hc') as (n & Hn & Hmem).
  apply dict_mem_true, dict_get_Some_key in Hmem.
  destruct Hmem as (costo & Hcosto).
  exists n, costo. split; [assumption|]. split; [now rewrite Hmitt|].
  split; [|apply convertibile_senza_overflow;
           apply (Hrap _ _ _ _ (dict_get_In _ _ _ Hn) Hcosto)].
  intros d sd Hd. rewrite Hvett in Hd.
  apply In_invia_vettore in Hd. destruct Hd as (h & Hd).
  destruct (Hinv _ _ Hin) as (_ & Hbm & Hgm & Hkm & Hfm).
  destruct (Hinv _ _ (dict_get_In _ _ _ Hn)) as (_ & _ & Hgn & Hkn & _).
  assert (Hdk : In d (dict_keys (tabella_routing n))).
  { apply Hkn, Hkm. eapply In_dict_keys; eauto. }
  apply dict_get_Some_key in Hdk. destruct Hdk as ([h' cur] & Hcur).
  exists h', cur. split; [assumption|].
  destruct sd as [xv|]; [|reflexivity].
  destruct Hbm as (Hndm & _).
  apply (In_dict_get _ _ _ Hndm) in Hd.
  assert (Hwalk : cammino g v d xv).
  { eapply voce_fondata_cammino; [|eauto].
    apply dict_get_Some_key. eauto. }
  assert (Harco : arco g (i_dest c) v costo) by (exists (vicini n); auto).
  pose proof (cammino_passo _ _ _ _ _ _ Harco Hwalk) as Hwalk'.
  apply cammino_percorso in Hwalk'. destruct Hwalk' as (p & Hp).
  destruct (percorso_corto _ _ _ _ _ Hpos Hp) as (p' & y' & Hp' & Hle & Hlen).
  destruct (Hentro _ _ _ _ Hp') as (h2 & x & Hv & Hle2); [lia|].
  unfold voce_di in Hv. rewrite Hn, Hcur in Hv. inversion Hv; subst.
  simpl. apply Z.ltb_ge. lia.
Qed.
End Round.

Lemma ciclo_converge nodi0 :
  rete_valida nodi0 -> costi_non_negativi nodi0 ->
  costi_rappresentabili nodi0 ->
  forall rimaste it s b,
    raggiungibile nodi0 s -> entro (topologia nodi0) s b ->
    (1 <= rimaste)%nat -> (List.length nodi0 <= b + rimaste)%nat ->
    exists k, fine (ciclo rimaste it s) = UscitaBreak k /\
              (it < k <= it + Nat.max 1 (List.length nodi0 - b))%nat.
Proof.
  intros Hval Hcosti Hrap.
  induction rimaste as [|r IH]; intros it s b Hs Hentro Hr1 Hlen; [lia|].
  cbn [ciclo].
  destruct (raggiungibile_round_fatto _ _ Hval Hrap Hs) as (s' & a & Hr).
  rewrite Hr.
  destruct (Nat.eqb_spec a 0) as [->|Hne]; cbn [fine].
  - exists (S it). split; [reflexivity | lia].
  - pose proof (raggiungibile_valida _ _ Hval Hs) as Hvals.
    pose proof (raggiungibile_topologia _ _ Hs) as Htopo.
    assert (Hnsat : (S b < List.length nodi0)%nat).
    { destruct (Nat.lt_ge_cases (S b) (List.length nodi0)) as [?|Hsat];
        [assumption|]. exfalso. apply Hne.
      assert (Hst : forall c, In c (invii s) -> stabile s c).
      { eapply (saturo_stabile (topologia nodi0) s Hvals Htopo b).
        - now apply costi_grafo_non_negativo.
        - eapply raggiungibile_rappresentabili; eauto.
        - now apply raggiungibile_inv_grafo.
        - assumption.
        - unfold topologia. rewrite length_map. lia. }
      pose proof (applica_stabile _ s 0%nat Hst) as H0.
      rewrite <- esegui_round_applica, Hr in H0. now inversion H0. }
    assert (Hs' : raggiungibile nodi0 s') by (eapply evolve_round; eauto).
    destruct (IH (S it) s' (S b) Hs') as (k & Hk & Hbound).
    + eapply entro_round; eauto.
    + lia.
    + lia.
    + exists k. split; [assumption | lia].
Qed.

(** A well-formed network with non-negative costs that can all be
    converted to a [float] reaches the round without updates after at most
    [max 1 (n - 1)] rounds, [n] being the number of nodes. *)
Lemma simula_converge nodi max_iter :
  rete_valida nodi -> costi_non_negativi nodi -> costi_rappresentabili nodi ->
  (1 <= max_iter)%nat -> (List.length nodi <= S max_iter)%nat ->
  exists k, fine (simula nodi max_iter) = UscitaBreak k /\
            (1 <= k <= Nat.max 1 (List.length nodi - 1))%nat.
Proof.
  intros Hval Hcosti Hrap H1 Hlen. unfold simula.
  destruct (ciclo_converge nodi Hval Hcosti Hrap max_iter 0%nat
              (inizializza_tutti nodi) 1%nat) as (k & Hk & Hb).
  - constructor.
  - now apply entro_inizio.
  - assumption.
  - lia.
  - exists k. split; [assumption | lia].
Qed.

(** ** Forwarding along the tables reaches the destination *)

Lemma voce_di_set nodi k n a d :
  voce_di (dict_set k n nodi) a d =
  if String.eqb a k then dict_get d (tabella_routing n) else voce_di nodi a d.
Proof.
  unfold voce_di. rewrite dict_get_set. now destruct (String.eqb a k).
Qed.

(** What one call does to each entry of the receiver. *)
Lemma aggiorna_tabella_voci n0 mitt vett n1 r :
  aggiorna_tabella n0 mitt vett = (n1, r) ->
  forall d h1 x1, dict_get d (tabella_routing n1) = Some (h1, x1) ->
    exists h0 x0, dict_get d (tabella_routing n0) = Some (h0, x0) /\
      dist_le x1 x0 /\
      (((h1, x1) = (h0, x0) /\ cambiata n0 n1 d = false) \/
       (h1 = Some mitt /\ cambiata n0 n1 d = true /\
        exists costo s, dict_get mitt (vicini n0) = Some costo /\
                        In (d, s) vett /\ x1 = candidato costo s /\
                        dist_ltb x1 x0 = true)).
Proof.
  intros Ha d h1 x1 H1.
  pose proof (aggiorna_tabella_nome _ _ _ _ _ Ha) as (_ & _ & Hk).
  assert (Hd : In d (dict_keys (tabella_routing n0))).
  { rewrite <- Hk. apply dict_get_Some_key. eauto. }
  apply dict_get_Some_key in Hd. destruct Hd as ([h0 x0] & H0).
  exists h0, x0. split; [assumption|].
  assert (Hsame : forall x, dist_ltb x x = false).
  { intros [z|]; simpl; [apply Z.ltb_irrefl | reflexivity]. }
  apply aggiorna_tabella_inv in Ha.
  destruct Ha as [(_ & -> & _)|(costo & tab1 & Hm & Hc & ->)].
  - rewrite H0 in H1. inversion H1; subst.
    split; [apply dist_le_refl|]. left. split; [reflexivity|].
    unfold cambiata. rewrite H0. apply Hsame.
  - simpl in H1.
    destruct (aggiorna_ciclo_voce _ _ _ _ _ _ _ Hc d h0 x0 H0)
      as (h' & x' & H' & Hle & Hcase).
    rewrite H1 in H'. inversion H'; subst h' x'.
    split; [assumption|].
    destruct Hcase as [E|(-> & Hlt & s & Hin & ->)].
    + left. split; [assumption|]. inversion E; subst.
      unfold cambiata. simpl. rewrite H1, H0. apply Hsame.
    + right. split; [reflexivity|]. split.
      * unfold cambiata. simpl. now rewrite H1, H0.
      * exists costo, s. auto.
Qed.

Lemma hop_ordinato_passo g rk nodi c n0 n1 r :
  grafo_non_negativo g -> topologia nodi = g ->
  hop_ordinato g rk nodi -> non_sopra nodi c ->
  dict_get (i_dest c) nodi = Some n0 ->
  aggiorna_tabella n0 (i_mitt c) (i_vett c) = (n1, r) ->
  exists rk', hop_ordinato g rk' (dict_set (i_dest c) n1 nodi).
Proof.
  intros Hpos Htopo Hord Hsopra Hn0 Ha.
  pose proof (aggiorna_tabella_voci _ _ _ _ _ Ha) as Hvoci.
  assert (Hvu : forall d, voce_di nodi (i_dest c) d =
                          dict_get d (tabella_routing n0)).
  { intros d. unfold voce_di. now rewrite Hn0. }
  exists (fun a b => if (String.eqb a (i_dest c) && cambiata n0 n1 b)%bool
                     then S (rk (i_mitt c) b) else rk a b).
  intros a d v x Hne Hv. rewrite voce_di_set in Hv.
  destruct (String.eqb_spec a (i_dest c)) as [->|Hau].
  - (* an entry of the receiver *)
    destruct (Hvoci _ _ _ Hv) as (h0 & x0 & H0 & _ & Hcase).
    destruct Hcase as [(E & Hcamb)|(Hh & Hcamb & costo & s & Hm & Hin & Hx & Hlt)].
    + (* ... that the call left alone *)
      inversion E; subst h0 x0.
      destruct (Hord (i_dest c) d v x Hne) as (c0 & hv & y & Harco & Hvd & Hdisj);
        [now rewrite Hvu|].
      pose proof (Hpos _ _ _ Harco) as Hc0.
      destruct (String.eqb_spec v (i_dest c)) as [->|Hvu'].
      * exfalso. rewrite Hvu, H0 in Hvd. inversion Hvd; subst. lia.
      * exists c0, hv, y. split; [assumption|].
        rewrite voce_di_set.
        destruct (String.eqb_spec v (i_dest c)) as [?|_]; [contradiction|].
        split; [assumption|]. rewrite Hcamb, andb_false_r.
        destruct (String.eqb_spec v (i_dest c)) as [?|_]; [contradiction|].
        exact Hdisj.
    + (* ... that the call replaced *)
      inversion Hh; subst v. symmetry in Hx.
      apply candidato_Fin in Hx. destruct Hx as (ys & -> & ->).
      destruct (Hsopra d ys Hin) as (hv & y' & Hvd & Hle).
      assert (Harco : arco g (i_dest c) (i_mitt c) costo).
      { exists (vicini n0). split; [|assumption].
        rewrite <- Htopo, topologia_get, Hn0. reflexivity. }
      pose proof (Hpos _ _ _ Harco) as Hc0.
      destruct (String.eqb_spec (i_mitt c) (i_dest c)) as [Heq|Hneq].
      * exfalso. rewrite Heq, Hvu, H0 in Hvd. inversion Hvd; subst.
        simpl in Hlt. apply Z.ltb_lt in Hlt. lia.
      * exists costo, hv, y'. split; [assumption|].
        rewrite voce_di_set.
        destruct (String.eqb_spec (i_mitt c) (i_dest c)) as [?|_];
          [contradiction|].
        split; [assumption|]. rewrite Hcamb. simpl.
        destruct (Z.eq_dec (costo + y') (costo + ys)) as [E|E];
          [right; split; [exact E | lia] | left; lia].
  - (* an entry of another node *)
    destruct (String.eqb_spec a (i_dest c)) as [?|_]; [contradiction|].
    simpl.
    destruct (Hord a d v x Hne Hv) as (c0 & hv & y & Harco & Hvd & Hdisj).
    destruct (String.eqb_spec v (i_dest c)) as [->|Hvu'].
    + rewrite Hvu in Hvd.
      assert (Hd : In d (dict_keys (tabella_routing n1))).
      { destruct (aggiorna_tabella_nome _ _ _ _ _ Ha) as (_ & _ & ->).
        apply dict_get_Some_key. eauto. }
      apply dict_get_Some_key in Hd. destruct Hd as ([h1 x1] & H1).
      destruct (Hvoci _ _ _ H1) as (h0 & x0 & H0 & Hle & Hcase).
      rewrite Hvd in H0. inversion H0; subst h0 x0.
      destruct x1 as [y1|]; simpl in Hle; [|contradiction].
      exists c0, h1, y1. split; [assumption|].
      rewrite voce_di_set, String.eqb_refl. split; [assumption|].
      destruct Hcase as [(E & Hcamb)|(_ & Hcamb & _ & _ & _ & _ & _ & Hlt)].
      * inversion E; subst. rewrite Hcamb, andb_false_r. exact Hdisj.
      * simpl in Hlt. apply Z.ltb_lt in Hlt. left. lia.
    + exists c0, hv, y. split; [assumption|].
      rewrite voce_di_set.
      destruct (String.eqb_spec v (i_dest c)) as [?|_]; [contradiction|].
      split; [assumption|]. simpl. exact Hdisj.
Qed.

Lemma non_sopra_passo nodi c c' n0 n1 r :
  dict_get (i_dest c) nodi = Some n0 ->
  aggiorna_tabella n0 (i_mitt c) (i_vett c) = (n1, r) ->
  non_sopra nodi c' -> non_sopra (dict_set (i_dest c) n1 nodi) c'.
Proof.
  intros Hn0 Ha Hs d y Hin.
  destruct (Hs d y Hin) as (hv & y' & Hv & Hle).
  rewrite voce_di_set.
  destruct (String.eqb_spec (i_mitt c') (i_dest c)) as [E|_]; [|eauto].
  unfold voce_di in Hv. rewrite E, Hn0 in Hv.
  destruct (mono_passo _ _ _ _ _ Ha d hv (Fin y') Hv) as (h1 & x1 & H1 & Hle1).
  destruct x1 as [y1|]; simpl in Hle1; [|contradiction].
  exists h1, y1. split; [assumption | lia].
Qed.

Lemma applica_ordinato g cs :
  grafo_non_negativo g ->
  forall nodi agg nodi' r,
    topologia nodi = g ->
    (exists rk, hop_ordinato g rk nodi) ->
    (forall c, In c cs -> non_sopra nodi c) ->
    applica cs nodi agg = (nodi', r) ->
    exists rk', hop_ordinato g rk' nodi'.
Proof.
  intros Hpos.
  induction cs as [|c cs IH]; intros nodi agg nodi' r Htopo Hord Hsopra.
  - simpl. intros H; inversion H; subst. assumption.
  - rewrite applica_cons.
    destruct (dict_get (i_dest c) nodi) as [n0|] eqn:E;
      [|intros H; inversion H; subst; assumption].
    destruct (aggiorna_tabella n0 (i_mitt c) (i_vett c)) as [n1 r1] eqn:Ea.
    destruct Hord as (rk & Hord).
    assert (Hord1 : exists rk', hop_ordinato g rk'
                                  (dict_set (i_dest c) n1 nodi)).
    { eapply hop_ordinato_passo; eauto. apply Hsopra. now left. }
    destruct r1 as [b|e]; [|intros H; inversion H; subst; assumption].
    apply IH; [|assumption|].
    + rewrite <- Htopo. eapply dict_set_topologia; eauto.
      now destruct (aggiorna_tabella_nome _ _ _ _ _ Ea) as (_ & ? & _).
    + intros c' Hc'. eapply non_sopra_passo; eauto. apply Hsopra. now right.
Qed.

Lemma non_sopra_inizio s c :
  NoDup (dict_keys s) ->
  (forall k n, In (k, n) s -> NoDup (dict_keys (tabella_routing n))) ->
  In c (invii s) -> non_sopra s c.
Proof.
  intros Hnd Htab Hc d y Hin. apply In_invii in Hc.
  destruct Hc as (k & n & Hkn & Hm & Hv & _).
  rewrite Hv in Hin. apply In_invia_vettore in Hin. destruct Hin as (h & Hin).
  exists h, y. split; [|lia].
  unfold voce_di. rewrite Hm, (In_dict_get _ _ _ Hnd Hkn).
  apply In_dict_get; eauto.
Qed.

Lemma hop_ordinato_inizio nodi0 :
  rete_valida nodi0 ->
  exists rk, hop_ordinato (topologia nodi0) rk (inizializza_tutti nodi0).
Proof.
  intros [Hnd Hnomi Hvic].
  exists (fun a b => if String.eqb a b then 0%nat else 1%nat).
  intros u d v x Hne Hv. unfold voce_di in Hv.
  rewrite inizializza_tutti_get in Hv.
  destruct (dict_get u nodi0) as [n|] eqn:Hn; [|discriminate].
  cbn [option_map] in Hv.
  assert (Hd : In d (dict_keys nodi0)).
  { apply (inizializza_keys n). apply dict_get_Some_key. eauto. }
  pose proof (Hnomi _ _ (dict_get_In _ _ _ Hn)) as Hnome.
  rewrite inizializza_get in Hv by assumption. unfold voce_iniziale in Hv.
  rewrite Hnome in Hv.
  destruct (String.eqb_spec d u) as [?|_]; [congruence|].
  destruct (dict_get d (vicini n)) as [c|] eqn:Hc; inversion Hv; subst v x.
  destruct (Hvic _ _ _ _ (dict_get_In _ _ _ Hn) Hc) as (m & Hm & _).
  exists c, (Some d), 0. split; [apply arco_topologia; eauto|].
  split.
  - rewrite (voce_di_inizio _ _ _ _ Hm Hd). unfold voce_iniziale.
    rewrite (Hnomi _ _ (dict_get_In _ _ _ Hm)), String.eqb_refl. reflexivity.
  - right. split; [lia|]. rewrite String.eqb_refl.
    destruct (String.eqb_spec u d) as [?|_]; [congruence | lia].
Qed.

Lemma raggiungibile_ordinato nodi0 s :
  rete_valida nodi0 -> costi_non_negativi nodi0 ->
  raggiungibile nodi0 s ->
  exists rk, hop_ordinato (topologia nodi0) rk s.
Proof.
  intros Hval Hcosti Hs. unfold raggiungibile in Hs.
  remember (inizializza_tutti nodi0) as s0 eqn:Es0.
  induction Hs as [s0|s0 s1 s2 r Hev IH Hr]; subst.
  - now apply hop_ordinato_inizio.
  - specialize (IH eq_refl).
    rewrite esegui_round_applica in Hr.
    eapply applica_ordinato; [| |exact IH| |exact Hr].
    + now apply costi_grafo_non_negativo.
    + now apply raggiungibile_topologia.
    + intros c Hc. apply non_sopra_inizio; [| |assumption].
      * rewrite (raggiungibile_keys nodi0 s1 Hev). apply Hval.
      * intros k n Hin.
        destruct (raggiungibile_inv_base nodi0 (rv_nomi _ Hval) Hcosti
                    s1 Hev k n Hin) as (_ & Hnd & _).
        exact Hnd.
Qed.

Lemma rotta_length s d u p : rotta s d u p -> (1 <= List.length p)%nat.
Proof. destruct 1; simpl; lia. Qed.

Lemma rotta_instrada s d u p :
  rotta s d u p ->
  forall passi, (List.length p <= S passi)%nat ->
  instrada s passi u d = Some p.
Proof.
  induction 1 as [|u v x p Hne Hv Hr IH]; intros passi Hlen.
  - destruct passi; simpl; now rewrite String.eqb_refl.
  - pose proof (rotta_length _ _ _ _ Hr) as Hp. simpl in Hlen.
    destruct passi as [|f]; [lia|].
    simpl. destruct (String.eqb_spec u d) as [?|_]; [contradiction|].
    rewrite Hv, IH by lia. reflexivity.
Qed.

Section Inoltro.
Variables (g : grafo) (s : rete) (rk : string -> string -> nat).
Hypothesis Hval : rete_valida s.
Hypothesis Htopo : topologia s = g.
Hypothesis Hinv : forall k n, In (k, n) s -> inv_grafo g k n.
Hypothesis Hord : hop_ordinato g rk s.
Hypothesis Hstab : forall c, In c (invii s) -> stabile s c.

(** At the fixed point the next hop completes the distance exactly and
    comes earlier in the order. *)
Lemma punto_fisso_hop u d v x :
  u <> d -> voce_di s u d = Some (Some v, Fin x) ->
  exists c hv y, arco g u v c /\ voce_di s v d = Some (hv, Fin y) /\
                 x = c + y /\ (rk v d < rk u d)%nat.
Proof.
  intros Hne Hv.
  destruct (Hord u d v x Hne Hv) as (c & hv & y & Harco & Hvd & Hdisj).
  exists c, hv, y. split; [assumption|]. split; [assumption|].
  destruct Hdisj as [Hlt|(Heq & Hrk)]; [exfalso | split; [lia | assumption]].
  destruct (arco_invio g s Hval Htopo _ _ _ Harco)
    as (nu & m & Hnu & Hc & Hm & Hin).
  destruct (Hstab _ Hin) as (n & costo & Hn & Hcosto & Hall & _). simpl in *.
  rewrite Hnu in Hn. inversion Hn; subst n.
  rewrite Hc in Hcosto. inversion Hcosto; subst costo.
  unfold voce_di in Hvd, Hv. rewrite Hm in Hvd. rewrite Hnu in Hv.
  destruct (Hall d (Fin y)) as (h & cur & Hcur & Hl).
  { apply In_invia_vettore. exists hv. now apply dict_get_In. }
  rewrite Hv in Hcur. inversion Hcur; subst. simpl in Hl.
  apply Z.ltb_ge in Hl. lia.
Qed.

Lemma punto_fisso_rotta d : forall k u h x,
  (rk u d < k)%nat -> In u (dict_keys g) ->
  voce_di s u d = Some (h, Fin x) ->
  exists p, rotta s d u p /\ percorso g p u d x /\ NoDup p /\
            forall w, In w p -> (rk w d <= rk u d)%nat.
Proof.
  induction k as [|k IH]; intros u h x Hk Hu Hv; [lia|].
  pose proof (voce_di_fondata g s Hinv _ _ _ _ Hv) as (Hsame & Hdiff).
  destruct (string_dec u d) as [->|Hne].
  - destruct (Hsame eq_refl) as (_ & ->). exists [d].
    split; [constructor|]. split; [now constructor|].
    split; [constructor; [simpl; tauto | constructor]|].
    intros w [<-|[]]. lia.
  - destruct (Hdiff Hne) as (v & c0 & y0 & -> & _).
    destruct (punto_fisso_hop _ _ _ _ Hne Hv)
      as (c & hv & y & Harco & Hvd & -> & Hrk).
    assert (Hvk : In v (dict_keys g)).
    { destruct (arco_invio g s Hval Htopo _ _ _ Harco)
        as (_ & m & _ & _ & Hm & _).
      rewrite <- Htopo, topologia_keys. apply dict_get_Some_key. eauto. }
    destruct (IH v hv y) as (p & Hr & Hp & Hnd & Hle); [lia|assumption..|].
    exists (u :: p). split; [econstructor; eauto|].
    split; [econstructor; eauto|]. split.
    + constructor; [|assumption]. intros Hin. apply Hle in Hin. lia.
    + intros w [<-|Hin]; [lia|]. apply Hle in Hin. lia.
Qed.

Lemma punto_fisso_instrada u d h x :
  In u (dict_keys g) -> voce_di s u d = Some (h, Fin x) ->
  exists p, instrada s (List.length s) u d = Some p /\ percorso g p u d x.
Proof.
  intros Hu Hv.
  destruct (punto_fisso_rotta d (S (rk u d)) u h x) as (p & Hr & Hp & Hnd & _);
    [lia|assumption..|].
  exists p. split; [|assumption].
  apply rotta_instrada; [assumption|].
  assert (Hlen : (List.length p <= List.length (dict_keys g))%nat).
  { apply NoDup_incl_length; [assumption|]. eapply percorso_incl; eauto. }
  rewrite <- Htopo, topologia_keys in Hlen.
  unfold dict_keys in Hlen. rewrite length_map in Hlen. lia.
Qed.
End Inoltro.

Lemma punto_fisso_raggiunto_inoltro nodi0 s s' :
  rete_valida nodi0 -> costi_non_negativi nodi0 ->
  fortemente_connesso (topologia nodi0) ->
  raggiungibile nodi0 s -> esegui_round s = (s', Fatto 0%nat) ->
  inoltro_ottimo (topologia nodi0) s'.
Proof.
  intros Hval Hcosti Hconn Hs Hr u d Hu Hd.
  destruct (punto_fisso_raggiunto_ottimo _ _ _ Hval Hcosti Hconn Hs Hr u d Hu Hd)
    as (h & x & Hv & Hmin & _).
  destruct (esegui_round_zero _ _ Hr) as (-> & Hstab).
  destruct (raggiungibile_ordinato _ _ Hval Hcosti Hs) as (rk & Hord).
  destruct (punto_fisso_instrada (topologia nodi0) s rk
              (raggiungibile_valida _ _ Hval Hs)
              (raggiungibile_topologia _ _ Hs)
              (raggiungibile_inv_grafo _ Hval Hcosti s Hs)
              Hord Hstab u d h x Hu Hv) as (p & Hp & Hperc).
  exists p, x. auto.
Qed.

(** ** The network of [main] *)

Lemma rete_main_valida : rete_valida rete_main.
Proof.
  constructor.
  - simpl. repeat constructor; simpl; intuition discriminate.
  - intros k n H. simpl in H.
    repeat destruct H as [H|H]; try contradiction; inversion H; reflexivity.
  - intros k n v c H Hv. simpl in H.
    repeat destruct H as [H|H]; try contradiction; inversion H; subst;
      simpl in Hv;
      repeat match type of Hv with
             | (if String.eqb v ?w then _ else _) = _ =>
                 destruct (String.eqb_spec v w) as [->|?]
             end; try discriminate;
      (eexists; split; [reflexivity | reflexivity]).
Qed.

Lemma rete_main_costi : costi_non_negativi rete_main.
Proof.
  intros k n v c H Hv. simpl in H.
  repeat destruct H as [H|H]; try contradiction; inversion H; subst;
    simpl in Hv;
    repeat match type of Hv with
           | (if String.eqb v ?w then _ else _) = _ =>
               destruct (String.eqb v w)
           end; inversion Hv; lia.
Qed.

Lemma arco_main_AB : arco (topologia rete_main) "A" "B" 1.
Proof. eexists; split; reflexivity. Qed.
Lemma arco_main_BA : arco (topologia rete_main) "B" "A" 1.
Proof. eexists; split; reflexivity. Qed.
Lemma arco_main_BC : arco (topologia rete_main) "B" "C" 2.
Proof. eexists; split; reflexivity. Qed.
Lemma arco_main_CB : arco (topologia rete_main) "C" "B" 2.
Proof. eexists; split; reflexivity. Qed.
Lemma arco_main_CD : arco (topologia rete_main) "C" "D" 1.
Proof. eexists; split; reflexivity. Qed.
Lemma arco_main_DC : arco (topologia rete_main) "D" "C" 1.
Proof. eexists; split; reflexivity. Qed.

Lemma rete_main_connessa : fortemente_connesso (topologia rete_main).
Proof.
  assert (Hnodo : forall u, In u (dict_keys (topologia rete_main)) ->
                            cammino (topologia rete_main) u u 0)
    by (intros; now constructor).
  intros u d Hu Hd. pose proof (Hnodo d Hd) as Hfermo.
  simpl in Hu, Hd.
  destruct Hu as [<-|[<-|[<-|[<-|[]]]]];
    destruct Hd as [<-|[<-|[<-|[<-|[]]]]];
    eexists;
    eauto 8 using cammino_passo, arco_main_AB, arco_main_BA, arco_main_BC,
      arco_main_CB, arco_main_CD, arco_main_DC.
Qed.

(** C1. For a well-formed network with non-negative costs whose graph is
    strongly connected, the tables [simula] leaves when it stops on a round
    without updates give, for every node and destination, the cost of a
    shortest walk and a next hop that starts a shortest walk, and forwarding
    hop by hop along these tables follows a shortest walk to the
    destination; and when every link cost can be converted to a [float]
    (so that no addition of a cost to [inf] raises [OverflowError]),
    [simula] does stop on such a round, after at most [max 1 (n - 1)]
    rounds for [n] nodes, whenever [max_iter] allows that many. For the
    network of [main] the run stops at round 3 (for the
    default and for every bound of at least 3), with A->A=0, A->B=1, A->C=3
    via B, A->D=4 via B, B->D=3 via C and C->D=1 direct. *)
Theorem simula_cammini_minimi :
  (forall nodi,
     rete_valida nodi -> costi_non_negativi nodi ->
     fortemente_connesso (topologia nodi) ->
     (forall max_iter k,
        fine (simula nodi max_iter) = UscitaBreak k ->
        tabelle_ottime (topologia nodi) (finale (simula nodi max_iter)) /\
        inoltro_ottimo (topologia nodi) (finale (simula nodi max_iter))) /\
     (costi_rappresentabili nodi ->
      forall max_iter,
        (1 <= max_iter)%nat -> (List.length nodi <= S max_iter)%nat ->
        exists k,
          (1 <= k <= Nat.max 1 (List.length nodi - 1))%nat /\
          fine (simula nodi max_iter) = UscitaBreak k /\
          tabelle_ottime (topologia nodi) (finale (simula nodi max_iter)))) /\
  (let c := simula rete_main max_iter_default in
   fine c = UscitaBreak 3 /\
   voce_di (finale c) "A" "A" = Some (Some "A", Fin 0) /\
   voce_di (finale c) "A" "B" = Some (Some "B", Fin 1) /\
   voce_di (finale c) "A" "C" = Some (Some "B", Fin 3) /\
   voce_di (finale c) "A" "D" = Some (Some "B", Fin 4) /\
   voce_di (finale c) "B" "D" = Some (Some "C", Fin 3) /\
   voce_di (finale c) "C" "D" = Some (Some "D", Fin 1) /\
   instrada (finale c) 4 "A" "D" = Some ["A"; "B"; "C"; "D"]) /\
  (forall max_iter, (3 <= max_iter)%nat ->
     fine (simula rete_main max_iter) = UscitaBreak 3 /\
     finale (simula rete_main max_iter) =
     finale (simula rete_main max_iter_default)).
Proof.
  split; [|split].
  - intros nodi Hval Hcosti Hconn.
    assert (Hott : forall max_iter k,
      fine (simula nodi max_iter) = UscitaBreak k ->
      tabelle_ottime (topologia nodi) (finale (simula nodi max_iter)) /\
      inoltro_ottimo (topologia nodi) (finale (simula nodi max_iter))).
    { intros max_iter k Hk.
      destruct (ciclo_break _ _ _ _ Hk) as (s1 & Hev & Hr). split.
      - eapply punto_fisso_raggiunto_ottimo; eauto.
      - eapply punto_fisso_raggiunto_inoltro; eauto. }
    split; [exact Hott|].
    intros Hrap max_iter H1 Hlen.
    destruct (simula_converge nodi max_iter Hval Hcosti Hrap H1 Hlen)
      as (k & Hk & Hb).
    exists k. split; [assumption|]. split; [assumption|].
    now apply (Hott max_iter k).
  - vm_compute. repeat split.
  - intros max_iter Hm.
    destruct max_iter as [|[|[|m]]]; try lia.
    split; vm_compute; reflexivity.
Qed.

Lemma simula_rete_main_ottima :
  fine (simula rete_main max_iter_default) = UscitaBreak 3 /\
  tabelle_ottime (topologia rete_main)
                 (finale (simula rete_main max_iter_default)) /\
  inoltro_ottimo (topologia rete_main)
                 (finale (simula rete_main max_iter_default)).
Proof.
  assert (H : fine (simula rete_main max_iter_default) = UscitaBreak 3)
    by (vm_compute; reflexivity).
  split; [exact H|].
  exact (proj1 (proj1 simula_cammini_minimi rete_main rete_main_valida
                  rete_main_costi rete_main_connessa) max_iter_default 3%nat H).
Defined.

(** ** The statements on concrete inputs *)


(** C10 as stated fails: the vector [("C", 2); ("X", 0)] sent by B makes
    node A raise [KeyError "X"], and by then the entry for C has already
    been replaced. *)
Lemma aggiorna_tabella_fallisce_dopo_modifica :
  ~ In "X" (dict_keys (tabella_routing nodo_esempio)) /\
  dict_get "C" (tabella_routing nodo_esempio) = Some (None, Inf) /\
  exists n',
    aggiorna_tabella nodo_esempio "B" vettore_esempio =
      (n', Solleva (KeyError "X")) /\
    dict_get "C" (tabella_routing n') = Some (Some "B", Fin 3) /\
    tabella_routing n' <> tabella_routing nodo_esempio.
Proof.
  split; [simpl; intuition discriminate|].
  split; [reflexivity|].
  eexists. split; [vm_compute; reflexivity|].
  split; [reflexivity | vm_compute; discriminate].
Qed.

Lemma aggiorna_tabella_spec_main :
  dict_get "B" (vicini nodo_A_main) = Some 1 /\
  NoDup (dict_keys vettore_B_main) /\
  (forall d, In d (dict_keys vettore_B_main) ->
             In d (dict_keys (tabella_routing nodo_A_main))) /\
  senza_overflow 1 vettore_B_main /\
  exists self' b,
    aggiorna_tabella nodo_A_main "B" vettore_B_main = (self', Fatto b) /\
    dict_keys (tabella_routing self') =
    dict_keys (tabella_routing nodo_A_main) /\
    (b = true <->
     exists d, dict_get d (tabella_routing self') <>
               dict_get d (tabella_routing nodo_A_main)).
Proof.
  assert (H1 : dict_get "B" (vicini nodo_A_main) = Some 1) by reflexivity.
  assert (H2 : NoDup (dict_keys vettore_B_main)).
  { simpl. repeat constructor; simpl; intuition discriminate. }
  assert (H3 : forall d, In d (dict_keys vettore_B_main) ->
                         In d (dict_keys (tabella_routing nodo_A_main))).
  { intros d Hd. exact Hd. }
  assert (H4 : senza_overflow 1 vettore_B_main).
  { apply convertibile_senza_overflow. vm_compute. reflexivity. }
  split; [exact H1|]. split; [exact H2|]. split; [exact H3|].
  split; [exact H4|].
  destruct (aggiorna_tabella_spec nodo_A_main "B" vettore_B_main 1 H1 H2 H3 H4)
    as (self' & b & Ha & _ & _ & Hk & _ & Hb).
  exists self', b. split; [exact Ha|]. split; [exact Hk | exact Hb].
Defined.

Lemma inizializza_tabella_spec_main :
  dict_get "A" (tabella_routing nodo_A_main) = Some (Some "A", Fin 0) /\
  dict_get "C" (tabella_routing nodo_A_main) = Some (Some "C", Fin 4) /\
  dict_get "D" (tabella_routing nodo_A_main) = Some (None, Inf).
Proof.
  destruct (inizializza_tabella_spec (nodo_main "A" [("B", 1); ("C", 4)])
              ["A"; "B"; "C"; "D"]) as (_ & _ & _ & _ & H).
  split; [|split].
  - destruct (H "A") as (HA & _); [simpl; tauto|]. now apply HA.
  - destruct (H "C") as (_ & HC & _); [simpl; tauto|].
    apply HC; [discriminate | reflexivity].
  - destruct (H "D") as (_ & _ & HD); [simpl; tauto|].
    apply HD; [discriminate | reflexivity].
Defined.

Lemma round_doppio_buffer_main :
  NoDup (dict_keys (inizializza_tutti rete_main)) /\
  forall nodi' a,
    esegui_round (inizializza_tutti rete_main) = (nodi', Fatto a) <->
    passo_sincrono (inizializza_tutti rete_main) = Some (nodi', a).
Proof.
  assert (H : NoDup (dict_keys (inizializza_tutti rete_main))).
  { simpl. repeat constructor; simpl; intuition discriminate. }
  split; [exact H|].
  apply (round_doppio_buffer (inizializza_tutti rete_main) H).
Defined.

Lemma distanze_non_crescenti_main :
  non_crescente (inizializza_tutti rete_main)
                (fst (esegui_round (inizializza_tutti rete_main))).
Proof.
  apply (proj1 distanze_non_crescenti (inizializza_tutti rete_main) _
               (snd (esegui_round (inizializza_tutti rete_main)))).
  apply surjective_pairing.
Defined.

Lemma voce_propria_invariante_main :
  (forall k n, In (k, n) rete_main -> nome n = k) /\
  costi_non_negativi rete_main /\
  forall max_iter s, In s (stati rete_main max_iter) ->
    forall k, In k (dict_keys rete_main) ->
      voce_di s k k = Some (Some k, Fin 0).
Proof.
  split; [exact (rv_nomi _ rete_main_valida)|].
  split; [exact rete_main_costi|].
  exact (proj2 (voce_propria_invariante rete_main
                  (rv_nomi _ rete_main_valida) rete_main_costi)).
Defined.

Lemma punto_fisso_idempotente_main :
  let s := finale (simula rete_main max_iter_default) in
  esegui_round s = (s, Fatto 0%nat) /\
  (s = s /\ esegui_round s = (s, Fatto 0%nat)).
Proof.
  intros s.
  assert (H : esegui_round s = (s, Fatto 0%nat)) by (vm_compute; reflexivity).
  split; [exact H|].
  exact (punto_fisso_idempotente s s H).
Defined.



Lemma aggiorna_tabella_destinazione_ignota_esempio :
  dict_get "B" (vicini nodo_esempio) = Some 1 /\
  senza_overflow 1 vettore_esempio /\
  (exists d, In d (dict_keys vettore_esempio) /\
             ~ In d (dict_keys (tabella_routing nodo_esempio))) /\
  exists self' k,
    aggiorna_tabella nodo_esempio "B" vettore_esempio =
      (self', Solleva (KeyError k)) /\
    ~ In k (dict_keys (tabella_routing nodo_esempio)).
Proof.
  assert (H1 : dict_get "B" (vicini nodo_esempio) = Some 1) by reflexivity.
  assert (H2 : senza_overflow 1 vettore_esempio).
  { apply convertibile_senza_overflow. vm_compute. reflexivity. }
  assert (H : exists d, In d (dict_keys vettore_esempio) /\
                        ~ In d (dict_keys (tabella_routing nodo_esempio))).
  { exists "X". split; [simpl; tauto | simpl; intuition discriminate]. }
  split; [exact H1|]. split; [exact H2|]. split; [exact H|].
  destruct (proj1 (proj2 aggiorna_tabella_destinazione_ignota)
              nodo_esempio "B" vettore_esempio 1 H1 H2 H)
    as (self' & prima & k & s & dopo & b & Ha & _ & Hk & _).
  exists self', k. split; [exact Ha | exact Hk].
Defined.

(** * Further properties of the code *)

(** ** Exporting and updating *)

Lemma invia_vettore_get n d :
  dict_get d (invia_vettore n) = option_map snd (dict_get d (tabella_routing n)).
Proof.
  unfold invia_vettore.
  induction (tabella_routing n) as [|[d0 [h0 x0]] resto IH]; simpl; [reflexivity|].
  destruct (String.eqb d d0); [reflexivity | exact IH].
Qed.

Lemma dist_le_ltb_false a b : dist_le a b -> dist_ltb b a = false.
Proof.
  destruct a as [x|], b as [y|]; simpl; try tauto; try reflexivity.
  intros H. apply Z.ltb_ge. exact H.
Qed.

Lemma dist_le_ltb_trans a b c :
  dist_le a b -> dist_ltb b c = true -> dist_ltb a c = true.
Proof.
  destruct a as [x|], b as [y|], c as [z|]; simpl; try discriminate;
    try tauto; try reflexivity.
  rewrite !Z.ltb_lt. lia.
Qed.

Lemma dist_min_comm_assoc a b c :
  dist_min a (dist_min b c) = dist_min b (dist_min a c).
Proof.
  unfold dist_min.
  destruct a as [x|], b as [y|], c as [z|]; simpl; try reflexivity;
    repeat match goal with
           | |- context [?p <? ?q] => destruct (Z.ltb_spec p q); simpl
           end; try reflexivity; try (f_equal; lia); try lia.
Qed.

(** The distances a node holds after a successful call: the smaller of the
    stored one and the candidate. *)
Lemma aggiorna_tabella_distanze self mittente vett costo :
  dict_get mittente (vicini self) = Some costo ->
  NoDup (dict_keys vett) ->
  (forall d, In d (dict_keys vett) -> In d (dict_keys (tabella_routing self))) ->
  senza_overflow costo vett ->
  exists self' b,
    aggiorna_tabella self mittente vett = (self', Fatto b) /\
    vicini self' = vicini self /\
    dict_keys (tabella_routing self') = dict_keys (tabella_routing self) /\
    forall d cur, dict_get d (invia_vettore self) = Some cur ->
      dict_get d (invia_vettore self') =
      Some (match dict_get d vett with
            | Some s => dist_min (candidato costo s) cur
            | None => cur
            end).
Proof.
  intros Hc Hnd Hsub Hov.
  destruct (aggiorna_ciclo_fatto mittente costo vett (tabella_routing self)
              false Hsub Hov) as (tab' & b & Hl).
  exists (con_tabella self tab'), b.
  split; [now apply (aggiorna_tabella_ciclo _ _ _ costo)|].
  split; [reflexivity|].
  split; [simpl; eapply aggiorna_ciclo_keys; eauto|].
  destruct (aggiorna_ciclo_esatto _ _ _ _ _ _ _ Hnd Hl) as (Hent & _).
  intros d cur Hd. rewrite invia_vettore_get in *. simpl.
  destruct (dict_get d (tabella_routing self)) as [[h x]|] eqn:Hg;
    [|discriminate].
  simpl in Hd. inversion Hd; subst x.
  rewrite (Hent _ _ _ Hg). simpl.
  destruct (dict_get d vett) as [s|]; [|reflexivity].
  unfold dist_min. now destruct (dist_ltb (candidato costo s) cur).
Qed.

(** What a call that returns has found: the sender among the neighbours,
    every destination of the vector in the table, and a cost that can be
    added to every distance of the vector. *)
Lemma aggiorna_tabella_riuscita self mittente vett self' b :
  aggiorna_tabella self mittente vett = (self', Fatto b) ->
  exists costo,
    dict_get mittente (vicini self) = Some costo /\
    (forall d, In d (dict_keys vett) ->
               In d (dict_keys (tabella_routing self))) /\
    senza_overflow costo vett.
Proof.
  intros Ha. apply aggiorna_tabella_inv in Ha.
  destruct Ha as [(_ & _ & ?)|(costo & tab' & Hm & Hc & _)]; [discriminate|].
  exists costo. split; [assumption|]. split.
  - eapply aggiorna_ciclo_fatto_keys; eauto.
  - eapply aggiorna_ciclo_fatto_somma; eauto.
Qed.

(** X1. When [aggiorna_tabella] returns, for a vector of distinct
    destinations (the keys of a [dict]), the sender is a neighbour and the
    vector the node exports afterwards has the destinations it had; it
    holds, for every destination of the incoming vector, the smaller of
    the distance exported before and the cost of the link to the sender
    plus the distance received, and the distance exported before for every
    other destination. *)
Theorem invia_dopo_aggiorna (self self' : Nodo) (mittente : string)
    (vett : vettore) (b : bool) :
  NoDup (dict_keys vett) ->
  aggiorna_tabella self mittente vett = (self', Fatto b) ->
  exists costo,
    dict_get mittente (vicini self) = Some costo /\
    dict_keys (invia_vettore self') = dict_keys (invia_vettore self) /\
    forall d cur, dict_get d (invia_vettore self) = Some cur ->
      dict_get d (invia_vettore self') =
      Some (match dict_get d vett with
            | Some s => dist_min (dist_add (Fin costo) s) cur
            | None => cur
            end).
Proof.
  intros Hnd Ha.
  destruct (aggiorna_tabella_riuscita _ _ _ _ _ Ha) as (costo & Hc & Hsub & Hov).
  destruct (aggiorna_tabella_distanze _ _ _ _ Hc Hnd Hsub Hov)
    as (self1 & b1 & Ha1 & _ & Hk & Hd).
  rewrite Ha in Ha1. inversion Ha1; subst self1 b1.
  exists costo. split; [assumption|].
  split; [now rewrite !invia_vettore_keys | exact Hd].
Qed.

(** X2. Delivering the same vector from the same sender a second time
    changes nothing and returns [False]. *)
Theorem aggiorna_tabella_idempotente (self self' : Nodo) (mittente : string)
    (vett : vettore) (b : bool) :
  aggiorna_tabella self mittente vett = (self', Fatto b) ->
  aggiorna_tabella self' mittente vett = (self', Fatto false).
Proof.
  intros Ha. apply aggiorna_tabella_inv in Ha.
  destruct Ha as [(_ & _ & ?)|(costo & tab' & Hm & Hc & ->)]; [discriminate|].
  pose proof (aggiorna_ciclo_dopo _ _ _ _ _ _ _ Hc) as Hdopo.
  rewrite (aggiorna_tabella_ciclo (con_tabella self tab') mittente vett costo
             tab' (Fatto false)); [reflexivity | exact Hm |].
  apply aggiorna_ciclo_stabile;
    [|eapply aggiorna_ciclo_fatto_somma; exact Hc].
  intros d s Hin.
  destruct (Hdopo d s Hin) as (h & cur & Hg & Hle).
  exists h, cur. split; [assumption | now apply dist_le_ltb_false].
Qed.

(** X3. When two deliveries to a node succeed one after the other, each
    with a vector of distinct destinations, they succeed in the other
    order too, and the distances the node exports afterwards do not depend
    on the order in which the two vectors arrived. *)
Theorem aggiorna_tabella_ordine (self n1 n12 : Nodo) (m1 m2 : string)
    (v1 v2 : vettore) (a b : bool) :
  NoDup (dict_keys v1) -> NoDup (dict_keys v2) ->
  aggiorna_tabella self m1 v1 = (n1, Fatto a) ->
  aggiorna_tabella n1 m2 v2 = (n12, Fatto b) ->
  exists n2 a' n21 b',
    aggiorna_tabella self m2 v2 = (n2, Fatto a') /\
    aggiorna_tabella n2 m1 v1 = (n21, Fatto b') /\
    forall d, dict_get d (invia_vettore n12) = dict_get d (invia_vettore n21).
Proof.
  intros Hnd1 Hnd2 Ha1 Ha12.
  destruct (aggiorna_tabella_riuscita _ _ _ _ _ Ha1) as (c1 & H1 & Hs1 & Ho1).
  destruct (aggiorna_tabella_riuscita _ _ _ _ _ Ha12) as (c2 & H2 & Hs2 & Ho2).
  pose proof (aggiorna_tabella_nome _ _ _ _ _ Ha1) as (_ & Hv1 & Hk1).
  rewrite Hv1 in H2. rewrite Hk1 in Hs2.
  destruct (aggiorna_tabella_distanze _ _ _ _ H1 Hnd1 Hs1 Ho1)
    as (n1' & a1 & Ha1' & _ & _ & Hd1).
  rewrite Ha1 in Ha1'. inversion Ha1'; subst n1' a1.
  destruct (aggiorna_tabella_distanze _ _ _ _ H2 Hnd2 Hs2 Ho2)
    as (n2 & a' & Ha2 & Hv2 & Hk2 & Hd2).
  destruct (aggiorna_tabella_distanze n1 m2 v2 c2)
    as (n12' & b1 & Ha12' & _ & Hk12 & Hd12);
    [now rewrite Hv1 | assumption | now rewrite Hk1 | assumption |].
  rewrite Ha12 in Ha12'. inversion Ha12'; subst n12' b1.
  destruct (aggiorna_tabella_distanze n2 m1 v1 c1)
    as (n21 & b' & Ha21 & _ & Hk21 & Hd21);
    [now rewrite Hv2 | assumption | now rewrite Hk2 | assumption |].
  exists n2, a', n21, b'.
  split; [assumption|]. split; [assumption|].
  intros d.
  destruct (dict_get d (invia_vettore self)) as [cur|] eqn:Hcur.
  - rewrite (Hd12 d _ (Hd1 d cur Hcur)), (Hd21 d _ (Hd2 d cur Hcur)).
    destruct (dict_get d v1) as [s1|], (dict_get d v2) as [s2|];
      try reflexivity.
    f_equal. apply dist_min_comm_assoc.
  - assert (Hno : forall n, dict_keys (tabella_routing n) =
                            dict_keys (tabella_routing self) ->
                            dict_get d (invia_vettore n) = None).
    { intros n Hk. apply dict_get_None. rewrite invia_vettore_keys, Hk.
      rewrite <- invia_vettore_keys. now apply dict_get_None. }
    rewrite !Hno; congruence.
Qed.

(** ** The entries the code writes, and printing them *)

Lemma voci_regolari_init n tutti :
  voci_regolari (inizializza_tabella n tutti).
Proof.
  assert (Hnd : NoDup (dict_keys (tabella_routing (inizializza_tabella n tutti))))
    by (simpl; apply init_fold_NoDup; constructor).
  split; [assumption|].
  intros d h x Hin.
  assert (Hd : In d tutti).
  { apply (inizializza_keys n). eapply In_dict_keys; eauto. }
  apply (In_dict_get _ _ _ Hnd) in Hin.
  rewrite inizializza_get in Hin by assumption. unfold voce_iniziale in Hin.
  change (nome (inizializza_tabella n tutti)) with (nome n).
  change (vicini (inizializza_tabella n tutti)) with (vicini n).
  destruct (String.eqb d (nome n)).
  - inversion Hin; subst. split; [split; discriminate|].
    intros v E; inversion E; now left.
  - destruct (dict_get d (vicini n)) as [c|] eqn:E; inversion Hin; subst.
    + split; [split; discriminate|].
      intros v Ev; inversion Ev; subst. right. apply dict_get_Some_key. eauto.
    + split; [tauto | discriminate].
Qed.

Lemma voci_regolari_passo n mitt vett n' r :
  voci_regolari n -> aggiorna_tabella n mitt vett = (n', r) ->
  voci_regolari n'.
Proof.
  intros (Hnd & Hreg) Ha.
  pose proof (aggiorna_tabella_nome _ _ _ _ _ Ha) as (Hn & Hv & Hk).
  assert (Hnd' : NoDup (dict_keys (tabella_routing n'))) by now rewrite Hk.
  split; [assumption|].
  intros d h1 x1 Hin. apply (In_dict_get _ _ _ Hnd') in Hin.
  destruct (aggiorna_tabella_voci _ _ _ _ _ Ha _ _ _ Hin)
    as (h0 & x0 & H0 & _ & Hcase).
  rewrite Hn, Hv.
  destruct Hcase as [(E & _)|(-> & _ & costo & s & Hm & _ & -> & Hlt)].
  - inversion E; subst. apply (Hreg d). now apply dict_get_In.
  - destruct (candidato_ltb_Fin _ _ _ Hlt) as (y & ->). simpl.
    split; [split; discriminate|].
    intros v E; inversion E; subst. right. apply dict_get_Some_key. eauto.
Qed.

Lemma raggiungibile_voci_regolari nodi0 s :
  raggiungibile nodi0 s -> forall k n, In (k, n) s -> voci_regolari n.
Proof.
  intros Hs.
  apply (evolve_inv (fun _ n => voci_regolari n) (fun _ => True))
    with (s := inizializza_tutti nodi0); [| |assumption|].
  - intros c n n' r _ HP Ha. eapply voci_regolari_passo; eauto.
  - trivial.
  - intros k n Hin. apply In_inizializza_tutti in Hin.
    destruct Hin as (n0 & _ & ->). apply voci_regolari_init.
Qed.

(** X4. In every state of a run, whatever the network, an entry has the
    distance [inf] exactly when its next hop is [None], a next hop is the
    node itself or one of its neighbours, and a table has one entry per
    destination. *)
Theorem voci_regolari_invariante (nodi0 : rete) :
  (forall s, raggiungibile nodi0 s ->
     forall k n, In (k, n) s -> voci_regolari n) /\
  (forall max_iter s, In s (stati nodi0 max_iter) ->
     forall u d h x, voce_di s u d = Some (h, x) ->
       (x = Inf <-> h = None) /\
       (forall v, h = Some v ->
          exists n, dict_get u s = Some n /\
                    (v = nome n \/ In v (dict_keys (vicini n))))).
Proof.
  split; [apply raggiungibile_voci_regolari|].
  intros max_iter s Hs u d h x Hv. apply stati_raggiungibili in Hs.
  unfold voce_di in Hv. destruct (dict_get u s) as [n|] eqn:Hn; [|discriminate].
  destruct (raggiungibile_voci_regolari _ _ Hs u n (dict_get_In _ _ _ Hn))
    as (_ & Hreg).
  destruct (Hreg d h x (dict_get_In _ _ _ Hv)) as (H1 & H2).
  split; [exact H1|]. intros v E. exists n. auto.
Qed.

Lemma riga_TypeError d v :
  riga_tabella d v = inr TypeError <-> exists x, v = (None, Fin x).
Proof.
  destruct v as [[h|] [x|]]; simpl; split;
    try discriminate; try (intros (y & E); discriminate); eauto.
  destruct (stampabile x); discriminate.
Qed.

Lemma riga_ValueError d v :
  riga_tabella d v = inr ValueError <->
  exists h x, v = (Some h, Fin x) /\ stampabile x = false.
Proof.
  destruct v as [[h|] [x|]]; simpl; split;
    try discriminate; try (intros (h' & y & E & _); discriminate).
  - destruct (stampabile x) eqn:E; [discriminate | eauto].
  - intros (h' & y & E & Hy). inversion E; subst. now rewrite Hy.
Qed.

Lemma riga_riesce d v :
  (exists r, riga_tabella d v = inl r) <->
  (forall x, snd v = Fin x -> fst v <> None /\ stampabile x = true).
Proof.
  destruct v as [[h|] [x|]]; simpl; split.
  - intros (r & Hr) y E. inversion E; subst y.
    split; [discriminate|]. destruct (stampabile x); [reflexivity|discriminate].
  - intros H. destruct (H x eq_refl) as (_ & ->). eauto.
  - discriminate.
  - eauto.
  - intros (r & Hr). discriminate.
  - intros H. destruct (H x eq_refl) as (Hn & _). now destruct Hn.
  - discriminate.
  - eauto.
Qed.

Lemma stampa_righe_riesce tab : forall fatte,
  (forall d v, In (d, v) tab -> exists r, riga_tabella d v = inl r) ->
  exists righe, stampa_righe tab fatte = Stampato (fatte ++ righe) /\
                List.length righe = List.length tab.
Proof.
  induction tab as [|[d v] resto IH]; intros fatte Hok; simpl.
  - exists []. now rewrite app_nil_r.
  - destruct (Hok d v (or_introl eq_refl)) as (r & ->).
    destruct (IH (fatte ++ [r])) as (righe & Hr & Hlen).
    { intros d' v' Hin. apply Hok. now right. }
    exists (r :: righe). rewrite Hr, <- app_assoc. simpl. auto.
Qed.

Lemma stampa_righe_stampato tab : forall fatte righe,
  stampa_righe tab fatte = Stampato righe ->
  forall d v, In (d, v) tab -> exists r, riga_tabella d v = inl r.
Proof.
  induction tab as [|[d0 v0] resto IH]; intros fatte righe; simpl.
  - intros _ d v [].
  - destruct (riga_tabella d0 v0) as [r|e] eqn:E; [|discriminate].
    intros H d v [Eq|Hin]; [inversion Eq; subst; eauto | eapply IH; eauto].
Qed.

Lemma stampa_righe_solleva tab : forall fatte e righe,
  stampa_righe tab fatte = SollevaStampa e righe ->
  exists d v, In (d, v) tab /\ riga_tabella d v = inr e.
Proof.
  induction tab as [|[d0 v0] resto IH]; intros fatte e righe; simpl.
  - discriminate.
  - destruct (riga_tabella d0 v0) as [r|e0] eqn:E.
    + intros H. destruct (IH _ _ _ H) as (d & v & Hin & Hr).
      exists d, v. split; [now right | assumption].
    + intros H; inversion H; subst. exists d0, v0. split; [now left | assumption].
Qed.

Lemma stampa_tutti_solleva s : forall fatte e righe,
  stampa_tutti s fatte = SollevaStampa e righe ->
  exists k n righe', In (k, n) s /\ stampa_tabella n = SollevaStampa e righe'.
Proof.
  induction s as [|[k n] resto IH]; intros fatte e righe; simpl.
  - discriminate.
  - destruct (stampa_tabella n) as [r|e0 r] eqn:E.
    + intros H. destruct (IH _ _ _ H) as (k' & n' & r' & Hin & Hr).
      exists k', n', r'. split; [now right | assumption].
    + intros H; inversion H; subst. exists k, n, r. split; [now left | assumption].
Qed.

Lemma stampa_tutti_riesce s : forall fatte,
  (forall k n, In (k, n) s -> exists righe, stampa_tabella n = Stampato righe) ->
  exists righe, stampa_tutti s fatte = Stampato righe.
Proof.
  induction s as [|[k n] resto IH]; intros fatte Hok; simpl; [eauto|].
  destruct (Hok k n (or_introl eq_refl)) as (righe & ->).
  apply IH. intros k' n' Hin. apply (Hok k'). now right.
Qed.

(** X5. What [stampa_tabella] raises. A table is printed in full, two
    title lines and one row per destination, exactly when every entry with
    a finite distance has a next hop and a distance of at most 4300
    digits; [TypeError] comes from an entry with a finite distance and no
    next hop ([None] has no format [^8]), [ValueError] from a distance of
    more than 4300 digits (the limit of CPython 3.11 on the digits of an
    integer). No state of a run has an entry of the first kind, so the
    printing loop of [simula] never raises [TypeError]; it prints every
    table in full when the finite distances have at most 4300 digits. *)
Theorem stampa_tabella_riesce :
  (forall n,
     ((exists righe, stampa_tabella n = Stampato righe) <->
      (forall d h x, In (d, (h, Fin x)) (tabella_routing n) ->
                     h <> None /\ stampabile x = true)) /\
     (forall righe, stampa_tabella n = SollevaStampa TypeError righe ->
        exists d x, In (d, (None, Fin x)) (tabella_routing n)) /\
     (forall righe, stampa_tabella n = SollevaStampa ValueError righe ->
        exists d h x, In (d, (Some h, Fin x)) (tabella_routing n) /\
                      stampabile x = false)) /\
  (forall nodi0 s, raggiungibile nodi0 s ->
     (forall righe, stampa_tutti s [] <> SollevaStampa TypeError righe) /\
     ((forall k n, In (k, n) s -> distanze_stampabili n) ->
      (exists righe, stampa_tutti s [] = Stampato righe) /\
      forall k n, In (k, n) s ->
        exists righe,
          stampa_tabella n = Stampato righe /\
          List.length righe = (2 + List.length (tabella_routing n))%nat)).
Proof.
  assert (Hok : forall n,
            (forall d h x, In (d, (h, Fin x)) (tabella_routing n) ->
                           h <> None /\ stampabile x = true) ->
            exists righe,
              stampa_tabella n = Stampato righe /\
              List.length righe = (2 + List.length (tabella_routing n))%nat).
  { intros n H.
    destruct (stampa_righe_riesce (tabella_routing n)
                [(a_capo ++ "Tabella di routing del nodo " ++ nome n ++ ":")%string;
                 intestazione_colonne]) as (righe & Hr & Hlen).
    { intros d [h y] Hin. apply riga_riesce. simpl. intros x ->. eauto. }
    unfold stampa_tabella. rewrite Hr. eexists. split; [reflexivity|].
    rewrite length_app. simpl. lia. }
  split.
  - intros n. split; [split|split].
    + intros (righe & Hr) d h x Hin.
      destruct (stampa_righe_stampato _ _ _ Hr d (h, Fin x) Hin) as (r & Hriga).
      apply (proj1 (riga_riesce d (h, Fin x)) (ex_intro _ r Hriga) x eq_refl).
    + intros H. destruct (Hok n H) as (righe & Hr & _). eauto.
    + intros righe Hr. apply stampa_righe_solleva in Hr.
      destruct Hr as (d & v & Hin & Hriga).
      apply riga_TypeError in Hriga. destruct Hriga as (x & ->). eauto.
    + intros righe Hr. apply stampa_righe_solleva in Hr.
      destruct Hr as (d & v & Hin & Hriga).
      apply riga_ValueError in Hriga. destruct Hriga as (h & x & -> & Hx).
      eauto.
  - intros nodi0 s Hs.
    pose proof (raggiungibile_voci_regolari _ _ Hs) as Hreg.
    assert (Hhop : forall k n, In (k, n) s ->
              forall d h x, In (d, (h, Fin x)) (tabella_routing n) ->
                            h <> None).
    { intros k n Hin d h x Hd ->.
      destruct (Hreg k n Hin) as (_ & Hr).
      destruct (Hr d None (Fin x) Hd) as ((_ & H) & _).
      specialize (H eq_refl). discriminate. }
    split.
    + intros righe Hr. apply stampa_tutti_solleva in Hr.
      destruct Hr as (k & n & righe' & Hin & Hr).
      apply stampa_righe_solleva in Hr. destruct Hr as (d & v & Hd & Hriga).
      apply riga_TypeError in Hriga. destruct Hriga as (x & ->).
      now apply (Hhop k n Hin d None x Hd).
    + intros Hst.
      assert (Hall : forall k n, In (k, n) s ->
                exists righe,
                  stampa_tabella n = Stampato righe /\
                  List.length righe = (2 + List.length (tabella_routing n))%nat).
      { intros k n Hin. apply Hok. intros d h x Hd.
        split; [eapply Hhop; eauto | eapply Hst; eauto]. }
      split; [|exact Hall].
      apply stampa_tutti_riesce. intros k n Hin.
      destruct (Hall k n Hin) as (righe & Hr & _). eauto.
Qed.

Lemma string_length_append (a b : string) :
  String.length (a ++ b)%string = (String.length a + String.length b)%nat.
Proof. induction a as [|c a IH]; simpl; [reflexivity | now rewrite IH]. Qed.

Lemma string_append_assoc (a b c : string) :
  ((a ++ b) ++ c = a ++ (b ++ c))%string.
Proof. induction a as [|x a IH]; simpl; [reflexivity | now rewrite IH]. Qed.

Lemma length_spazi n : String.length (spazi n) = n.
Proof. induction n as [|n IH]; simpl; [reflexivity | now rewrite IH]. Qed.

Lemma get_spazi n : forall i c,
  String.get i (spazi n) = Some c -> c = Ascii.ascii_of_nat 32.
Proof.
  induction n as [|n IH]; intros i c; simpl; [discriminate|].
  destruct i as [|i]; [intros H; now inversion H | apply IH].
Qed.

Lemma centra_centrato w t :
  exists l r, centra w t = (spazi l ++ t ++ spazi r)%string /\
              centrato w t l r.
Proof.
  unfold centra, centrato.
  exists ((w - String.length t) / 2)%nat,
         (w - String.length t - (w - String.length t) / 2)%nat.
  split; [reflexivity|].
  pose proof (Nat.div_mod_eq (w - String.length t) 2) as Hdm.
  pose proof (Nat.mod_upper_bound (w - String.length t) 2) as Hmod.
  lia.
Qed.

Lemma campi_riga a b c :
  riga_di_campi (centra 12 a ++ " | " ++ centra 8 b ++ " | " ++ centra 8 c) a b c.
Proof.
  destruct (centra_centrato 12 a) as (l1 & r1 & E1 & H1).
  destruct (centra_centrato 8 b) as (l2 & r2 & E2 & H2).
  destruct (centra_centrato 8 c) as (l3 & r3 & E3 & H3).
  exists l1, r1, l2, r2, l3, r3. rewrite E1, E2, E3.
  split; [|auto].
  rewrite !string_append_assoc. reflexivity.
Qed.

Lemma riga_di_campi_lunghezza r a b c :
  riga_di_campi r a b c ->
  (String.length a <= 12)%nat -> (String.length b <= 8)%nat ->
  (String.length c <= 8)%nat ->
  String.length r = String.length intestazione_colonne.
Proof.
  intros (l1 & r1 & l2 & r2 & l3 & r3 & -> & (H1 & _) & (H2 & _) & (H3 & _))
         Ha Hb Hc.
  assert (Hsep : String.length " | " = 3%nat) by reflexivity.
  assert (Hint : String.length intestazione_colonne = 34%nat) by reflexivity.
  rewrite !string_length_append, !length_spazi, Hsep, Hint. lia.
Qed.

(** X6. A row that [stampa_tabella] prints is the destination, the next
    hop and the digits of the distance (["--"] and ["INF"] for the
    distance [inf]), in this order, joined by [" | "] like the column
    header. Each text is whole and stands between spaces only, in the
    middle of a field of 12, 8 and 8 characters with the odd space on its
    right; a longer text is not cut and has no padding. A row whose texts
    fit their fields is as long as the header and lines up with it. *)
Theorem riga_tabella_allineata :
  (forall n, String.length (spazi n) = n /\
             forall i c, String.get i (spazi n) = Some c ->
                         c = Ascii.ascii_of_nat 32) /\
  (forall destinazione v r,
     riga_tabella destinazione v = inl r ->
     match v with
     | (Some h, Fin x) => riga_di_campi r destinazione h (decimale x)
     | (None, Fin _) => False
     | (_, Inf) => riga_di_campi r destinazione "--" "INF"
     end) /\
  (forall r a b c,
     riga_di_campi r a b c ->
     (String.length a <= 12)%nat -> (String.length b <= 8)%nat ->
     (String.length c <= 8)%nat ->
     String.length r = String.length intestazione_colonne).
Proof.
  split; [|split].
  - intros n. split; [apply length_spazi | apply get_spazi].
  - intros destinazione [[h|] [x|]] r; unfold riga_tabella, separatore;
      intros E.
    + destruct (stampabile x); [|discriminate].
      assert (Hr : r = (centra 12 destinazione ++ " | " ++ centra 8 h ++
                        " | " ++ centra 8 (decimale x))%string) by congruence.
      subst r. apply campi_riga.
    + assert (Hr : r = (centra 12 destinazione ++ " | " ++ centra 8 "--" ++
                        " | " ++ centra 8 "INF")%string) by congruence.
      subst r. apply campi_riga.
    + discriminate.
    + assert (Hr : r = (centra 12 destinazione ++ " | " ++ centra 8 "--" ++
                        " | " ++ centra 8 "INF")%string) by congruence.
      subst r. apply campi_riga.
  - apply riga_di_campi_lunghezza.
Qed.

(** ** When [simula] raises *)

Lemma forallb_false {A} (f : A -> bool) l :
  forallb f l = false -> exists x, In x l /\ f x = false.
Proof.
  induction l as [|a l IH]; simpl; [discriminate|].
  destruct (f a) eqn:E; simpl.
  - intros H. destruct (IH H) as (x & Hx & Hf). eauto.
  - intros _. eauto.
Qed.

Lemma adiacenza_chiusa_topologia a b :
  topologia a = topologia b -> adiacenza_chiusa a = adiacenza_chiusa b.
Proof. unfold adiacenza_chiusa. now intros ->. Qed.

Lemma adiacenza_chiusa_vera s :
  adiacenza_chiusa s = true ->
  forall k n v, In (k, n) s -> In v (dict_keys (vicini n)) ->
    exists m, dict_get v s = Some m /\ dict_mem k (vicini m) = true.
Proof.
  unfold adiacenza_chiusa. rewrite forallb_forall. intros H k n v Hin Hv.
  assert (Hk : In (k, vicini n) (topologia s)) by (apply In_topologia; eauto).
  specialize (H _ Hk). simpl in H. rewrite forallb_forall in H.
  specialize (H v Hv). unfold vicino_ammesso in H.
  rewrite topologia_get in H.
  destruct (dict_get v s) as [m|]; [|discriminate]. eauto.
Qed.

Lemma adiacenza_chiusa_falsa s :
  adiacenza_chiusa s = false ->
  exists k n v, In (k, n) s /\ In v (dict_keys (vicini n)) /\
    (dict_get v s = None \/
     exists m, dict_get v s = Some m /\ dict_get k (vicini m) = None).
Proof.
  unfold adiacenza_chiusa. intros H.
  apply forallb_false in H. destruct H as ([k vs] & Hk & H).
  apply forallb_false in H. destruct H as (v & Hv & H).
  apply In_topologia in Hk. destruct Hk as (n & Hin & <-).
  exists k, n, v. split; [assumption|]. split; [assumption|].
  unfold vicino_ammesso in H. rewrite topologia_get in H.
  destruct (dict_get v s) as [m|]; [|now left].
  right. exists m. split; [reflexivity|]. simpl in H. unfold dict_mem in H.
  now destruct (dict_get k (vicini m)).
Qed.

(** A call that cannot be made: the receiver is not a node, or does not
    list the sender. *)
Lemma applica_solleva_se cs : forall nodi agg c,
  In c cs ->
  (dict_get (i_dest c) nodi = None \/
   exists n, dict_get (i_dest c) nodi = Some n /\
             dict_get (i_mitt c) (vicini n) = None) ->
  exists nodi' e, applica cs nodi agg = (nodi', Solleva e).
Proof.
  induction cs as [|c0 cs IH]; intros nodi agg c Hin Hbad; [destruct Hin|].
  rewrite applica_cons.
  destruct (dict_get (i_dest c0) nodi) as [n0|] eqn:E; [|eauto].
  destruct (aggiorna_tabella n0 (i_mitt c0) (i_vett c0)) as [n1 [b|e]] eqn:Ea;
    [|eauto].
  pose proof (aggiorna_tabella_nome _ _ _ _ _ Ea) as (_ & Hv & _).
  destruct Hin as [<-|Hin].
  - exfalso. destruct Hbad as [Hn|(n & Hn & Hm)]; [congruence|].
    rewrite E in Hn. inversion Hn; subst n.
    apply aggiorna_tabella_inv in Ea.
    destruct Ea as [(_ & _ & ?)|(costo & _ & Hc & _)]; congruence.
  - apply (IH _ _ c Hin). rewrite dict_get_set.
    destruct (String.eqb_spec (i_dest c) (i_dest c0)) as [Eq|Hne].
    + right. exists n1. split; [reflexivity|]. rewrite Hv.
      destruct Hbad as [Hn|(n & Hn & Hm)]; [congruence|].
      rewrite Eq, E in Hn. now inversion Hn; subst.
    + exact Hbad.
Qed.

Lemma causa_invio_set nodi k0 n0 n1 c e :
  dict_get k0 nodi = Some n0 -> vicini n1 = vicini n0 ->
  causa_invio (dict_set k0 n1 nodi) c e -> causa_invio nodi c e.
Proof.
  intros Hk Hv. unfold causa_invio. rewrite dict_get_set.
  destruct (String.eqb_spec (i_dest c) k0) as [Eq|Hne]; [|tauto].
  intros [(_ & ?)|(n & Hn & Hcase)]; [discriminate|].
  inversion Hn; subst n. right. exists n0. rewrite Eq, <- Hv. auto.
Qed.

Lemma causa_invio_topologia a b c e :
  topologia a = topologia b -> causa_invio a c e -> causa_invio b c e.
Proof.
  intros Ht. unfold causa_invio.
  pose proof (topologia_get a (i_dest c)) as Ha.
  rewrite Ht, topologia_get in Ha.
  intros [(He & Hn)|(n & Hn & Hcase)]; rewrite Hn in Ha.
  - left. split; [assumption|]. now destruct (dict_get (i_dest c) b).
  - right. destruct (dict_get (i_dest c) b) as [n'|]; [|discriminate].
    inversion Ha as [Hv]. exists n'. rewrite Hv. auto.
Qed.

Lemma causa_round_topologia a b e :
  topologia a = topologia b -> causa_round a e -> causa_round b e.
Proof.
  intros Ht (k & n & v & Hin & Hv & Hc).
  assert (H0 : In (k, vicini n) (topologia b)).
  { rewrite <- Ht. apply In_topologia. eauto. }
  apply In_topologia in H0. destruct H0 as (n' & Hin' & Hv').
  exists k, n', v. split; [assumption|]. split; [now rewrite Hv'|].
  apply (causa_invio_topologia _ _ _ _ Ht) in Hc. exact Hc.
Qed.

(** A [KeyError] is the sign of a neighbour that is missing or does not
    list the node back. *)
Lemma causa_round_aperta s k :
  causa_round s (KeyError k) -> adiacenza_chiusa s = false.
Proof.
  intros (u & n & v & Hin & Hv & Hc).
  destruct (adiacenza_chiusa s) eqn:Hch; [exfalso | reflexivity].
  destruct (adiacenza_chiusa_vera s Hch u n v Hin Hv) as (m & Hm & Hmem).
  apply dict_mem_true, dict_get_Some_key in Hmem. destruct Hmem as (c0 & Hc0).
  unfold causa_invio in Hc. simpl in Hc.
  destruct Hc as [(_ & Hn)|(m' & Hm' & [(_ & Hn)|(? & _)])];
    [congruence | | discriminate].
  rewrite Hm in Hm'. inversion Hm'; subst m'. congruence.
Qed.

(** An [OverflowError] is the sign of a cost that no [float] holds. *)
Lemma causa_round_rappresentabili s :
  costi_rappresentabili s -> ~ causa_round s OverflowError.
Proof.
  intros Hrap (u & n & v & Hin & Hv & Hc).
  unfold causa_invio in Hc. simpl in Hc.
  destruct Hc as [(? & _)|(m & Hm & [(? & _)|(_ & costo & Hcosto & Hconv)])];
    try discriminate.
  rewrite (Hrap _ _ _ _ (dict_get_In _ _ _ Hm) Hcosto) in Hconv. discriminate.
Qed.

(** With tables that cover the vectors, the exception of a round is that
    of a call that cannot be made or whose addition cannot be done. *)
Lemma applica_solleva_causa cs : forall nodi agg nodi' e,
  (forall k n, In (k, n) nodi ->
     forall d, In d (dict_keys (tabella_routing n)) <-> In d (dict_keys nodi)) ->
  (forall c, In c cs ->
     forall d, In d (dict_keys (i_vett c)) -> In d (dict_keys nodi)) ->
  applica cs nodi agg = (nodi', Solleva e) ->
  exists c, In c cs /\ causa_invio nodi c e.
Proof.
  induction cs as [|c0 cs IH]; intros nodi agg nodi' e Htab Hvett;
    [discriminate|].
  rewrite applica_cons.
  destruct (dict_get (i_dest c0) nodi) as [n0|] eqn:E.
  - destruct (aggiorna_tabella n0 (i_mitt c0) (i_vett c0)) as [n1 [b|e1]] eqn:Ea.
    + intros H.
      pose proof (aggiorna_tabella_nome _ _ _ _ _ Ea) as (_ & Hv & Hk).
      pose proof (dict_keys_set_present (i_dest c0) n1 n0 nodi E) as Hkeys.
      assert (Htab1 : forall k n, In (k, n) (dict_set (i_dest c0) n1 nodi) ->
                forall d, In d (dict_keys (tabella_routing n)) <->
                          In d (dict_keys (dict_set (i_dest c0) n1 nodi))).
      { intros k m Hin d. rewrite Hkeys. apply In_dict_set in Hin.
        destruct Hin as [[-> ->]|Hin]; [|now apply (Htab k m)].
        rewrite Hk. apply (Htab _ _ (dict_get_In _ _ _ E)). }
      assert (Hvett1 : forall c, In c cs -> forall d,
                In d (dict_keys (i_vett c)) ->
                In d (dict_keys (dict_set (i_dest c0) n1 nodi))).
      { intros c Hc d Hd. rewrite Hkeys. apply (Hvett c); [now right | auto]. }
      destruct (IH _ _ _ _ Htab1 Hvett1 H) as (c & Hin & Hcause).
      exists c. split; [now right|].
      eapply causa_invio_set; eauto.
    + intros H; inversion H; subst. exists c0. split; [now left|].
      right. exists n0. split; [assumption|].
      apply aggiorna_tabella_inv in Ea.
      destruct Ea as [(Hm & _ & He)|(costo & tab' & Hm & Hc & _)].
      * inversion He; subst. now left.
      * destruct (aggiorna_ciclo_solleva _ _ _ _ _ _ _ Hc)
          as (prima & k & s & dopo & m' & Hvv & Hcausa & _).
        destruct Hcausa as [(Hs & He)|(_ & Hk & _)].
        -- right. split; [assumption|]. exists costo. split; [assumption|].
           destruct s as [y|]; [discriminate | exact Hs].
        -- exfalso. apply dict_get_None in Hk. apply Hk.
           apply (Htab _ _ (dict_get_In _ _ _ E)).
           apply (Hvett c0 (or_introl eq_refl)).
           rewrite Hvv. unfold dict_keys. rewrite map_app. apply in_or_app.
           right. now left.
  - intros H; inversion H; subst. exists c0. split; [now left|]. now left.
Qed.

(** The calls of a round that has completed were all possible. *)
Lemma applica_riuscite cs : forall nodi agg nodi' a,
  applica cs nodi agg = (nodi', Fatto a) ->
  forall c, In c cs ->
    exists n costo, dict_get (i_dest c) nodi = Some n /\
                    dict_get (i_mitt c) (vicini n) = Some costo /\
                    senza_overflow costo (i_vett c).
Proof.
  induction cs as [|c0 cs IH]; intros nodi agg nodi' a; [intros _ c []|].
  rewrite applica_cons.
  destruct (dict_get (i_dest c0) nodi) as [n0|] eqn:E; [|discriminate].
  destruct (aggiorna_tabella n0 (i_mitt c0) (i_vett c0)) as [n1 [b|e]] eqn:Ea;
    [|discriminate].
  intros H c [<-|Hin].
  - destruct (aggiorna_tabella_riuscita _ _ _ _ _ Ea) as (costo & Hc & _ & Hov).
    exists n0, costo. auto.
  - destruct (IH _ _ _ _ H c Hin) as (n & costo & Hn & Hcosto & Hov).
    pose proof (aggiorna_tabella_nome _ _ _ _ _ Ea) as (_ & Hv & _).
    rewrite dict_get_set in Hn.
    destruct (String.eqb_spec (i_dest c) (i_dest c0)) as [Eq|Hne].
    + inversion Hn; subst n. exists n0, costo. rewrite Eq, <- Hv. auto.
    + exists n, costo. auto.
Qed.

(** Every node of the state a list of calls leaves comes from a node of
    the state it started from, with the same neighbours and no larger
    distance. *)
Lemma applica_indietro cs : forall nodi agg nodi' r,
  applica cs nodi agg = (nodi', r) ->
  forall k n', In (k, n') nodi' ->
    exists n, In (k, n) nodi /\ nodo_non_crescente n n'.
Proof.
  induction cs as [|c cs IH]; intros nodi agg nodi' r.
  - simpl. intros H k n' Hin; inversion H; subst.
    exists n'. split; [assumption | apply nodo_non_crescente_refl].
  - rewrite applica_cons.
    destruct (dict_get (i_dest c) nodi) as [n0|] eqn:E.
    + destruct (aggiorna_tabella n0 (i_mitt c) (i_vett c)) as [n1 r1] eqn:Ea.
      assert (Hstep : forall k n', In (k, n') (dict_set (i_dest c) n1 nodi) ->
                exists n, In (k, n) nodi /\ nodo_non_crescente n n').
      { intros k n' Hin. apply In_dict_set in Hin.
        destruct Hin as [[-> ->]|Hin].
        - exists n0. split; [now apply dict_get_In|].
          eapply nodo_non_crescente_passo; eauto.
        - exists n'. split; [assumption | apply nodo_non_crescente_refl]. }
      destruct r1 as [b|e].
      * intros H k n' Hin.
        destruct (IH _ _ _ _ H k n' Hin) as (n1' & Hin1 & HR1).
        destruct (Hstep k n1' Hin1) as (n & Hin0 & HR0).
        exists n. split; [assumption|].
        eapply nodo_non_crescente_trans; eauto.
      * intros H; inversion H; subst. exact Hstep.
    + intros H k n' Hin; inversion H; subst.
      exists n'. split; [assumption | apply nodo_non_crescente_refl].
Qed.

Section TabelleComplete.
Variable s : rete.
Hypothesis Htab : forall k n, In (k, n) s ->
  forall d, In d (dict_keys (tabella_routing n)) <-> In d (dict_keys s).

Lemma invii_coperti c :
  In c (invii s) -> forall d, In d (dict_keys (i_vett c)) -> In d (dict_keys s).
Proof.
  intros Hc d. apply In_invii in Hc. destruct Hc as (k & n & Hin & _ & -> & _).
  rewrite invia_vettore_keys. apply (Htab k n Hin).
Qed.

Lemma esegui_round_fatto_chiusa :
  adiacenza_chiusa s = true -> costi_rappresentabili s ->
  exists s' a, esegui_round s = (s', Fatto a).
Proof.
  intros Hch Hrap. rewrite esegui_round_applica.
  apply applica_fatto; [exact Htab|].
  intros c Hc. pose proof (invii_coperti c Hc) as Hd.
  apply In_invii in Hc. destruct Hc as (k & n & Hin & Hm & _ & Hv).
  destruct (adiacenza_chiusa_vera s Hch k n _ Hin Hv) as (m & Hgm & Hmem).
  exists m. rewrite Hm. split; [assumption|]. split; [assumption|].
  split; [|assumption].
  intros costo Hcosto. apply convertibile_senza_overflow.
  apply (Hrap _ _ _ _ (dict_get_In _ _ _ Hgm) Hcosto).
Qed.

Lemma esegui_round_solleva_aperta :
  adiacenza_chiusa s = false ->
  exists s' e, esegui_round s = (s', Solleva e).
Proof.
  intros Hap. apply adiacenza_chiusa_falsa in Hap.
  destruct Hap as (k & n & v & Hin & Hv & Hbad).
  rewrite esegui_round_applica.
  apply (applica_solleva_se (invii s) s 0%nat (mkInvio k (invia_vettore n) v)).
  - apply In_invii. exists k, n. simpl. auto.
  - exact Hbad.
Qed.

Lemma esegui_round_causa s' e :
  esegui_round s = (s', Solleva e) -> causa_round s e.
Proof.
  rewrite esegui_round_applica. intros Hr.
  destruct (applica_solleva_causa _ _ _ _ _ Htab invii_coperti Hr)
    as (c & Hc & Hcausa).
  apply In_invii in Hc. destruct Hc as (k & n & Hin & Hm & Hvett & Hv).
  exists k, n, (i_dest c). split; [assumption|]. split; [assumption|].
  destruct c as [m v d]. simpl in *. subst. exact Hcausa.
Qed.
End TabelleComplete.

Lemma raggiungibile_tabelle_complete nodi0 s :
  raggiungibile nodi0 s ->
  forall k n, In (k, n) s ->
  forall d, In d (dict_keys (tabella_routing n)) <-> In d (dict_keys s).
Proof.
  intros Hs k n Hin d. rewrite (raggiungibile_keys _ _ Hs).
  eapply raggiungibile_chiavi_tabella; eauto.
Qed.

Lemma ciclo_senza_eccezioni_chiusa nodi0 rimaste : forall it s,
  adiacenza_chiusa nodi0 = true -> costi_rappresentabili nodi0 ->
  raggiungibile nodi0 s ->
  forall e, fine (ciclo rimaste it s) <> Eccezione e.
Proof.
  induction rimaste as [|r IH]; intros it s Hch Hrap Hs e; simpl;
    [discriminate|].
  destruct (esegui_round_fatto_chiusa s (raggiungibile_tabelle_complete _ _ Hs))
    as (s' & a & Hr).
  { rewrite <- Hch. apply adiacenza_chiusa_topologia.
    now apply raggiungibile_topologia. }
  { eapply raggiungibile_rappresentabili; eauto. }
  rewrite Hr. destruct (Nat.eqb a 0); simpl; [discriminate|].
  apply IH; [assumption..|]. unfold raggiungibile in *.
  eapply evolve_round; [exact Hs | exact Hr].
Qed.

(** After a round that has completed, the next round completes too: the
    calls are those of the same links, and a distance that is [inf] now
    was [inf] before. *)
Lemma esegui_round_fatto_dopo nodi0 s s' a :
  raggiungibile nodi0 s -> esegui_round s = (s', Fatto a) ->
  exists s'' a', esegui_round s' = (s'', Fatto a').
Proof.
  intros Hs Hr.
  assert (Hs' : raggiungibile nodi0 s').
  { unfold raggiungibile in *. eapply evolve_round; [exact Hs | exact Hr]. }
  pose proof (raggiungibile_tabelle_complete _ _ Hs') as Htab'.
  rewrite esegui_round_applica in Hr. rewrite esegui_round_applica.
  apply applica_fatto; [exact Htab'|].
  intros c' Hc'. pose proof (invii_coperti s' Htab' c' Hc') as Hcov.
  apply In_invii in Hc'. destruct Hc' as (k & n' & Hin' & Hm & Hv & Hd).
  destruct (applica_indietro _ _ _ _ _ Hr k n' Hin')
    as (n & Hin & Hvic & Hmono).
  assert (Hc : In (mkInvio k (invia_vettore n) (i_dest c')) (invii s)).
  { apply In_invii. exists k, n. simpl. rewrite <- Hvic. auto. }
  destruct (applica_riuscite _ _ _ _ _ Hr _ Hc)
    as (m & costo & Hgm & Hcosto & Hov).
  simpl in Hgm, Hcosto, Hov.
  destruct (applica_rel nodo_non_crescente nodo_non_crescente_refl
              nodo_non_crescente_trans nodo_non_crescente_passo
              _ _ _ _ _ Hr (i_dest c') m Hgm) as (m' & Hgm' & Hvm & _).
  exists m'. split; [assumption|]. rewrite Hvm, Hm.
  split; [apply dict_mem_true, dict_get_Some_key; eauto|].
  split; [|assumption].
  intros costo' Hcosto'. rewrite Hcosto in Hcosto'.
  inversion Hcosto'; subst costo'.
  intros d [y|] Hds; [reflexivity|]. apply (Hov d Inf).
  rewrite Hv in Hds. apply In_invia_vettore in Hds. destruct Hds as (h' & Hds).
  destruct (raggiungibile_voci_regolari _ _ Hs' k n' Hin') as (Hnd' & _).
  apply (In_dict_get _ _ _ Hnd') in Hds.
  assert (Hdk : In d (dict_keys (tabella_routing n))).
  { apply (raggiungibile_chiavi_tabella _ _ Hs k n Hin).
    apply (raggiungibile_chiavi_tabella _ _ Hs' k n' Hin').
    apply dict_get_Some_key. eauto. }
  apply dict_get_Some_key in Hdk. destruct Hdk as ([h x] & Hx).
  destruct (Hmono d h x Hx) as (h2 & x2 & Hx2 & Hle).
  rewrite Hds in Hx2. inversion Hx2; subst h2 x2.
  destruct x as [z|]; [destruct Hle|].
  apply In_invia_vettore. exists h. now apply dict_get_In.
Qed.

(** A run whose first round completes raises nothing afterwards. *)
Lemma ciclo_dopo_primo nodi0 rimaste : forall it s,
  raggiungibile nodi0 s ->
  (exists s' a, esegui_round s = (s', Fatto a)) ->
  forall e, fine (ciclo rimaste it s) <> Eccezione e.
Proof.
  induction rimaste as [|r IH]; intros it s Hs (s' & a & Hr) e; simpl;
    [discriminate|].
  rewrite Hr. destruct (Nat.eqb a 0); simpl; [discriminate|].
  apply IH.
  - unfold raggiungibile in *. eapply evolve_round; [exact Hs | exact Hr].
  - eapply esegui_round_fatto_dopo; eauto.
Qed.

(** X7. What the exchange of vectors raises in a run of at least one
    round, and when (what printing the tables raises is the matter of X5,
    and not part of [ciclo]). An exception of the exchange is always
    raised in the first round, after its header and before any count is
    taken or any table is printed: it comes from a node that lists a
    neighbour to which its vector cannot be delivered, and it is the
    [KeyError] of a neighbour that is not a node, the [KeyError] of a
    sender that its neighbour does not list, or the [OverflowError] of a
    link whose cost the neighbour cannot convert to a [float]. A network
    in which some neighbour is not a node or does not list the node back
    always raises, and only such a network raises [KeyError]; so, when
    every link cost can be converted to a [float], the exchange raises
    exactly when some neighbour is not a node or does not list the node
    back. *)
Theorem simula_eccezione (nodi : rete) (max_iter : nat) :
  (1 <= max_iter)%nat ->
  let c := simula nodi max_iter in
  (forall e, fine c = Eccezione e ->
     conteggi c = [] /\ uscita c = [Intestazione 1] /\ causa_round nodi e) /\
  (adiacenza_chiusa nodi = false -> exists e, fine c = Eccezione e) /\
  (forall k, fine c = Eccezione (KeyError k) ->
     adiacenza_chiusa nodi = false) /\
  (costi_rappresentabili nodi ->
   ((exists e, fine c = Eccezione e) <-> adiacenza_chiusa nodi = false)).
Proof.
  intros Hm c. subst c. unfold simula.
  destruct max_iter as [|r]; [lia|].
  pose proof (raggiungibile_tabelle_complete nodi (inizializza_tutti nodi)
                (evolve_qui _)) as Htab.
  pose proof (inizializza_tutti_topologia nodi) as Htopo.
  pose proof (adiacenza_chiusa_topologia _ _ Htopo) as Hch0.
  destruct (esegui_round (inizializza_tutti nodi)) as [s' [a|e0]] eqn:Hr.
  - assert (Hno : forall e, fine (ciclo (S r) 0 (inizializza_tutti nodi))
                            <> Eccezione e).
    { apply (ciclo_dopo_primo nodi); [constructor | eauto]. }
    assert (Hch : adiacenza_chiusa nodi = false -> False).
    { intros Hch. rewrite <- Hch0 in Hch.
      destruct (esegui_round_solleva_aperta _ Hch) as (s1 & e1 & Hr1).
      congruence. }
    split; [intros e He; now apply Hno in He|].
    split; [intros Hf; now apply Hch in Hf|].
    split; [intros k He; now apply Hno in He|].
    intros _. split; [intros (e & He); now apply Hno in He|].
    intros Hf; now apply Hch in Hf.
  - pose proof (causa_round_topologia _ _ _ Htopo
                  (esegui_round_causa _ Htab _ _ Hr)) as Hcausa.
    cbn [ciclo]. rewrite Hr. cbn [fine conteggi uscita].
    split.
    { intros e He. inversion He; subst e. auto. }
    split; [eauto|].
    split.
    { intros k He. inversion He; subst e0.
      eapply causa_round_aperta; eauto. }
    intros Hrap. split; [|eauto].
    intros _. destruct e0 as [k|].
    + eapply causa_round_aperta; eauto.
    + exfalso. eapply causa_round_rappresentabili; eauto.
Qed.

(** ** Networks without links *)

Lemma senza_collegamenti_invii s : senza_collegamenti s -> invii s = [].
Proof.
  intros H. unfold invii.
  induction s as [|[k n] resto IH]; simpl; [reflexivity|].
  rewrite IH by (intros k' n' Hin; apply (H k'); now right).
  unfold invii_di. rewrite (H k n (or_introl eq_refl)). reflexivity.
Qed.

(** X8. In a network without links (the empty one and a single node among
    them) a run of at least one round stops at round 1 without a single
    call: every node keeps the table of the initialisation, distance 0 to
    itself and [inf], with no next hop, to everybody else. *)
Theorem simula_senza_collegamenti (nodi : rete) (max_iter : nat) :
  senza_collegamenti nodi -> (1 <= max_iter)%nat ->
  let c := simula nodi max_iter in
  fine c = UscitaBreak 1 /\ conteggi c = [0%nat] /\
  finale c = inizializza_tutti nodi /\
  forall k n d, dict_get k nodi = Some n -> In d (dict_keys nodi) ->
    voce_di (finale c) k d =
    Some (if String.eqb d (nome n) then (Some (nome n), Fin 0) else (None, Inf)).
Proof.
  intros Hsenza Hm c. subst c. unfold simula.
  destruct max_iter as [|r]; [lia|].
  assert (Hr : esegui_round (inizializza_tutti nodi) =
               (inizializza_tutti nodi, Fatto 0%nat)).
  { rewrite esegui_round_applica, senza_collegamenti_invii; [reflexivity|].
    intros k n Hin. apply In_inizializza_tutti in Hin.
    destruct Hin as (n0 & Hin & ->). simpl. eauto. }
  cbn [ciclo]. rewrite Hr. cbn.
  split; [reflexivity|]. split; [reflexivity|]. split; [reflexivity|].
  intros k n d Hk Hd. rewrite (voce_di_inizio _ _ _ _ Hk Hd).
  unfold voce_iniziale. rewrite (Hsenza k n (dict_get_In _ _ _ Hk)).
  reflexivity.
Qed.

(** ** The count of a round *)

Lemma aggiorna_ciclo_stretto mittente costo vett : forall (tab : tabella) m tab',
  aggiorna_ciclo mittente costo vett tab m = (tab', Fatto true) ->
  m = true \/
  exists d h x h' x', dict_get d tab = Some (h, x) /\
                      dict_get d tab' = Some (h', x') /\
                      dist_ltb x' x = true.
Proof.
  induction vett as [|[d0 s0] resto IH]; intros tab m tab';
    [simpl|rewrite aggiorna_ciclo_cons].
  - intros H; inversion H; now left.
  - destruct (somma_riesce costo s0); [|discriminate].
    destruct (dict_get d0 tab) as [[h0 cur0]|] eqn:E; [|discriminate].
    destruct (dist_ltb (candidato costo s0) cur0) eqn:L; intros H.
    + right.
      destruct (aggiorna_ciclo_voce _ _ _ _ _ _ _ H d0 (Some mittente)
                  (candidato costo s0)) as (h' & x' & Hg' & Hle & _).
      { apply dict_get_set_eq. }
      exists d0, h0, cur0, h', x'. split; [assumption|]. split; [assumption|].
      eapply dist_le_ltb_trans; eauto.
    + eapply IH; eauto.
Qed.

Lemma applica_stretto cs : forall nodi agg nodi' a,
  applica cs nodi agg = (nodi', Fatto a) -> (agg < a)%nat ->
  exists u d h x h' x', voce_di nodi u d = Some (h, x) /\
                        voce_di nodi' u d = Some (h', x') /\
                        dist_ltb x' x = true.
Proof.
  induction cs as [|c cs IH]; intros nodi agg nodi' a.
  - simpl. intros H; inversion H; lia.
  - rewrite applica_cons.
    destruct (dict_get (i_dest c) nodi) as [n0|] eqn:E; [|discriminate].
    destruct (aggiorna_tabella n0 (i_mitt c) (i_vett c)) as [n1 [b|e]] eqn:Ea;
      [|discriminate].
    destruct b; intros H Hlt.
    + apply aggiorna_tabella_inv in Ea.
      destruct Ea as [(_ & _ & ?)|(costo & tab1 & _ & Hc & ->)]; [discriminate|].
      apply aggiorna_ciclo_stretto in Hc.
      destruct Hc as [?|(d & h & x & h1 & x1 & Hg & Hg1 & Hl)]; [discriminate|].
      destruct (applica_rel nodo_non_crescente nodo_non_crescente_refl
                  nodo_non_crescente_trans nodo_non_crescente_passo
                  _ _ _ _ _ H (i_dest c) (con_tabella n0 tab1)
                  (dict_get_set_eq _ _ _)) as (n' & Hn' & _ & Hmono).
      destruct (Hmono d h1 x1 Hg1) as (h' & x' & Hg' & Hle).
      exists (i_dest c), d, h, x, h', x'. unfold voce_di. rewrite E, Hn'.
      split; [assumption|]. split; [assumption|].
      eapply dist_le_ltb_trans; eauto.
    + apply aggiorna_tabella_false in Ea. destruct Ea as (-> & _).
      rewrite (dict_set_same _ _ _ E) in H. eapply IH; eauto.
Qed.

Lemma applica_conta cs : forall nodi agg nodi' a,
  applica cs nodi agg = (nodi', Fatto a) ->
  (a <= agg + List.length cs)%nat.
Proof.
  induction cs as [|c cs IH]; intros nodi agg nodi' a.
  - simpl. intros H; inversion H; lia.
  - rewrite applica_cons.
    destruct (dict_get (i_dest c) nodi) as [n0|]; [|discriminate].
    destruct (aggiorna_tabella n0 (i_mitt c) (i_vett c)) as [n1 [b|e]];
      [|discriminate].
    intros H. apply IH in H. simpl. destruct b; lia.
Qed.

(** X9. The count of a completed round is 0 exactly when the round left
    every table as it was, so that the [break] never fires on a round that
    changed a table and never misses one that changed none; and the count
    is at most the number of calls, one per ordered pair of neighbours. *)
Theorem conteggio_esatto (s s' : rete) (a : nat) :
  esegui_round s = (s', Fatto a) ->
  (a = 0%nat <-> s' = s) /\ (a <= List.length (invii s))%nat.
Proof.
  intros Hr. split; [split|].
  - intros ->. now destruct (esegui_round_zero _ _ Hr).
  - intros ->. rewrite esegui_round_applica in Hr.
    destruct a as [|a]; [reflexivity|]. exfalso.
    destruct (applica_stretto _ _ _ _ _ Hr)
      as (u & d & h & x & h' & x' & Hv & Hv' & Hl); [lia|].
    rewrite Hv in Hv'. inversion Hv'; subst.
    destruct x' as [z|]; simpl in Hl; [|discriminate].
    rewrite Z.ltb_irrefl in Hl. discriminate.
  - rewrite esegui_round_applica in Hr. apply applica_conta in Hr. lia.
Qed.

(** ** What [simula] reads of its nodes *)

Lemma forma_keys nodi : map fst (forma nodi) = dict_keys nodi.
Proof.
  unfold forma, dict_keys. rewrite map_map. apply map_ext. now intros [k n].
Qed.

Lemma dict_set_forma k n n' nodi :
  dict_get k nodi = Some n -> nome n' = nome n -> vicini n' = vicini n ->
  forma (dict_set k n' nodi) = forma nodi.
Proof.
  unfold forma.
  induction nodi as [|[k0 n0] rest IH]; simpl; [discriminate|].
  destruct (String.eqb_spec k k0) as [->|Hne]; intros H Hn Hv; simpl.
  - inversion H; subst. now rewrite Hn, Hv.
  - now rewrite IH.
Qed.

Lemma applica_forma cs : forall nodi agg nodi' r,
  applica cs nodi agg = (nodi', r) -> forma nodi' = forma nodi.
Proof.
  induction cs as [|c cs IH]; intros nodi agg nodi' r.
  - simpl. intros H; now inversion H.
  - rewrite applica_cons.
    destruct (dict_get (i_dest c) nodi) as [n0|] eqn:E.
    + destruct (aggiorna_tabella n0 (i_mitt c) (i_vett c)) as [n' r1] eqn:Ea.
      pose proof (aggiorna_tabella_nome _ _ _ _ _ Ea) as (Hn & Hv & _).
      pose proof (dict_set_forma _ _ _ _ E Hn Hv) as Hf.
      destruct r1 as [b|e]; intros H.
      * apply IH in H. congruence.
      * inversion H; subst. assumption.
    + intros H; now inversion H.
Qed.

Lemma evolve_forma s s' : evolve s s' -> forma s' = forma s.
Proof.
  induction 1 as [s|s s1 s2 r _ IH Hr]; [reflexivity|].
  rewrite esegui_round_applica in Hr. apply applica_forma in Hr. congruence.
Qed.

Lemma inizializza_tutti_forma nodi : forma (inizializza_tutti nodi) = forma nodi.
Proof.
  unfold forma, inizializza_tutti. rewrite map_map.
  apply map_ext. now intros [k n].
Qed.

Lemma inizializza_da_forma tutti : forall a b,
  forma a = forma b ->
  map (fun '(k, n) => (k, inizializza_tabella n tutti)) a =
  map (fun '(k, n) => (k, inizializza_tabella n tutti)) b.
Proof.
  induction a as [|[k n] a IH]; intros [|[k' n'] b] H; simpl in *;
    try discriminate; [reflexivity|].
  inversion H as [[Hk Hn Hv Hrest]]. rewrite (IH b Hrest). subst k'.
  do 2 f_equal. unfold inizializza_tabella, con_tabella, voce_iniziale.
  now rewrite Hn, Hv.
Qed.

Lemma inizializza_tutti_da_forma a b :
  forma a = forma b -> inizializza_tutti a = inizializza_tutti b.
Proof.
  intros H. unfold inizializza_tutti.
  rewrite <- (forma_keys a), <- (forma_keys b), H.
  now apply inizializza_da_forma.
Qed.

(** X10. A run is determined by the keys, the names and the neighbour maps
    of the nodes: whatever their tables held is discarded by the
    initialisation, so that running [simula] again on the nodes a run has
    left repeats the same run. *)
Theorem simula_da_forma :
  (forall a b max_iter, forma a = forma b -> simula a max_iter = simula b max_iter) /\
  (forall nodi s max_iter, raggiungibile nodi s ->
     simula s max_iter = simula nodi max_iter).
Proof.
  assert (H : forall a b max_iter, forma a = forma b ->
                simula a max_iter = simula b max_iter).
  { intros a b max_iter Hf. unfold simula.
    now rewrite (inizializza_tutti_da_forma a b Hf). }
  split; [exact H|].
  intros nodi s max_iter Hs. apply H.
  apply evolve_forma in Hs. now rewrite inizializza_tutti_forma in Hs.
Qed.

(** ** The tables at the round without updates *)

Section Convergenza.
Variables (nodi : rete) (max_iter k : nat).
Hypothesis Hval : rete_valida nodi.
Hypothesis Hcosti : costi_non_negativi nodi.
Hypothesis Hbreak : fine (simula nodi max_iter) = UscitaBreak k.

Let g := topologia nodi.
Let s := finale (simula nodi max_iter).

Lemma convergenza_raggiungibile : raggiungibile nodi s.
Proof. apply simula_finale_raggiungibile. Qed.

Lemma convergenza_stabile : forall c, In c (invii s) -> stabile s c.
Proof.
  destruct (ciclo_break _ _ _ _ Hbreak) as (s1 & _ & Hr).
  destruct (esegui_round_zero _ _ Hr) as (E & Hstab).
  subst s. unfold simula. rewrite E. exact Hstab.
Qed.

Lemma convergenza_topologia : topologia s = g.
Proof. apply raggiungibile_topologia, convergenza_raggiungibile. Qed.

Lemma convergenza_inv : forall u n, In (u, n) s -> inv_grafo g u n.
Proof.
  apply raggiungibile_inv_grafo; auto using convergenza_raggiungibile.
Qed.

Lemma convergenza_valida : rete_valida s.
Proof. eapply raggiungibile_valida; eauto using convergenza_raggiungibile. Qed.

Lemma convergenza_voce u d :
  In u (dict_keys nodi) -> In d (dict_keys nodi) ->
  exists h x, voce_di s u d = Some (h, x).
Proof.
  intros Hu Hd.
  rewrite <- (raggiungibile_keys _ _ convergenza_raggiungibile) in Hu.
  apply dict_get_Some_key in Hu. destruct Hu as (n & Hn).
  destruct (convergenza_inv u n (dict_get_In _ _ _ Hn)) as (_ & _ & _ & Hk & _).
  assert (Hd' : In d (dict_keys (tabella_routing n))).
  { apply Hk. unfold g. now rewrite topologia_keys. }
  apply dict_get_Some_key in Hd'. destruct Hd' as ([h x] & Hx).
  exists h, x. unfold voce_di. now rewrite Hn.
Qed.

Lemma convergenza_sotto u d y :
  cammino g u d y -> exists h x, voce_di s u d = Some (h, Fin x) /\ x <= y.
Proof.
  apply (punto_fisso_sotto_cammini g s convergenza_topologia convergenza_inv).
  - apply rete_valida_simmetrica, Hval.
  - exact convergenza_stabile.
Qed.

Lemma convergenza_cammino u d h x :
  voce_di s u d = Some (h, Fin x) -> cammino g u d x.
Proof.
  intros Hv.
  apply (voce_fondata_cammino g u d h x);
    [|exact (voce_di_fondata g s convergenza_inv _ _ _ _ Hv)].
  unfold g. rewrite topologia_keys.
  rewrite <- (raggiungibile_keys _ _ convergenza_raggiungibile).
  unfold voce_di in Hv. destruct (dict_get u s) as [n|] eqn:E; [|discriminate].
  apply dict_get_Some_key. eauto.
Qed.

Lemma convergenza_minima u d h x :
  voce_di s u d = Some (h, Fin x) -> distanza_minima g u d x.
Proof.
  intros Hv. split; [eapply convergenza_cammino; eauto|].
  intros y Hy. destruct (convergenza_sotto _ _ _ Hy) as (h' & x' & Hv' & Hle).
  rewrite Hv in Hv'. inversion Hv'; subst. exact Hle.
Qed.

Lemma convergenza_hop u d h x :
  voce_di s u d = Some (h, Fin x) -> hop_valido g u d h.
Proof.
  intros Hv. pose proof (convergenza_minima _ _ _ _ Hv) as (_ & Hmin).
  destruct (voce_di_fondata g s convergenza_inv _ _ _ _ Hv) as (Hsame & Hdiff).
  destruct (string_dec u d) as [<-|Hne].
  - left. split; [reflexivity | now apply Hsame].
  - right. split; [assumption|].
    destruct (Hdiff Hne) as (v & c & y & -> & Harco & Hwalk & ->).
    exists v, c, y. split; [reflexivity|]. split; [assumption|].
    split.
    + split; [assumption|]. intros y' Hy'.
      specialize (Hmin (c + y') (cammino_passo _ _ _ _ _ _ Harco Hy')). lia.
    + split; [econstructor; eauto | exact Hmin].
Qed.

Lemma convergenza_infinita u d h :
  voce_di s u d = Some (h, Inf) -> h = None.
Proof.
  unfold voce_di. destruct (dict_get u s) as [n|] eqn:E; [|discriminate].
  intros Hv.
  destruct (raggiungibile_voci_regolari _ _ convergenza_raggiungibile u n
              (dict_get_In _ _ _ E)) as (_ & Hreg).
  destruct (Hreg d h Inf (dict_get_In _ _ _ Hv)) as ((H & _) & _). now apply H.
Qed.

Lemma convergenza_triangolo u v c d xv :
  arco g u v c -> distanza_di s v d = Some xv ->
  exists xu, distanza_di s u d = Some xu /\ dist_le xu (dist_add (Fin c) xv).
Proof.
  intros Harco Hxv.
  destruct (arco_invio g s convergenza_valida convergenza_topologia _ _ _ Harco)
    as (nu & m & Hnu & Hc & Hm & Hin).
  destruct (convergenza_stabile _ Hin) as (n & costo & Hn & Hcosto & Hall & _).
  simpl in Hn, Hcosto, Hall.
  rewrite Hnu in Hn. inversion Hn; subst n.
  rewrite Hc in Hcosto. inversion Hcosto; subst costo.
  unfold distanza_di, voce_di in Hxv. rewrite Hm in Hxv.
  destruct (dict_get d (tabella_routing m)) as [[hv xv']|] eqn:Ev;
    [|discriminate].
  simpl in Hxv. inversion Hxv; subst xv'.
  destruct (Hall d xv) as (h & cur & Hcur & Hl).
  { apply In_invia_vettore. exists hv. now apply dict_get_In. }
  exists cur. unfold distanza_di, voce_di. rewrite Hnu, Hcur.
  split; [reflexivity|]. now apply dist_ltb_false_le.
Qed.

Lemma convergenza_completa u d v x :
  u <> d -> voce_di s u d = Some (Some v, Fin x) ->
  exists c y, arco g u v c /\ distanza_di s v d = Some (Fin y) /\ x = c + y.
Proof.
  intros Hne Hv.
  destruct (raggiungibile_ordinato _ _ Hval Hcosti convergenza_raggiungibile)
    as (rk & Hord).
  destruct (punto_fisso_hop g s rk convergenza_valida convergenza_topologia
              convergenza_inv Hord convergenza_stabile u d v x Hne Hv)
    as (c & hv & y & Harco & Hvd & Hx & _).
  exists c, y. split; [assumption|]. split; [|assumption].
  unfold distanza_di. now rewrite Hvd.
Qed.
End Convergenza.

(** X11. Without any assumption of connectivity: when a run over a
    well-formed network with non-negative costs stops on a round without
    updates, every destination that can be reached has the cost of a
    shortest walk and a next hop that starts one, and every destination
    that cannot be reached still has the distance [inf] and no next hop. *)
Theorem simula_non_connessa (nodi : rete) (max_iter k : nat) :
  rete_valida nodi -> costi_non_negativi nodi ->
  fine (simula nodi max_iter) = UscitaBreak k ->
  forall u d, In u (dict_keys nodi) -> In d (dict_keys nodi) ->
    ((exists y, cammino (topologia nodi) u d y) ->
     exists h x, voce_di (finale (simula nodi max_iter)) u d = Some (h, Fin x) /\
                 distanza_minima (topologia nodi) u d x /\
                 hop_valido (topologia nodi) u d h) /\
    ((forall y, ~ cammino (topologia nodi) u d y) ->
     voce_di (finale (simula nodi max_iter)) u d = Some (None, Inf)).
Proof.
  intros Hval Hcosti Hk u d Hu Hd. split.
  - intros (y & Hy).
    destruct (convergenza_sotto nodi max_iter k Hval Hcosti Hk _ _ _ Hy)
      as (h & x & Hv & _).
    exists h, x. split; [assumption|]. split.
    + eapply convergenza_minima; eauto.
    + eapply convergenza_hop; eauto.
  - intros Hno.
    destruct (convergenza_voce nodi max_iter Hval Hcosti u d Hu Hd)
      as (h & [x|] & Hv).
    + exfalso. apply (Hno x). eapply convergenza_cammino; eauto.
    + now rewrite (convergenza_infinita nodi max_iter u d h Hv) in Hv.
Qed.

(** ** Links of negative cost *)

(** X12. In a network whose nodes are stored under their own names, two
    nodes that list each other with costs of negative sum keep a run from
    ever stopping on a round without updates, whatever [max_iter] is, and
    the convergence message is never printed; when moreover every
    neighbour is a node that lists the node back and every link cost can
    be converted to a [float], the exchange of vectors raises nothing, the
    loop uses up the range and every one of its [max_iter] rounds counts
    at least one update. *)
Theorem ciclo_negativo_non_converge (nodi : rete) (u v : string) (c1 c2 : Z) :
  (forall k n, In (k, n) nodi -> nome n = k) ->
  arco (topologia nodi) u v c1 -> arco (topologia nodi) v u c2 ->
  c1 + c2 < 0 ->
  forall max_iter,
    let c := simula nodi max_iter in
    (forall k, fine c <> UscitaBreak k) /\
    ~ In Convergenza (uscita c) /\
    (adiacenza_chiusa nodi = true -> costi_rappresentabili nodi ->
     fine c = RangeEsaurito /\ List.length (conteggi c) = max_iter /\
     forall a, In a (conteggi c) -> (1 <= a)%nat).
Proof.
  intros Hnomi Huv Hvu Hneg max_iter c.
  assert (Hno : forall k, fine c <> UscitaBreak k).
  { intros k Hk. subst c.
    destruct (ciclo_break _ _ _ _ Hk) as (s1 & Hev & Hr).
    destruct (esegui_round_zero _ _ Hr) as (_ & Hstab).
    pose proof (evolve_topologia _ _ Hev) as Htopo.
    rewrite inizializza_tutti_topologia in Htopo.
    rewrite <- Htopo in Huv, Hvu.
    apply arco_topologia in Huv, Hvu.
    destruct Huv as (nu & Hnu & Hc1). destruct Hvu as (m & Hm & Hc2).
    assert (Hself : exists h xu, dict_get u (tabella_routing nu) = Some (h, Fin xu)
                                 /\ xu <= 0).
    { assert (Hu0 : In u (dict_keys nodi)).
      { rewrite <- topologia_keys, <- Htopo, topologia_keys.
        apply dict_get_Some_key. eauto. }
      pose proof Hu0 as Hu1. apply dict_get_Some_key in Hu1.
      destruct Hu1 as (n0 & Hn0).
      pose proof (voce_di_inizio _ _ _ _ Hn0 Hu0) as H0.
      unfold voce_iniziale in H0.
      rewrite (Hnomi _ _ (dict_get_In _ _ _ Hn0)), String.eqb_refl in H0.
      destruct (evolve_non_crescente _ _ Hev _ _ _ _ H0) as (h & x & Hx & Hle).
      unfold voce_di in Hx. rewrite Hnu in Hx.
      destruct x as [xu|]; simpl in Hle; [|contradiction]. eauto. }
    destruct Hself as (h & xu & Hxu & Hle).
    assert (Huv : In (mkInvio u (invia_vettore nu) v) (invii s1)).
    { apply In_invii. exists u, nu. simpl.
      split; [now apply dict_get_In|]. split; [reflexivity|].
      split; [reflexivity|]. apply dict_get_Some_key. eauto. }
    assert (Hvu : In (mkInvio v (invia_vettore m) u) (invii s1)).
    { apply In_invii. exists v, m. simpl.
      split; [now apply dict_get_In|]. split; [reflexivity|].
      split; [reflexivity|]. apply dict_get_Some_key. eauto. }
    destruct (Hstab _ Huv) as (m' & k2 & Hm' & Hk2 & Hall2 & _).
    simpl in Hm', Hk2, Hall2.
    rewrite Hm in Hm'. inversion Hm'; subst m'.
    rewrite Hc2 in Hk2. inversion Hk2; subst k2.
    destruct (Hall2 u (Fin xu)) as (hm & cur & Hcur & Hl).
    { apply In_invia_vettore. exists h. now apply dict_get_In. }
    destruct cur as [y|]; simpl in Hl; [|discriminate].
    apply Z.ltb_ge in Hl.
    destruct (Hstab _ Hvu) as (nu' & k1 & Hnu' & Hk1 & Hall1 & _).
    simpl in Hnu', Hk1, Hall1.
    rewrite Hnu in Hnu'. inversion Hnu'; subst nu'.
    rewrite Hc1 in Hk1. inversion Hk1; subst k1.
    destruct (Hall1 u (Fin y)) as (h' & cur' & Hcur' & Hl').
    { apply In_invia_vettore. exists hm. now apply dict_get_In. }
    rewrite Hxu in Hcur'. inversion Hcur'; subst h' cur'.
    simpl in Hl'. apply Z.ltb_ge in Hl'. lia. }
  pose proof (ciclo_conteggi max_iter 0%nat (inizializza_tutti nodi))
    as (_ & _ & _ & H4 & _ & H6 & _).
  pose proof (ciclo_convergenza max_iter 0%nat (inizializza_tutti nodi))
    as (H8 & _).
  fold (simula nodi max_iter) in H4, H6, H8. fold c in H4, H6, H8.
  split; [exact Hno|]. split.
  - intros Hin. apply H8 in Hin. destruct Hin as (k & Hk). now apply Hno in Hk.
  - intros Hch Hrap.
    assert (Hfine : fine c = RangeEsaurito).
    { destruct (fine c) as [k| |e] eqn:E;
        [exfalso; now apply (Hno k) | reflexivity|].
      exfalso.
      apply (ciclo_senza_eccezioni_chiusa nodi max_iter 0%nat _ Hch Hrap
               (evolve_qui _) e E). }
    split; [assumption|]. split; [now apply H6|].
    intros a Ha. destruct a as [|a]; [|lia].
    apply H4 in Ha. destruct Ha as (k & Hk). now apply Hno in Hk.
Qed.

(** ** Symmetric costs *)

Lemma cammino_app g u v d x y :
  cammino g u v x -> cammino g v d y -> cammino g u d (x + y).
Proof.
  induction 1 as [u Hu|u w v c x Harco _ IH]; intros Hy.
  - exact Hy.
  - replace (c + x + y) with (c + (x + y)) by lia.
    econstructor; [exact Harco | now apply IH].
Qed.

Lemma cammino_rovescio g u d x :
  costi_simmetrici g -> cammino g u d x -> cammino g d u x.
Proof.
  intros Hsim. induction 1 as [u Hu|u v d c x Harco _ IH].
  - now constructor.
  - replace (c + x) with (x + (c + 0)) by lia.
    apply (cammino_app g d v u); [exact IH|].
    econstructor; [apply Hsim; exact Harco|].
    constructor. eapply arco_In; eauto.
Qed.

(** X13. When every link costs the same in both directions, the tables of
    the round without updates are symmetric: the distance [u] has for [d]
    is the distance [d] has for [u]. *)
Theorem distanze_simmetriche (nodi : rete) (max_iter k : nat) :
  rete_valida nodi -> costi_non_negativi nodi ->
  costi_simmetrici (topologia nodi) ->
  fine (simula nodi max_iter) = UscitaBreak k ->
  forall u d, In u (dict_keys nodi) -> In d (dict_keys nodi) ->
    exists x, distanza_di (finale (simula nodi max_iter)) u d = Some x /\
              distanza_di (finale (simula nodi max_iter)) d u = Some x.
Proof.
  intros Hval Hcosti Hsim Hk u d Hu Hd.
  destruct (convergenza_voce nodi max_iter Hval Hcosti u d Hu Hd)
    as (h & x & Hv).
  destruct (convergenza_voce nodi max_iter Hval Hcosti d u Hd Hu)
    as (h' & x' & Hv').
  exists x. unfold distanza_di. rewrite Hv, Hv'. simpl.
  split; [reflexivity|]. f_equal.
  assert (Hrev : forall a b ha xa hb xb,
            voce_di (finale (simula nodi max_iter)) a b = Some (ha, Fin xa) ->
            voce_di (finale (simula nodi max_iter)) b a = Some (hb, xb) ->
            exists z, xb = Fin z /\ z <= xa).
  { intros a b ha xa hb xb Ha Hb.
    pose proof (convergenza_cammino nodi max_iter Hval Hcosti _ _ _ _ Ha)
      as Hw.
    apply (cammino_rovescio _ _ _ _ Hsim) in Hw.
    destruct (convergenza_sotto nodi max_iter k Hval Hcosti Hk _ _ _ Hw)
      as (h2 & z & Hz & Hle).
    rewrite Hb in Hz. inversion Hz; subst. eauto. }
  destruct x as [a|], x' as [b|]; [| | |reflexivity].
  - destruct (Hrev _ _ _ _ _ _ Hv Hv') as (z & Ez & Hz).
    destruct (Hrev _ _ _ _ _ _ Hv' Hv) as (z' & Ez' & Hz').
    inversion Ez; inversion Ez'; subst. f_equal. lia.
  - destruct (Hrev _ _ _ _ _ _ Hv Hv') as (z & Ez & _). discriminate.
  - destruct (Hrev _ _ _ _ _ _ Hv' Hv) as (z & Ez & _). discriminate.
Qed.

(** X14. For a well-formed network with non-negative costs, the tables
    of the round without updates solve the Bellman equations: over every
    link, and for every destination, the distance of a node is at most
    the cost of the link plus the distance of the neighbour; and for a
    destination other than the node itself, the next hop of a finite
    entry is a neighbour whose link cost plus whose own distance is that
    entry exactly. *)
Theorem equazioni_di_bellman (nodi : rete) (max_iter k : nat) :
  rete_valida nodi -> costi_non_negativi nodi ->
  fine (simula nodi max_iter) = UscitaBreak k ->
  let s := finale (simula nodi max_iter) in
  (forall u v c d xv,
     arco (topologia nodi) u v c -> distanza_di s v d = Some xv ->
     exists xu, distanza_di s u d = Some xu /\
                dist_le xu (dist_add (Fin c) xv)) /\
  (forall u d v x,
     u <> d -> voce_di s u d = Some (Some v, Fin x) ->
     exists c y, arco (topologia nodi) u v c /\
                 distanza_di s v d = Some (Fin y) /\ x = c + y).
Proof.
  intros Hval Hcosti Hk s. split.
  - intros u v c d xv. eapply convergenza_triangolo; eauto.
  - intros u d v x. eapply convergenza_completa; eauto.
Qed.

(** ** The tables round by round *)

Lemma catena_entro nodi0 l :
  rete_valida nodi0 -> costi_non_negativi nodi0 ->
  forall s b, raggiungibile nodi0 s -> entro (topologia nodi0) s b ->
  catena s l ->
  forall j t, nth_error (s :: l) j = Some t ->
    entro (topologia nodi0) t (b + j).
Proof.
  intros Hval Hcosti.
  induction l as [|t1 l IH]; intros s b Hs Hentro Hc j t Hj.
  - destruct j as [|j]; simpl in Hj; [|destruct j; discriminate].
    inversion Hj; subst. now rewrite Nat.add_0_r.
  - destruct j as [|j]; simpl in Hj.
    + inversion Hj; subst. now rewrite Nat.add_0_r.
    + destruct Hc as ((a & Ha) & Hc).
      replace (b + S j)%nat with (S b + j)%nat by lia.
      apply (IH t1 (S b)); [| |assumption|exact Hj].
      * unfold raggiungibile in *. eapply evolve_round; [exact Hs | exact Ha].
      * eapply (entro_round (topologia nodi0) s); eauto.
        -- eapply raggiungibile_valida; eauto.
        -- now apply raggiungibile_topologia.
Qed.

(** X15. The state of a run after [j] completed rounds, for a well-formed
    network with non-negative costs: every finite distance is the cost of a
    walk that exists in the graph, so that no table is ever below the true
    distance, and no distance is above the cost of any walk of at most
    [j + 1] links. *)
Theorem tabelle_round_per_round (nodi : rete) (max_iter j : nat) (s : rete) :
  rete_valida nodi -> costi_non_negativi nodi ->
  nth_error (stati nodi max_iter) j = Some s ->
  (forall u d h x, voce_di s u d = Some (h, Fin x) ->
     cammino (topologia nodi) u d x) /\
  entro (topologia nodi) s (S j).
Proof.
  intros Hval Hcosti Hj. split.
  - intros u d h x Hv.
    assert (Hs : raggiungibile nodi s).
    { eapply stati_raggiungibili. eapply nth_error_In; eauto. }
    apply (voce_fondata_cammino _ u d h x).
    + rewrite topologia_keys, <- (raggiungibile_keys _ _ Hs).
      unfold voce_di in Hv. destruct (dict_get u s) as [n|] eqn:E;
        [|discriminate].
      apply dict_get_Some_key. eauto.
    + apply (voce_di_fondata _ s (raggiungibile_inv_grafo _ Hval Hcosti s Hs)
               _ _ _ _ Hv).
  - change (S j) with (1 + j)%nat.
    apply (catena_entro nodi
             (tabelle_di (uscita (simula nodi max_iter))) Hval Hcosti
             (inizializza_tutti nodi) 1%nat).
    + constructor.
    + now apply entro_inizio.
    + apply ciclo_catena.
    + exact Hj.
Qed.

(** ** A larger bound on the rounds *)

Lemma ciclo_uno_in_piu rimaste : forall it s,
  fine (ciclo rimaste it s) <> RangeEsaurito ->
  ciclo (S rimaste) it s = ciclo rimaste it s.
Proof.
  induction rimaste as [|r IH]; intros it s Hf.
  - exfalso. apply Hf. reflexivity.
  - revert Hf. cbn [ciclo].
    destruct (esegui_round s) as [s' [a|e]]; [|reflexivity].
    destruct (Nat.eqb a 0); [reflexivity|]. cbn [fine]. intros Hf.
    pose proof (IH (S it) s' Hf) as E. cbn [ciclo] in E. now rewrite E.
Qed.

Lemma ciclo_prefisso rimaste : forall it s,
  exists resto,
    conteggi (ciclo (S rimaste) it s) = conteggi (ciclo rimaste it s) ++ resto.
Proof.
  induction rimaste as [|r IH]; intros it s.
  - simpl. eauto.
  - destruct (IH (S it) (fst (esegui_round s))) as (resto & E).
    cbn [ciclo] in E |- *.
    destruct (esegui_round s) as [s' [a|e]]; [|exists []; reflexivity].
    destruct (Nat.eqb a 0); [exists []; reflexivity|].
    cbn [conteggi fst] in E |- *. exists resto. now rewrite E.
Qed.

(** X16. Raising [max_iter] only lets a run go on: the counts of the
    rounds of the run with the smaller bound open the list of the counts
    of the run with the larger one, and a run that has stopped on a round
    without updates, or on an exception, is the run of every larger
    bound, with the same output and the same tables. *)
Theorem simula_max_iter_maggiore (nodi : rete) (m m' : nat) :
  (m <= m')%nat ->
  (exists resto,
     conteggi (simula nodi m') = conteggi (simula nodi m) ++ resto) /\
  (fine (simula nodi m) <> RangeEsaurito -> simula nodi m' = simula nodi m).
Proof.
  intros Hle. unfold simula.
  induction Hle as [|m' Hle (IH1 & IH2)].
  - split; [exists []; now rewrite app_nil_r | reflexivity].
  - split.
    + destruct IH1 as (resto & E).
      destruct (ciclo_prefisso m' 0%nat (inizializza_tutti nodi)) as (r2 & E2).
      exists (resto ++ r2). now rewrite E2, E, app_assoc.
    + intros Hf. rewrite <- (IH2 Hf).
      apply ciclo_uno_in_piu. now rewrite (IH2 Hf).
Qed.

(** ** Additions that overflow *)

(** X17. For a sender of the neighbour map and a vector whose destinations
    are all in the table, [aggiorna_tabella] returns exactly when the cost
    of the link can be added to every distance of the vector, that is
    unless the vector holds the distance [inf] and the cost cannot be
    converted to a [float]. Otherwise it raises [OverflowError] at the
    first pair whose distance is [inf]: the pairs before it have been
    applied as by a call that returns, and nothing is rolled back. *)
Theorem aggiorna_tabella_overflow (self : Nodo) (mittente : string)
    (vett : vettore) (costo : Z) :
  dict_get mittente (vicini self) = Some costo ->
  (forall d, In d (dict_keys vett) -> In d (dict_keys (tabella_routing self))) ->
  ((exists self' b, aggiorna_tabella self mittente vett = (self', Fatto b)) <->
   senza_overflow costo vett) /\
  (senza_overflow costo vett <->
   (convertibile costo = true \/ forall d, ~ In (d, Inf) vett)) /\
  (forall self' e,
     aggiorna_tabella self mittente vett = (self', Solleva e) ->
     e = OverflowError /\ convertibile costo = false /\
     exists prima d dopo b,
       vett = prima ++ (d, Inf) :: dopo /\
       (forall k, ~ In (k, Inf) prima) /\
       aggiorna_tabella self mittente prima = (self', Fatto b)).
Proof.
  intros Hc Hsub. split; [split|split].
  - intros (self' & b & Ha).
    destruct (aggiorna_tabella_riuscita _ _ _ _ _ Ha) as (c' & Hc' & _ & Hov).
    rewrite Hc in Hc'. inversion Hc'; subst c'. exact Hov.
  - intros Hov.
    destruct (aggiorna_ciclo_fatto mittente costo vett (tabella_routing self)
                false Hsub Hov) as (tab' & b & Hl).
    exists (con_tabella self tab'), b.
    now apply (aggiorna_tabella_ciclo _ _ _ costo).
  - split.
    + intros Hov. destruct (convertibile costo) eqn:E; [now left|].
      right. intros d Hin. specialize (Hov d Inf Hin). simpl in Hov. congruence.
    + intros [Hconv|Hno]; [now apply convertibile_senza_overflow|].
      intros d [y|] Hin; [reflexivity | now apply Hno in Hin].
  - intros self' e Ha. apply aggiorna_tabella_inv in Ha.
    destruct Ha as [(Hn & _)|(c' & tab' & Hc' & Hl & ->)]; [congruence|].
    rewrite Hc in Hc'. inversion Hc'; subst c'.
    destruct (aggiorna_ciclo_solleva _ _ _ _ _ _ _ Hl)
      as (prima & k & s & dopo & m' & Hv & Hcausa & Hp).
    destruct Hcausa as [(Hs & He)|(_ & Hk & _)].
    + destruct s as [y|]; [discriminate|]. simpl in Hs.
      split; [assumption|]. split; [assumption|].
      exists prima, k, dopo, m'. split; [assumption|]. split.
      * intros d Hin.
        pose proof (aggiorna_ciclo_fatto_somma _ _ _ _ _ _ _ Hp d Inf Hin) as H.
        simpl in H. congruence.
      * now apply (aggiorna_tabella_ciclo _ _ _ costo).
    + exfalso. apply dict_get_None in Hk. apply Hk, Hsub.
      rewrite Hv. unfold dict_keys. rewrite map_app. apply in_or_app.
      right. now left.
Qed.

(** ** The further statements on concrete inputs *)

Ltac nodo_per_nodo H :=
  simpl in H; repeat destruct H as [H|H]; try contradiction; inversion H; subst.

Ltac vicino_per_vicino v Hv :=
  simpl in Hv;
  repeat match type of Hv with
         | (if String.eqb v ?w then _ else _) = _ =>
             destruct (String.eqb_spec v w) as [->|?]
         end; try discriminate.

Lemma rete_divisa_valida : rete_valida rete_divisa.
Proof.
  constructor.
  - simpl. repeat constructor; simpl; intuition discriminate.
  - intros k n H. nodo_per_nodo H; reflexivity.
  - intros k n v c H Hv. nodo_per_nodo H; vicino_per_vicino v Hv;
      (eexists; split; [reflexivity | reflexivity]).
Qed.

Lemma rete_divisa_costi : costi_non_negativi rete_divisa.
Proof.
  intros k n v c H Hv. nodo_per_nodo H; vicino_per_vicino v Hv;
    inversion Hv; lia.
Qed.

Lemma rete_divisa_D_isolato u d y :
  cammino (topologia rete_divisa) u d y -> d = "D" -> u = "D".
Proof.
  induction 1 as [u Hu|u v d c x Harco _ IH]; intros Hd; [assumption|].
  specialize (IH Hd). subst v. exfalso.
  apply arco_topologia in Harco. destruct Harco as (n & Hn & Hc).
  apply dict_get_In in Hn. nodo_per_nodo Hn; discriminate.
Qed.

Lemma rete_main_simmetrica : costi_simmetrici (topologia rete_main).
Proof.
  intros u v c Ha. apply arco_topologia in Ha. destruct Ha as (n & Hn & Hc).
  apply dict_get_In in Hn.
  nodo_per_nodo Hn; vicino_per_vicino v Hc; inversion Hc; subst;
    (eexists; split; reflexivity).
Qed.

Lemma rete_main_rappresentabili : costi_rappresentabili rete_main.
Proof.
  intros k n v c H Hv. nodo_per_nodo H; vicino_per_vicino v Hv;
    inversion Hv; vm_compute; reflexivity.
Qed.

Lemma invia_dopo_aggiorna_main :
  let r := aggiorna_tabella nodo_A_main "B" vettore_B_main in
  NoDup (dict_keys vettore_B_main) /\
  r = (fst r, Fatto true) /\
  exists costo,
    dict_get "B" (vicini nodo_A_main) = Some costo /\
    dict_keys (invia_vettore (fst r)) = dict_keys (invia_vettore nodo_A_main) /\
    forall d cur, dict_get d (invia_vettore nodo_A_main) = Some cur ->
      dict_get d (invia_vettore (fst r)) =
      Some (match dict_get d vettore_B_main with
            | Some s => dist_min (dist_add (Fin costo) s) cur
            | None => cur
            end).
Proof.
  intros r.
  assert (H1 : NoDup (dict_keys vettore_B_main)).
  { simpl. repeat constructor; simpl; intuition discriminate. }
  assert (H2 : r = (fst r, Fatto true)) by (vm_compute; reflexivity).
  split; [exact H1|]. split; [exact H2|].
  exact (invia_dopo_aggiorna nodo_A_main (fst r) "B" vettore_B_main true H1 H2).
Defined.

Lemma aggiorna_tabella_idempotente_main :
  let r := aggiorna_tabella nodo_A_main "B" vettore_B_main in
  r = (fst r, Fatto true) /\
  aggiorna_tabella (fst r) "B" vettore_B_main = (fst r, Fatto false).
Proof.
  intros r.
  assert (H : r = (fst r, Fatto true)) by (vm_compute; reflexivity).
  split; [exact H|].
  exact (aggiorna_tabella_idempotente nodo_A_main (fst r) "B" vettore_B_main
           true H).
Defined.

Lemma aggiorna_tabella_ordine_main :
  let vC := [("A", Fin 4); ("B", Fin 2); ("C", Fin 0); ("D", Fin 1)] in
  let r1 := aggiorna_tabella nodo_A_main "B" vettore_B_main in
  let r12 := aggiorna_tabella (fst r1) "C" vC in
  NoDup (dict_keys vettore_B_main) /\ NoDup (dict_keys vC) /\
  r1 = (fst r1, Fatto true) /\ r12 = (fst r12, Fatto true) /\
  exists n2 a' n21 b',
    aggiorna_tabella nodo_A_main "C" vC = (n2, Fatto a') /\
    aggiorna_tabella n2 "B" vettore_B_main = (n21, Fatto b') /\
    forall d, dict_get d (invia_vettore (fst r12)) =
              dict_get d (invia_vettore n21).
Proof.
  intros vC r1 r12.
  assert (H1 : NoDup (dict_keys vettore_B_main)).
  { simpl. repeat constructor; simpl; intuition discriminate. }
  assert (H2 : NoDup (dict_keys vC)).
  { simpl. repeat constructor; simpl; intuition discriminate. }
  assert (H3 : r1 = (fst r1, Fatto true)) by (vm_compute; reflexivity).
  assert (H4 : r12 = (fst r12, Fatto true)) by (vm_compute; reflexivity).
  split; [exact H1|]. split; [exact H2|]. split; [exact H3|].
  split; [exact H4|].
  exact (aggiorna_tabella_ordine nodo_A_main (fst r1) (fst r12) "B" "C"
           vettore_B_main vC true true H1 H2 H3 H4).
Defined.

Lemma voci_regolari_invariante_main :
  let s := inizializza_tutti rete_main in
  In s (stati rete_main 3) /\
  voce_di s "A" "C" = Some (Some "C", Fin 4) /\
  (Fin 4 = Inf <-> Some "C" = @None string) /\
  forall v, Some "C" = Some v ->
    exists n, dict_get "A" s = Some n /\
              (v = nome n \/ In v (dict_keys (vicini n))).
Proof.
  intros s.
  assert (H1 : In s (stati rete_main 3)) by (left; reflexivity).
  assert (H2 : voce_di s "A" "C" = Some (Some "C", Fin 4)) by reflexivity.
  split; [exact H1|]. split; [exact H2|].
  exact (proj2 (voci_regolari_invariante rete_main) 3%nat s H1
           "A" "C" (Some "C") (Fin 4) H2).
Defined.

Lemma stampa_tabella_riesce_main :
  let s := finale (simula rete_main max_iter_default) in
  raggiungibile rete_main s /\
  (forall k n, In (k, n) s -> distanze_stampabili n) /\
  (exists righe, stampa_tutti s [] = Stampato righe) /\
  forall k n, In (k, n) s ->
    exists righe, stampa_tabella n = Stampato righe /\
                  List.length righe = (2 + List.length (tabella_routing n))%nat.
Proof.
  intros s.
  assert (H : raggiungibile rete_main s) by apply simula_finale_raggiungibile.
  assert (H2 : forall k n, In (k, n) s -> distanze_stampabili n).
  { intros k n Hin d h x Hd. vm_compute in Hin.
    repeat destruct Hin as [Hin|Hin]; try contradiction;
      inversion Hin; subst; vm_compute in Hd;
      repeat destruct Hd as [Hd|Hd]; try contradiction;
      inversion Hd; subst; vm_compute; reflexivity. }
  split; [exact H|]. split; [exact H2|].
  exact (proj2 (proj2 stampa_tabella_riesce rete_main s H) H2).
Defined.

Lemma riga_tabella_allineata_main :
  riga_tabella "D" (Some "B", Fin 4) =
    inl "     D       |    B     |    4    " /\
  riga_di_campi "     D       |    B     |    4    " "D" "B" (decimale 4).
Proof.
  assert (H : riga_tabella "D" (Some "B", Fin 4) =
              inl "     D       |    B     |    4    ")
    by (vm_compute; reflexivity).
  split; [exact H|].
  exact (proj1 (proj2 riga_tabella_allineata) "D" (Some "B", Fin 4) _ H).
Defined.

Lemma simula_eccezione_aperta :
  let c := simula rete_aperta 3 in
  let c' := simula rete_enorme 3 in
  (1 <= 3)%nat /\
  fine c = Eccezione (KeyError "B") /\
  conteggi c = [] /\ uscita c = [Intestazione 1] /\
  causa_round rete_aperta (KeyError "B") /\
  adiacenza_chiusa rete_aperta = false /\
  adiacenza_chiusa rete_enorme = true /\
  fine c' = Eccezione OverflowError /\
  conteggi c' = [] /\ uscita c' = [Intestazione 1] /\
  causa_round rete_enorme OverflowError.
Proof.
  intros c c'.
  assert (H1 : (1 <= 3)%nat) by lia.
  assert (H2 : fine c = Eccezione (KeyError "B")) by (vm_compute; reflexivity).
  assert (H3 : fine c' = Eccezione OverflowError) by (vm_compute; reflexivity).
  split; [exact H1|]. split; [exact H2|].
  destruct (simula_eccezione rete_aperta 3 H1) as (Hcausa & _ & Hkey & _).
  destruct (Hcausa _ H2) as (Hc & Hu & Hr).
  split; [exact Hc|]. split; [exact Hu|]. split; [exact Hr|].
  split; [exact (Hkey "B" H2)|].
  split; [vm_compute; reflexivity|]. split; [exact H3|].
  exact (proj1 (simula_eccezione rete_enorme 3 H1) _ H3).
Defined.

Lemma simula_senza_collegamenti_esempio :
  let nodi := [("A", nodo_main "A" []); ("B", nodo_main "B" [])] in
  senza_collegamenti nodi /\ (1 <= 5)%nat /\
  fine (simula nodi 5) = UscitaBreak 1 /\
  conteggi (simula nodi 5) = [0%nat] /\
  voce_di (finale (simula nodi 5)) "A" "B" = Some (None, Inf).
Proof.
  intros nodi.
  assert (H1 : senza_collegamenti nodi).
  { intros k n H. nodo_per_nodo H; reflexivity. }
  assert (H2 : (1 <= 5)%nat) by lia.
  split; [exact H1|]. split; [exact H2|].
  destruct (simula_senza_collegamenti nodi 5 H1 H2) as (Hf & Hc & _ & Hv).
  split; [exact Hf|]. split; [exact Hc|].
  apply (Hv "A" (nodo_main "A" []) "B"); [reflexivity | simpl; tauto].
Defined.

Lemma simula_non_connessa_divisa :
  let c := simula rete_divisa 10 in
  rete_valida rete_divisa /\ costi_non_negativi rete_divisa /\
  fine c = UscitaBreak 2 /\
  (exists h x, voce_di (finale c) "A" "C" = Some (h, Fin x) /\
               distanza_minima (topologia rete_divisa) "A" "C" x /\
               hop_valido (topologia rete_divisa) "A" "C" h) /\
  voce_di (finale c) "A" "D" = Some (None, Inf).
Proof.
  intros c.
  assert (H : fine c = UscitaBreak 2) by (vm_compute; reflexivity).
  split; [exact rete_divisa_valida|]. split; [exact rete_divisa_costi|].
  split; [exact H|].
  split.
  - apply (proj1 (simula_non_connessa rete_divisa 10 2 rete_divisa_valida
                    rete_divisa_costi H "A" "C"
                    ltac:(simpl; tauto) ltac:(simpl; tauto))).
    exists (2 + (3 + 0)).
    apply cammino_passo with (v := "B"); [eexists; split; reflexivity|].
    apply cammino_passo with (v := "C"); [eexists; split; reflexivity|].
    constructor. simpl. tauto.
  - apply (proj2 (simula_non_connessa rete_divisa 10 2 rete_divisa_valida
                    rete_divisa_costi H "A" "D"
                    ltac:(simpl; tauto) ltac:(simpl; tauto))).
    intros y Hy. apply rete_divisa_D_isolato in Hy; [discriminate | reflexivity].
Defined.

Lemma ciclo_negativo_non_converge_esempio :
  (forall k n, In (k, n) rete_negativa -> nome n = k) /\
  arco (topologia rete_negativa) "A" "B" (-1) /\
  arco (topologia rete_negativa) "B" "A" (-1) /\
  -1 + -1 < 0 /\
  adiacenza_chiusa rete_negativa = true /\
  costi_rappresentabili rete_negativa /\
  forall max_iter,
    fine (simula rete_negativa max_iter) = RangeEsaurito /\
    List.length (conteggi (simula rete_negativa max_iter)) = max_iter.
Proof.
  assert (H1 : forall k n, In (k, n) rete_negativa -> nome n = k).
  { intros k n H. nodo_per_nodo H; reflexivity. }
  assert (H2 : arco (topologia rete_negativa) "A" "B" (-1))
    by (eexists; split; reflexivity).
  assert (H3 : arco (topologia rete_negativa) "B" "A" (-1))
    by (eexists; split; reflexivity).
  assert (H4 : -1 + -1 < 0) by lia.
  assert (H5 : adiacenza_chiusa rete_negativa = true) by reflexivity.
  assert (H6 : costi_rappresentabili rete_negativa).
  { intros k n v c H Hv. nodo_per_nodo H; vicino_per_vicino v Hv;
      inversion Hv; vm_compute; reflexivity. }
  split; [exact H1|]. split; [exact H2|]. split; [exact H3|].
  split; [exact H4|]. split; [exact H5|]. split; [exact H6|].
  intros max_iter.
  destruct (ciclo_negativo_non_converge rete_negativa "A" "B" (-1) (-1)
              H1 H2 H3 H4 max_iter) as (_ & _ & H).
  destruct (H H5 H6) as (Hf & Hl & _). split; [exact Hf | exact Hl].
Defined.

Lemma distanze_simmetriche_main :
  let c := simula rete_main max_iter_default in
  costi_simmetrici (topologia rete_main) /\ fine c = UscitaBreak 3 /\
  exists x, distanza_di (finale c) "A" "D" = Some x /\
            distanza_di (finale c) "D" "A" = Some x.
Proof.
  intros c.
  assert (H : fine c = UscitaBreak 3) by (vm_compute; reflexivity).
  split; [exact rete_main_simmetrica|]. split; [exact H|].
  apply (distanze_simmetriche rete_main max_iter_default 3 rete_main_valida
           rete_main_costi rete_main_simmetrica H "A" "D");
    simpl; tauto.
Defined.

Lemma equazioni_di_bellman_main :
  let s := finale (simula rete_main max_iter_default) in
  fine (simula rete_main max_iter_default) = UscitaBreak 3 /\
  voce_di s "A" "D" = Some (Some "B", Fin 4) /\
  exists c y, arco (topologia rete_main) "A" "B" c /\
              distanza_di s "B" "D" = Some (Fin y) /\ 4 = c + y.
Proof.
  intros s.
  assert (H : fine (simula rete_main max_iter_default) = UscitaBreak 3)
    by (vm_compute; reflexivity).
  assert (Hv : voce_di s "A" "D" = Some (Some "B", Fin 4))
    by (vm_compute; reflexivity).
  split; [exact H|]. split; [exact Hv|].
  apply (proj2 (equazioni_di_bellman rete_main max_iter_default 3
                  rete_main_valida rete_main_costi H) "A" "D" "B" 4);
    [discriminate | exact Hv].
Defined.

Lemma conteggio_esatto_main :
  exists s' a,
    esegui_round (inizializza_tutti rete_main) = (s', Fatto a) /\
    (a = 0%nat <-> s' = inizializza_tutti rete_main) /\
    (a <= List.length (invii (inizializza_tutti rete_main)))%nat.
Proof.
  exists (fst (esegui_round (inizializza_tutti rete_main))), 6%nat.
  assert (H : esegui_round (inizializza_tutti rete_main) =
              (fst (esegui_round (inizializza_tutti rete_main)), Fatto 6%nat))
    by (vm_compute; reflexivity).
  split; [exact H|].
  exact (conteggio_esatto _ _ _ H).
Defined.

Lemma simula_da_forma_main :
  raggiungibile rete_main (finale (simula rete_main max_iter_default)) /\
  forall max_iter,
    simula (finale (simula rete_main max_iter_default)) max_iter =
    simula rete_main max_iter.
Proof.
  assert (H : raggiungibile rete_main (finale (simula rete_main max_iter_default)))
    by apply simula_finale_raggiungibile.
  split; [exact H|].
  intros max_iter. exact (proj2 simula_da_forma rete_main _ max_iter H).
Defined.

Lemma tabelle_round_per_round_main :
  exists s,
    nth_error (stati rete_main max_iter_default) 1 = Some s /\
    (forall u d h x, voce_di s u d = Some (h, Fin x) ->
       cammino (topologia rete_main) u d x) /\
    entro (topologia rete_main) s 2.
Proof.
  exists (fst (esegui_round (inizializza_tutti rete_main))).
  assert (H : nth_error (stati rete_main max_iter_default) 1 =
              Some (fst (esegui_round (inizializza_tutti rete_main))))
    by (vm_compute; reflexivity).
  split; [exact H|].
  exact (tabelle_round_per_round rete_main max_iter_default 1 _
           rete_main_valida rete_main_costi H).
Defined.

Lemma simula_max_iter_maggiore_main :
  (3 <= max_iter_default)%nat /\
  fine (simula rete_main 3) <> RangeEsaurito /\
  simula rete_main max_iter_default = simula rete_main 3.
Proof.
  assert (H1 : (3 <= max_iter_default)%nat) by (vm_compute; lia).
  assert (H2 : fine (simula rete_main 3) <> RangeEsaurito)
    by (vm_compute; discriminate).
  split; [exact H1|]. split; [exact H2|].
  exact (proj2 (simula_max_iter_maggiore rete_main 3 max_iter_default H1) H2).
Defined.

Lemma aggiorna_tabella_overflow_esempio :
  let nodo_B := inizializza_tabella (nodo_main "B" [("A", 2 ^ 1024); ("C", 1)])
                                   ["A"; "B"; "C"] in
  let vett_A := [("A", Fin 0); ("B", Fin (2 ^ 1024)); ("C", Inf)] in
  dict_get "A" (vicini nodo_B) = Some (2 ^ 1024) /\
  (forall d, In d (dict_keys vett_A) ->
             In d (dict_keys (tabella_routing nodo_B))) /\
  aggiorna_tabella nodo_B "A" vett_A = (nodo_B, Solleva OverflowError) /\
  convertibile (2 ^ 1024) = false /\
  ~ senza_overflow (2 ^ 1024) vett_A.
Proof.
  intros nodo_B vett_A.
  assert (H1 : dict_get "A" (vicini nodo_B) = Some (2 ^ 1024)) by reflexivity.
  assert (H2 : forall d, In d (dict_keys vett_A) ->
                         In d (dict_keys (tabella_routing nodo_B))).
  { intros d Hd. exact Hd. }
  assert (H3 : aggiorna_tabella nodo_B "A" vett_A =
               (nodo_B, Solleva OverflowError)) by (vm_compute; reflexivity).
  split; [exact H1|]. split; [exact H2|]. split; [exact H3|].
  destruct (aggiorna_tabella_overflow nodo_B "A" vett_A (2 ^ 1024) H1 H2)
    as (Hiff & _ & Hsolleva).
  destruct (Hsolleva _ _ H3) as (_ & Hconv & _).
  split; [exact Hconv|].
  intros Hov. apply Hiff in Hov. destruct Hov as (self' & b & Ha).
  rewrite H3 in Ha. discriminate.
Defined.
